(** * NDVI alignment, gap filling, stacking and majority filtering

    A shallow embedding of the batch scripts
    [scripts/11_NDVI_inta_verano.py],
    [scripts/Coronel Suarez/11_NDVI_coronel_suarez_verano.py] and
    [scripts/MWM_filter/mwm_3_arroyos.py], followed by the properties
    established about them.

    Conventions of the embedding:
    - a numpy [float32] sample is an IEEE-754 binary32 value
      ([spec_float] with precision 24 and maximal exponent 128);
    - a two-dimensional numpy array is its shape together with the
      function from (row, column) to the sample stored there;
    - pixel indices and window bounds are unbounded integers ([Z]): they
      are far below the int64 range for any raster that fits in memory;
    - [exit(n)] ends a run: a stage returns either the value it hands to
      the next stage or the exit code, together with the diagnostic
      lines it printed (progress banners are not recorded). *)

From Stdlib Require Import ZArith List Bool Lia String Ascii.
From Stdlib Require Import Floats.SpecFloat.
From stdpp Require Import base list gmap strings pretty sorting.

(* ================================================================== *)
(** * Part I: the programs                                             *)
(* ================================================================== *)

(** ** float32 samples *)

Module F32.

Definition prec : Z := 24.
Definition emax : Z := 128.

Definition f32 : Type := spec_float.

Definition nan : f32 := S754_nan.
Definition cero : f32 := S754_zero false.

(** [np.isnan] *)
Definition isnan (x : f32) : bool :=
  match x with S754_nan => true | _ => false end.

Definition add : f32 → f32 → f32 := SFadd prec emax.
Definition sub : f32 → f32 → f32 := SFsub prec emax.
Definition mul : f32 → f32 → f32 := SFmul prec emax.
Definition div : f32 → f32 → f32 := SFdiv prec emax.
Definition sqrt : f32 → f32 := SFsqrt prec emax.

(** [==], [<=] and [<] of IEEE-754: every comparison with NaN is false. *)
Definition eqb : f32 → f32 → bool := SFeqb.
Definition leb : f32 → f32 → bool := SFleb.
Definition ltb : f32 → f32 → bool := SFltb.

(** The float32 nearest to an integer. *)
Definition of_Z (z : Z) : f32 := binary_normalize prec emax z 0 false.

(** The literal [2.0]. *)
Definition dos : f32 := Eval cbv in of_Z 2.

(** A decimal literal [n / 10^k] rounded to float32, for examples. *)
Definition decimal (n : Z) (k : nat) : f32 := div (of_Z n) (of_Z (10 ^ Z.of_nat k)).

End F32.

Abbreviation f32 := F32.f32.

(** ** Two-dimensional arrays *)

Record ndarray (A : Type) : Type := NDArray {
  nfilas : nat;
  ncols : nat;
  celda : nat → nat → A
}.
Arguments NDArray {A} _ _ _.
Arguments nfilas {A} _.
Arguments ncols {A} _.
Arguments celda {A} _ _ _.

(** [a.shape] *)
Definition shape {A} (a : ndarray A) : nat * nat := (nfilas a, ncols a).

(** [a.size] *)
Definition size_of {A} (a : ndarray A) : nat := nfilas a * ncols a.

(** An array literal given by its rows; [d] pads short rows. *)
Definition of_rows {A} (d : A) (filas : list (list A)) : ndarray A :=
  NDArray (length filas)
          (match filas with [] => 0 | f :: _ => length f end)
          (λ r c, nth c (nth r filas []) d).

(** The rows of an array, for inspection. *)
Definition to_rows {A} (a : ndarray A) : list (list A) :=
  map (λ r, map (λ c, celda a r c) (seq 0 (ncols a))) (seq 0 (nfilas a)).

(** Elementwise equality on the index range of the arrays. *)
Definition mismo_contenido {A} (a b : ndarray A) : Prop :=
  shape a = shape b ∧
  ∀ r c, r < nfilas a → c < ncols a → celda a r c = celda b r c.

(** [np.full(shape, v)] *)
Definition np_full {A} (h w : nat) (v : A) : ndarray A := NDArray h w (λ _ _, v).

(** [data[data == nodata] = np.nan], guarded by [nodata is not None]. *)
Definition aplicar_nodata (nodata : option f32) (data : ndarray f32) : ndarray f32 :=
  match nodata with
  | None => data
  | Some nd =>
      NDArray (nfilas data) (ncols data)
              (λ r c, if F32.eqb (celda data r c) nd then F32.nan else celda data r c)
  end.

(** [np.sum(~np.isnan(a))] *)
Definition contar_validos (a : ndarray f32) : nat :=
  list_sum (map (λ r, length (filter (λ c, F32.isnan (celda a r c) = false) (seq 0 (ncols a))))
                (seq 0 (nfilas a))).

(** ** Runs that may exit *)

(** How a stage ends: it hands a value on, it calls [exit(codigo)], or
    an exception nobody catches ends the interpreter. *)
Inductive resultado (A : Type) : Type :=
  | Continua (a : A)
  | Exit (codigo : Z)
  | Excepcion (nombre : string).
Arguments Continua {A} _.
Arguments Exit {A} _.
Arguments Excepcion {A} _.

(** A stage: the diagnostics printed, and how the stage ended. *)
Definition etapa (A : Type) : Type := list string * resultado A.

Definition nl : string := String (ascii_of_nat 10) EmptyString.

(** ** Valid-window detector (both NDVI scripts, step 2) *)

Record area : Type := Area {
  fila_inicio : Z;
  fila_fin : Z;
  col_inicio : Z;
  col_fin : Z;
  width : Z;
  height : Z
}.

(** [~np.all(np.isnan(data), axis=1)] *)
Definition filas_validas (data : ndarray f32) : list bool :=
  map (λ r, negb (forallb (λ c, F32.isnan (celda data r c)) (seq 0 (ncols data))))
      (seq 0 (nfilas data)).

(** [~np.all(np.isnan(data), axis=0)] *)
Definition cols_validas (data : ndarray f32) : list bool :=
  map (λ c, negb (forallb (λ r, F32.isnan (celda data r c)) (seq 0 (nfilas data))))
      (seq 0 (ncols data)).

(** [np.any] on a boolean vector. *)
Definition np_any (v : list bool) : bool := existsb id v.

(** [np.argmax] on a boolean vector: the index of the first [True], and
    0 when there is none (every entry is then the maximum). *)
Fixpoint argmax (v : list bool) : nat :=
  match v with
  | [] => 0
  | true :: _ => 0
  | false :: v' => if np_any v' then S (argmax v') else 0
  end.

(** The body of the analysis loop, after the nodata marker was applied:
    [None] is the [else] branch that warns "no tiene datos validos". *)
Definition detectar_area (data : ndarray f32) : option area :=
  let fv := filas_validas data in
  let cv := cols_validas data in
  if np_any fv && np_any cv then
    let fi := Z.of_nat (argmax fv) in
    let ff := (Z.of_nat (length fv) - Z.of_nat (argmax (reverse fv)))%Z in
    let ci := Z.of_nat (argmax cv) in
    let cf := (Z.of_nat (length cv) - Z.of_nat (argmax (reverse cv)))%Z in
    Some (Area fi ff ci cf (cf - ci) (ff - fi))
  else None.

(** One iteration of the loop over [ndvi_files]. *)
Definition analizar_raster (nodata : option f32) (banda : ndarray f32) : option area :=
  detectar_area (aplicar_nodata nodata banda).

(** The list [areas_validas] built by the loop. *)
Definition areas_validas (rasters : list (option f32 * ndarray f32)) : list (option area) :=
  map (λ nb, analizar_raster nb.1 nb.2) rasters.

(** ** Grid aligner, intersection policy ([11_NDVI_inta_verano.py]) *)

(** Python's [max] and [min] on a list; [None] stands for the
    [ValueError] raised on an empty list. *)
Definition py_max (l : list Z) : option Z :=
  match l with
  | [] => None
  | x :: l' => Some (fold_left (λ m y, if (m <? y)%Z then y else m) l' x)
  end.

Definition py_min (l : list Z) : option Z :=
  match l with
  | [] => None
  | x :: l' => Some (fold_left (λ m y, if (y <? m)%Z then y else m) l' x)
  end.

(** [[a for a in areas_validas if a is not None]] *)
Definition areas_validas_filtradas (areas : list (option area)) : list area :=
  omap id areas.

(** The dictionary [recorte_comun] with its [width] and [height]. *)
Definition recorte_comun (filtradas : list area) : option area :=
  fi ← py_max (map fila_inicio filtradas);
  ff ← py_min (map fila_fin filtradas);
  ci ← py_max (map col_inicio filtradas);
  cf ← py_min (map col_fin filtradas);
  Some (Area fi ff ci cf (cf - ci) (ff - fi)).

Definition msg_sin_areas : string :=
  nl +:+ "[ERROR] No se encontraron áreas válidas en los rasters NDVI.".

(** Lines 149-165: filter, guard against the empty list, intersect. *)
Definition alinear_interseccion (areas : list (option area)) : etapa area :=
  let filtradas := areas_validas_filtradas areas in
  match filtradas with
  | [] => ([msg_sin_areas], Exit 1)
  | _ =>
      match recorte_comun filtradas with
      | Some rc => ([], Continua rc)
      | None => ([], Excepcion "ValueError")
      end
  end.

(** The arguments of the call
    [Window(col_off=..., row_off=..., width=..., height=...)] of lines
    205-211; what the raster library does with them is not part of the
    scripts. *)
Record Window : Type := MkWindow {
  col_off : Z;
  row_off : Z;
  win_width : Z;
  win_height : Z
}.

Definition ventana (rc : area) : Window :=
  MkWindow (col_inicio rc) (fila_inicio rc) (width rc) (height rc).

(** A stage aborts when it does not hand a value on. *)
Definition aborta {A} (e : etapa A) : Prop :=
  match e.2 with Continua _ => False | _ => True end.

(** A window is degenerate when it has no pixel. *)
Definition degenerado (rc : area) : Prop := (width rc ≤ 0 ∨ height rc ≤ 0)%Z.

(** [x] is the greatest (least) element of [l]. *)
Definition es_maximo (x : Z) (l : list Z) : Prop := x ∈ l ∧ ∀ y, (y ∈ l → y ≤ x)%Z.
Definition es_minimo (x : Z) (l : list Z) : Prop := x ∈ l ∧ ∀ y, (y ∈ l → x ≤ y)%Z.

(** Sample windows: [area_a] and [area_b] are disjoint. *)
Definition area_a : area := Area 0 2 0 2 2 2.
Definition area_b : area := Area 3 5 3 5 2 2.
Definition area_c : area := Area 1 4 0 3 3 3.

(** ** Vocabulary for the valid-window detector *)

(** A sample is non-missing. *)
Definition valido (data : ndarray f32) (r c : nat) : Prop :=
  r < nfilas data ∧ c < ncols data ∧ F32.isnan (celda data r c) = false.

(** A row (column) is valid when it holds a non-missing sample. *)
Definition fila_valida (data : ndarray f32) (r : nat) : Prop := ∃ c, valido data r c.
Definition col_valida (data : ndarray f32) (c : nat) : Prop := ∃ r, valido data r c.

(** [n] is the first (last) index with property [P]. *)
Definition primera (P : nat → Prop) (n : nat) : Prop := P n ∧ ∀ i, i < n → ¬ P i.
Definition ultima (P : nat → Prop) (n : nat) : Prop := P n ∧ ∀ i, n < i → ¬ P i.

(** The non-missing samples fill exactly the rectangle
    [r0 <= r < r1], [c0 <= c < c1]. *)
Definition rectangulo_valido (data : ndarray f32) (r0 r1 c0 c1 : nat) : Prop :=
  r0 < r1 ≤ nfilas data ∧ c0 < c1 ≤ ncols data ∧
  ∀ r c, r < nfilas data → c < ncols data →
    (F32.isnan (celda data r c) = false ↔ (r0 ≤ r < r1 ∧ c0 ≤ c < c1)).

Definition uno : f32 := Eval cbv in F32.of_Z 1.

(** A 4x5 raster whose valid samples fill rows 1-2 and columns 2-3. *)
Definition raster_borde : ndarray f32 :=
  of_rows F32.nan
    [ [F32.nan; F32.nan; F32.nan; F32.nan; F32.nan];
      [F32.nan; F32.nan; uno;     uno;     F32.nan];
      [F32.nan; F32.nan; uno;     uno;     F32.nan];
      [F32.nan; F32.nan; F32.nan; F32.nan; F32.nan] ].

(** A 2x2 raster without any valid sample. *)
Definition raster_vacio : ndarray f32 :=
  of_rows F32.nan [ [F32.nan; F32.nan]; [F32.nan; F32.nan] ].

(** ** Elementwise operations *)

(** [f(a)] applied sample by sample. *)
Definition map_nd {A B} (f : A → B) (a : ndarray A) : ndarray B :=
  NDArray (nfilas a) (ncols a) (λ r c, f (celda a r c)).

(** [a op b] sample by sample. Operands of different shapes make numpy
    raise ([None]); the scripts only combine bands of one shape, so
    broadcasting between different shapes is not modelled. *)
Definition zip_nd {A B C} (f : A → B → C) (a : ndarray A) (b : ndarray B)
  : option (ndarray C) :=
  if decide (shape a = shape b)
  then Some (NDArray (nfilas a) (ncols a) (λ r c, f (celda a r c) (celda b r c)))
  else None.

(** [np.isnan(a)] and [~np.isnan(a)] *)
Definition np_isnan (a : ndarray f32) : ndarray bool := map_nd F32.isnan a.
Definition np_not_isnan (a : ndarray f32) : ndarray bool :=
  map_nd (λ x, negb (F32.isnan x)) a.

(** ** The Python store of the gap-filling step

    numpy arrays are mutable objects and [bandas_ndvi] is a list of
    references to them, so the step is modelled on a store: the buffers
    by address, the list as addresses. *)

Abbreviation loc := nat.

Record estado : Type := Estado {
  heap : gmap nat (ndarray f32);
  bandas_ndvi : list loc;
  banda_verano : loc
}.

(** A computation on the store; [None] is an uncaught exception. *)
Definition M (A : Type) : Type := estado → option (A * estado).

#[global] Instance M_ret : MRet M := λ A a st, Some (a, st).
#[global] Instance M_bind : MBind M := λ A B f m st,
  match m st with
  | Some (a, st') => f a st'
  | None => None
  end.

(** Raise when a pure operation raised. *)
Definition lift {A} (o : option A) : M A := λ st, a ← o; Some (a, st).

(** Read the buffer behind a reference. *)
Definition leer (l : loc) : M (ndarray f32) := λ st, a ← heap st !! l; Some (a, st).

(** Allocate a new buffer. *)
Definition nuevo (a : ndarray f32) : M loc := λ st,
  let l := fresh (dom (heap st)) in
  Some (l, Estado (<[l := a]> (heap st)) (bandas_ndvi st) (banda_verano st)).

(** [arr.copy()] *)
Definition copy (l : loc) : M loc := a ← leer l; nuevo a.

(** [len(bandas_ndvi)] *)
Definition len_bandas : M nat := λ st, Some (length (bandas_ndvi st), st).

(** [bandas_ndvi[i]]; out of range raises [IndexError]. *)
Definition elemento (i : nat) : M loc := λ st, l ← bandas_ndvi st !! i; Some (l, st).

(** [bandas_ndvi[i] = l]; out of range raises [IndexError]. *)
Definition asignar_elemento (i : nat) (l : loc) : M unit := λ st,
  if decide (i < length (bandas_ndvi st))
  then Some (tt, Estado (heap st) (<[i := l]> (bandas_ndvi st)) (banda_verano st))
  else None.

(** [dst[mask] = vals[mask]], in place: the samples of [dst] under the
    mask take the value at the same position of [vals]. *)
Definition asignar_mascara (dst : loc) (mask : ndarray bool) (vals : ndarray f32) : M unit :=
  λ st,
  d ← heap st !! dst;
  if decide (shape mask = shape d ∧ shape vals = shape d)
  then Some (tt, Estado
               (<[dst := NDArray (nfilas d) (ncols d)
                           (λ r c, if celda mask r c then celda vals r c else celda d r c)]>
                  (heap st))
               (bandas_ndvi st) (banda_verano st))
  else None.

(** ** Temporal gap filler (Coronel Suarez script, step 3.5) *)

Definition indice_mayo : nat := 5.
Definition indice_abril : nat := 4.
Definition indice_junio : nat := 6.

(** [100 * n_validos / total_pixels < 50]. The quotient is a float64;
    for pixel counts below 2^53 / 100 the test is the exact comparison
    [100 n < 50 total], and with [total = 0] the quotient is NaN and the
    test is false. *)
Definition bajo_umbral (n_validos total_pixels : nat) : bool :=
  (0 <? total_pixels) && (100 * n_validos <? 50 * total_pixels).

(** Lines 389-453. *)
Definition interpolar_mayo : M unit :=
  n ← len_bandas;
  if decide (indice_mayo < n) then
    l_mayo ← elemento indice_mayo;
    banda_mayo ← copy l_mayo;
    mayo ← leer banda_mayo;
    let total_pixels := size_of mayo in
    let n_validos_mayo := contar_validos mayo in
    if bajo_umbral n_validos_mayo total_pixels then
      if decide (indice_junio < n ∧ indice_abril < n) then
        l_abril ← elemento indice_abril;
        banda_abril ← copy l_abril;
        l_junio ← elemento indice_junio;
        banda_junio ← copy l_junio;
        let mask_necesita_interp := np_isnan mayo in
        mayo_interpolado ← copy banda_mayo;
        (* case 1: April and June are both valid *)
        abril ← leer banda_abril;
        junio ← leer banda_junio;
        m1 ← lift (zip_nd andb mask_necesita_interp (np_not_isnan abril));
        mask_ambos_validos ← lift (zip_nd andb m1 (np_not_isnan junio));
        abril ← leer banda_abril;
        junio ← leer banda_junio;
        suma ← lift (zip_nd F32.add abril junio);
        asignar_mascara mayo_interpolado mask_ambos_validos
                        (map_nd (λ s, F32.div s F32.dos) suma);;
        (* case 2: only April is valid *)
        abril ← leer banda_abril;
        junio ← leer banda_junio;
        m2 ← lift (zip_nd andb mask_necesita_interp (np_not_isnan abril));
        mask_solo_abril ← lift (zip_nd andb m2 (np_isnan junio));
        abril ← leer banda_abril;
        asignar_mascara mayo_interpolado mask_solo_abril abril;;
        (* case 3: only June is valid *)
        abril ← leer banda_abril;
        junio ← leer banda_junio;
        m3 ← lift (zip_nd andb mask_necesita_interp (np_isnan abril));
        mask_solo_junio ← lift (zip_nd andb m3 (np_not_isnan junio));
        junio ← leer banda_junio;
        asignar_mascara mayo_interpolado mask_solo_junio junio;;
        asignar_elemento indice_mayo mayo_interpolado
      else mret tt
    else mret tt
  else mret tt.

(** The array behind the [i]-th monthly band. *)
Definition contenido (st : estado) (i : nat) : option (ndarray f32) :=
  l ← bandas_ndvi st !! i; heap st !! l.

(** Every reference of the program points to a buffer. *)
Definition bien_formado (st : estado) : Prop :=
  (∀ i l, bandas_ndvi st !! i = Some l → is_Some (heap st !! l)) ∧
  is_Some (heap st !! banda_verano st).

(** The bands at the three indices the step reads have one shape. *)
Definition vecinos_misma_forma (st : estado) : Prop :=
  ∀ m a j, contenido st indice_mayo = Some m →
           contenido st indice_abril = Some a →
           contenido st indice_junio = Some j →
           shape a = shape m ∧ shape j = shape m.

(** What one pixel of May becomes: the three masked assignments in
    program order, on the May, April and June samples [x], [p], [q]. *)
Definition relleno (x p q : f32) : f32 :=
  let necesita := F32.isnan x in
  let v1 := if necesita && negb (F32.isnan p) && negb (F32.isnan q)
            then F32.div (F32.add p q) F32.dos else x in
  let v2 := if necesita && negb (F32.isnan p) && F32.isnan q then p else v1 in
  if necesita && F32.isnan p && negb (F32.isnan q) then q else v2.

(** [m] succeeds from [st] and its result and final store satisfy [Q]. *)
Definition wp {A} (m : M A) (Q : A → estado → Prop) (st : estado) : Prop :=
  ∃ a st', m st = Some (a, st') ∧ Q a st'.

(** A store with seven 1x4 monthly bands (December to June) and the
    category band; May (index 5) has a single valid sample. *)
Definition banda_llena : ndarray f32 :=
  of_rows F32.nan [ [F32.decimal 2 1; F32.decimal 2 1; F32.decimal 2 1; F32.decimal 2 1] ].
Definition banda_abril_ej : ndarray f32 :=
  of_rows F32.nan [ [F32.decimal 4 1; F32.decimal 7 1; F32.nan; F32.decimal 1 1] ].
Definition banda_mayo_ej : ndarray f32 :=
  of_rows F32.nan [ [F32.nan; F32.nan; F32.nan; F32.decimal 3 1] ].
Definition banda_junio_ej : ndarray f32 :=
  of_rows F32.nan [ [F32.decimal 6 1; F32.nan; F32.nan; F32.decimal 9 1] ].

Definition estado_ej : estado :=
  Estado (<[0 := banda_llena]> (<[1 := banda_llena]> (<[2 := banda_llena]>
          (<[3 := banda_llena]> (<[4 := banda_abril_ej]> (<[5 := banda_mayo_ej]>
          (<[6 := banda_junio_ej]> (<[7 := banda_llena]> ∅))))))))
         [0; 1; 2; 3; 4; 5; 6] 7.

(** ** Majority filter ([mwm_3_arroyos.py])

    The category raster is an integer raster; its values pass through
    the float64 buffer of [generic_filter] unchanged. *)

(** [np.unique(vec, return_counts=True)]: the distinct values in
    increasing order, each with its number of occurrences. *)
Fixpoint insertar_conteo (v : Z) (l : list (Z * nat)) : list (Z * nat) :=
  match l with
  | [] => [(v, 1)]
  | (k, n) :: l' =>
      if (v <? k)%Z then (v, 1) :: (k, n) :: l'
      else if (v =? k)%Z then (k, S n) :: l'
      else (k, n) :: insertar_conteo v l'
  end.

Definition np_unique (vec : list Z) : list (Z * nat) :=
  foldr insertar_conteo [] vec.

(** [np.argmax] on counts: the index of the first greatest entry. *)
Fixpoint np_argmax (l : list nat) : nat :=
  match l with
  | [] => 0
  | x :: l' =>
      match l' with
      | [] => 0
      | _ => let i := np_argmax l' in
             if nth i l' 0 <=? x then 0 else S i
      end
  end.

(** Lines 11-16. *)
Definition moda (vecindario : list Z) : Z :=
  let vec := filter (λ v, (0 ≤ v)%Z) vecindario in
  if decide (length vec = 0) then (-1)%Z
  else
    let u := np_unique vec in
    let valores := map fst u in
    let conteos := map snd u in
    nth (np_argmax conteos) valores (-1)%Z.

(** [mode='nearest']: an index outside [0, n) is moved to the nearest
    index inside. *)
Definition clamp (n : nat) (i : Z) : nat :=
  Z.to_nat (Z.max 0 (Z.min i (Z.of_nat n - 1))).

(** The [size] x [size] window around (r, c), in row-major order, as
    [scipy.ndimage.generic_filter] hands it to the function. *)
Definition vecindario_de (pred : ndarray Z) (size : nat) (r c : nat) : list Z :=
  flat_map (λ dr,
      map (λ dc, celda pred
                   (clamp (nfilas pred) (Z.of_nat r + Z.of_nat dr - Z.of_nat (size / 2)))
                   (clamp (ncols pred) (Z.of_nat c + Z.of_nat dc - Z.of_nat (size / 2))))
          (seq 0 size))
    (seq 0 size).

Definition generic_filter (pred : ndarray Z) (function : list Z → Z) (size : nat)
  : ndarray Z :=
  NDArray (nfilas pred) (ncols pred) (λ r c, function (vecindario_de pred size r c)).

(** Lines 30-35. *)
Definition pred_filtrado (pred : ndarray Z) : ndarray Z := generic_filter pred moda 3.

(** Number of occurrences of [x] in a window. *)
Definition ocurrencias (x : Z) (l : list Z) : nat := count_occ Z.eq_dec l x.

(** The keys of a count table increase strictly. *)
Fixpoint claves_crecientes (l : list (Z * nat)) : Prop :=
  match l with
  | [] => True
  | (k, _) :: l' => (∀ k' n', (k', n') ∈ l' → (k < k')%Z) ∧ claves_crecientes l'
  end.

(** [m] is the majority value of the window [v]: a non-negative value of
    [v] that no non-negative value outnumbers, and the least among those
    that occur as often. *)
Definition es_moda (m : Z) (v : list Z) : Prop :=
  (0 ≤ m)%Z ∧ m ∈ v ∧
  ∀ x, (0 ≤ x)%Z →
    ocurrencias x v ≤ ocurrencias m v ∧
    (ocurrencias x v = ocurrencias m v → (m ≤ x)%Z).

(** A 3x3 category raster. *)
Definition pred_ej : ndarray Z :=
  of_rows (-1)%Z [ [1; 1; 2]; [1; 2; 3]; [-1; -1; -1] ]%Z.

(** ** Raster inventory (step 1) and the category raster checks *)

Definition NDVI_MESES : list string :=
  ["2023-12"; "2024-01"; "2024-02"; "2024-03"; "2024-04"; "2024-05"; "2024-06"].

(** [os.path.join(dir, name)] for a relative [name] and a directory
    that does not end with the separator. *)
Definition os_path_join (dir name : string) : string := dir +:+ "/" +:+ name.

(** [f"NDVI_{mes}"] and the path of the monthly raster. *)
Definition nombre_ndvi (mes : string) : string := "NDVI_" +:+ mes.
Definition archivo_ndvi (NDVI_DIR mes : string) : string :=
  os_path_join NDVI_DIR ("NDVI_" +:+ mes +:+ ".tif").

Definition msg_no_archivo (ruta : string) : string :=
  nl +:+ "[ERROR] No se encuentra el archivo: " +:+ ruta.
Definition msg_warn_archivo (ruta : string) : string :=
  nl +:+ "[WARN] No se encuentra el archivo: " +:+ ruta.
Definition msg_sin_ndvi : string :=
  nl +:+ "[ERROR] No se encontraron rasters NDVI válidos.".
Definition msg_banda_dummy : string := "  Usando banda dummy (todos nodata)...".

(** The loop over [NDVI_MESES]: the warnings printed, [ndvi_files] and
    [ndvi_nombres]. *)
Fixpoint buscar_ndvi (existe : string → bool) (NDVI_DIR : string) (meses : list string)
  : list string * (list string * list string) :=
  match meses with
  | [] => ([], ([], []))
  | mes :: resto =>
      let archivo := archivo_ndvi NDVI_DIR mes in
      let '(avisos, (ndvi_files, ndvi_nombres)) := buscar_ndvi existe NDVI_DIR resto in
      if existe archivo
      then (avisos, (archivo :: ndvi_files, nombre_ndvi mes :: ndvi_nombres))
      else (msg_warn_archivo archivo :: avisos, (ndvi_files, ndvi_nombres))
  end.

(** Lines 59-73 of the base script, 53-67 of the Coronel Suarez one. *)
Definition inventario_ndvi (existe : string → bool) (NDVI_DIR : string)
  : etapa (list string * list string) :=
  let '(avisos, (ndvi_files, ndvi_nombres)) := buscar_ndvi existe NDVI_DIR NDVI_MESES in
  match ndvi_files with
  | [] => (avisos ++ [msg_sin_ndvi], Exit 1)
  | _ => (avisos, Continua (ndvi_files, ndvi_nombres))
  end.

(** Step 1 of [11_NDVI_inta_verano.py]: the category raster is checked
    first (lines 55-57). *)
Definition paso_1_inta (existe : string → bool) (RECORTE_VERANO_PATH NDVI_DIR : string)
  : etapa (list string * list string) :=
  if existe RECORTE_VERANO_PATH
  then inventario_ndvi existe NDVI_DIR
  else ([msg_no_archivo RECORTE_VERANO_PATH], Exit 1).

(** The category band of the Coronel Suarez script (lines 228-236): an
    absent file is reported and replaced by an all-NaN band;
    [reproyectado] stands for the band the tile loop produces when the
    file exists. *)
Definition leer_mnc_verano (existe : string → bool) (MNC_VERANO_PATH : string)
    (rc : area) (reproyectado : ndarray f32) : etapa (ndarray f32) :=
  if existe MNC_VERANO_PATH
  then ([], Continua reproyectado)
  else ([msg_no_archivo MNC_VERANO_PATH; msg_banda_dummy],
        Continua (np_full (Z.to_nat (height rc)) (Z.to_nat (width rc)) F32.nan)).

(** What a run does that can be seen from outside. *)
Inductive evento : Type :=
  | Imprime (linea : string)
  | Escribe (ruta : string).

Definition corrida : Type := list evento * resultado unit.

(** A stage followed by the rest of the run. *)
Definition luego {A} (e : etapa A) (k : A → corrida) : corrida :=
  match e with
  | (out, Continua a) => let '(ev, r) := k a in (map Imprime out ++ ev, r)
  | (out, Exit n) => (map Imprime out, Exit n)
  | (out, Excepcion x) => (map Imprime out, Excepcion x)
  end.

(** The base script: step 1, then steps 2-5 ([resto], which reads the
    rasters and writes the outputs). *)
Definition correr_inta (existe : string → bool) (RECORTE_VERANO_PATH NDVI_DIR : string)
    (resto : list string * list string → corrida) : corrida :=
  luego (paso_1_inta existe RECORTE_VERANO_PATH NDVI_DIR) resto.

(** The Coronel Suarez script: step 1, step 2 ([paso_2], fixed-margin
    window), the category band, then the remaining steps ([resto]). *)
Definition correr_coronel_suarez (existe : string → bool)
    (NDVI_DIR MNC_VERANO_PATH : string)
    (paso_2 : list string * list string → etapa area)
    (reproyectado : ndarray f32)
    (resto : list string * list string → area → ndarray f32 → corrida) : corrida :=
  luego (inventario_ndvi existe NDVI_DIR) (λ inv,
    luego (paso_2 inv) (λ rc,
      luego (leer_mnc_verano existe MNC_VERANO_PATH rc reproyectado) (λ banda_verano,
        resto inv rc banda_verano))).

(** [sub] occurs in [s]. *)
Definition contiene (s sub : string) : Prop := ∃ pre post, s = pre +:+ sub +:+ post.

(** A run ended by [exit] with a non-zero code or by an exception. *)
Definition corrida_abortada (c : corrida) : Prop :=
  match c.2 with
  | Continua _ => False
  | Exit n => n ≠ 0%Z
  | Excepcion _ => True
  end.

(** Sample file systems and a sample remainder of the run. *)
Definition ruta_mnc : string := "data/raw/INTA_23_24/MNC_verano-2024.tif".
Definition ruta_recorte : string := "data/proc/recorte_verano_GTiff.tif".
Definition dir_ndvi : string := "data/raw/sentinel".
Definition ruta_salida : string := "data/proc/salida.tif".

Definition todo_menos (ruta : string) : string → bool :=
  λ p, negb (String.eqb p ruta).

Definition resto_ej : list string * list string → area → ndarray f32 → corrida :=
  λ _ _ _, ([Escribe ruta_salida], Continua tt).

Definition paso_2_ej : list string * list string → etapa area :=
  λ _, ([], Continua (Area 1 3 1 3 2 2)).

(** ** Multi-band writer (step 5) *)

(** Line 306 (490 in the Coronel Suarez script). *)
Definition bandas_finales (banda_verano mediana minimo maximo desviacion : ndarray f32)
    (bandas : list (ndarray f32)) : list (ndarray f32) :=
  [banda_verano; mediana; minimo; maximo; desviacion] ++ bandas.

(** Line 307 (491). *)
Definition nombres_finales (ndvi_nombres : list string) : list string :=
  ["inta_verano"; "mediana"; "min"; "max"; "sd"] ++ ndvi_nombres.

(** The raster opened for writing: the band count of its metadata, and
    the data and description stored for each 1-based band index. *)
Record dataset : Type := Dataset {
  ds_count : nat;
  ds_bandas : gmap nat (ndarray f32);
  ds_descripciones : gmap nat string
}.

(** [rasterio.open(OUTPUT_PATH, 'w', **meta_final)] with
    ['count': len(bandas_finales)]. *)
Definition abrir_salida (count : nat) : dataset := Dataset count ∅ ∅.

(** [dst.write(banda, i)] and [dst.set_band_description(i, nombre)];
    a band index outside 1..count raises ([None]). *)
Definition dst_write (banda : ndarray f32) (i : nat) (ds : dataset) : option dataset :=
  if decide (1 ≤ i ≤ ds_count ds)
  then Some (Dataset (ds_count ds) (<[i := banda]> (ds_bandas ds)) (ds_descripciones ds))
  else None.

Definition dst_set_band_description (i : nat) (nombre : string) (ds : dataset)
  : option dataset :=
  if decide (1 ≤ i ≤ ds_count ds)
  then Some (Dataset (ds_count ds) (ds_bandas ds) (<[i := nombre]> (ds_descripciones ds)))
  else None.

(** The loop [for i, (banda, nombre) in enumerate(zip(...), 1)], from
    index [i] on. *)
Fixpoint escribir_desde (i : nat) (pares : list (ndarray f32 * string)) (ds : dataset)
  : option dataset :=
  match pares with
  | [] => Some ds
  | (banda, nombre) :: resto =>
      ds1 ← dst_write banda i ds;
      ds2 ← dst_set_band_description i nombre ds1;
      escribir_desde (S i) resto ds2
  end.

(** Lines 314-334: open with the band count, write every band. *)
Definition escribir_raster (finales : list (ndarray f32)) (nombres : list string)
  : option dataset :=
  escribir_desde 1 (zip finales nombres) (abrir_salida (length finales)).

(** One line of the sidecar: [f"Banda {i}: {nombre}\n"]. *)
Definition linea_banda (i : nat) (nombre : string) : string :=
  "Banda " +:+ pretty i +:+ ": " +:+ nombre +:+ nl.

(** Lines 359-363: the lines written to the sidecar, in order. *)
Definition lineas_nombres (nombres : list string) : list string :=
  imap (λ k nombre, linea_banda (S k) nombre) nombres.

(** The line that the claimed form [Band <n>: <label>] would give. *)
Definition linea_band (i : nat) (nombre : string) : string :=
  "Band " +:+ pretty i +:+ ": " +:+ nombre +:+ nl.

(** Three monthly bands, for the examples. *)
Definition bandas_ej : list (ndarray f32) :=
  [banda_abril_ej; banda_mayo_ej; banda_junio_ej].
Definition nombres_ej : list string :=
  map nombre_ndvi ["2024-04"; "2024-05"; "2024-06"].

(** Two samples are equal up to the sign of zero. *)
Definition es_cero (x : f32) : Prop :=
  match x with S754_zero _ => True | _ => False end.
Definition casi_igual (x y : f32) : Prop := x = y ∨ (es_cero x ∧ es_cero y).

(** A sample without a negative sign (NaN included). *)
Definition no_negativo (x : f32) : Prop :=
  match x with
  | S754_zero true | S754_infinity true | S754_finite true _ _ => False
  | _ => True
  end.

(** The zero-filled sample of [np.nansum] and [np.nanstd]. *)
Definition rellenar_cero (x : f32) : f32 := if F32.isnan x then F32.cero else x.

(** ** Stack reducer (step 4) *)

(** A sample that is not NaN. *)
Definition valida (x : f32) : Prop := F32.isnan x = false.

(** [np.fmin] and [np.fmax] on two samples: a NaN operand is ignored
    when the other one is a number. *)
Definition np_fmin (in1 in2 : f32) : f32 :=
  if F32.leb in1 in2 || F32.isnan in2 then in1 else in2.
Definition np_fmax (in1 in2 : f32) : f32 :=
  if F32.leb in2 in1 || F32.isnan in2 then in1 else in2.

(** [ufunc.reduce] along a series: the operands are combined from the
    first to the last; [vacio] is the result for no operand. *)
Definition reduce (op : f32 → f32 → f32) (vacio : f32) (serie : list f32) : f32 :=
  match serie with
  | [] => vacio
  | x :: resto => fold_left op resto x
  end.

(** [np.nanmin] and [np.nanmax] of one series ([np.fmin.reduce],
    [np.fmax.reduce]). *)
Definition nanmin1d (serie : list f32) : f32 := reduce np_fmin F32.nan serie.
Definition nanmax1d (serie : list f32) : f32 := reduce np_fmax F32.nan serie.

(** [np.sum] of one series, accumulated in float32. *)
Definition np_sum (serie : list f32) : f32 := reduce F32.add F32.cero serie.

(** Sorting of numbers, by insertion. *)
Fixpoint insertar_ordenado (x : f32) (l : list f32) : list f32 :=
  match l with
  | [] => [x]
  | y :: l' => if F32.leb x y then x :: y :: l' else y :: insertar_ordenado x l'
  end.
Definition ordenar (l : list f32) : list f32 := foldr insertar_ordenado [] l.

(** The median of the unmasked samples of one series, as [np.ma.median]
    computes it along an axis: the samples are sorted, [high] is the
    sample at index [counts // 2] and [low] the one before it, [low] is
    replaced by [high] when [counts] is odd, and the result is
    [(low + high) / 2.] in float32. *)
Definition ma_median (v : list f32) : f32 :=
  let asorted := ordenar v in
  let counts := length asorted in
  let h := counts / 2 in
  let high := nth h asorted F32.nan in
  let low := if Nat.odd counts then high else nth (h - 1) asorted F32.nan in
  F32.div (F32.add low high) F32.dos.

(** [np.nanmedian(stack, axis=0)] at one pixel. For a stack of fewer
    than 600 slices numpy masks the NaN and takes the masked median; a
    series without valid sample is masked in the result and filled with
    NaN. *)
Definition nanmedian1d (serie : list f32) : f32 :=
  match filter valida serie with
  | [] => F32.nan
  | v => ma_median v
  end.

(** [np.nanstd] of one series (ddof = 0), as numpy computes the
    variance: NaN are replaced by 0, the sum is divided by the number of
    valid samples, the deviations of the replaced samples are reset to 0,
    and a series without valid sample gives NaN. *)
Definition nanstd1d (serie : list f32) : f32 :=
  let arr := map rellenar_cero serie in
  let cnt := Z.of_nat (length (filter valida serie)) in
  let avg := F32.div (np_sum arr) (F32.of_Z cnt) in
  let desv := map (λ x, if F32.isnan x then F32.cero else F32.sub x avg) serie in
  let sqr := map (λ d, F32.mul d d) desv in
  let dof := (cnt - 0)%Z in
  let var := F32.div (np_sum sqr) (F32.of_Z dof) in
  if (dof <=? 0)%Z then F32.nan else F32.sqrt var.

(** [np.stack(bandas, axis=0)]: the bands along a new first axis; an
    empty list or bands of different shapes raise ([None]). *)
Definition np_stack (bandas : list (ndarray f32)) : option (list (ndarray f32)) :=
  match bandas with
  | [] => None
  | b :: resto =>
      if decide (Forall (λ b', shape b' = shape b) resto) then Some bandas else None
  end.

(** The time series of one pixel of the stack. *)
Definition serie_de (stack : list (ndarray f32)) (r c : nat) : list f32 :=
  map (λ b, celda b r c) stack.

(** A reduction of the stack along axis 0. *)
Definition reducir_eje0 (f : list f32 → f32) (stack : list (ndarray f32)) : ndarray f32 :=
  match stack with
  | [] => NDArray 0 0 (λ _ _, F32.nan)
  | b :: _ => NDArray (nfilas b) (ncols b) (λ r c, f (serie_de stack r c))
  end.

(** Lines 277-292: the four statistics. *)
Definition calcular_estadisticos (bandas : list (ndarray f32))
  : option (ndarray f32 * ndarray f32 * ndarray f32 * ndarray f32) :=
  stack_ndvi ← np_stack bandas;
  let mediana := reducir_eje0 nanmedian1d stack_ndvi in
  let minimo := reducir_eje0 nanmin1d stack_ndvi in
  let maximo := reducir_eje0 nanmax1d stack_ndvi in
  let desviacion := reducir_eje0 nanstd1d stack_ndvi in
  Some (mediana, minimo, maximo, desviacion).

(** [m] is a least (greatest) sample of [v]. *)
Definition es_minimo_f (m : f32) (v : list f32) : Prop :=
  m ∈ v ∧ ∀ x, x ∈ v → F32.leb m x = true.
Definition es_maximo_f (m : f32) (v : list f32) : Prop :=
  m ∈ v ∧ ∀ x, x ∈ v → F32.leb x m = true.

(** The series of the specification: 0.2, NaN, 0.5, 0.8. *)
Definition serie_ej : list f32 :=
  [F32.decimal 2 1; F32.nan; F32.decimal 5 1; F32.decimal 8 1].

(** ** Further vocabulary for the detector and the aligner *)

(** The pixel (r, c) lies in the window. *)
Definition dentro (a : area) (r c : nat) : Prop :=
  (fila_inicio a ≤ Z.of_nat r < fila_fin a ∧ col_inicio a ≤ Z.of_nat c < col_fin a)%Z.

(** The rectangle of rows [r0, r1) and columns [c0, c1) lies in the
    window. *)
Definition rect_en (r0 r1 c0 c1 : Z) (a : area) : Prop :=
  (fila_inicio a ≤ r0 ∧ r1 ≤ fila_fin a ∧ col_inicio a ≤ c0 ∧ c1 ≤ col_fin a)%Z.

(** A raster with a nodata value -9999 on its left column. *)
Definition nodata_ej : f32 := Eval cbv in F32.of_Z (-9999).
Definition raster_nodata : ndarray f32 :=
  of_rows F32.nan
    [ [nodata_ej; uno; uno];
      [nodata_ej; uno; F32.nan] ].

(** Two windows share no column, or share no row. *)
Definition sin_solape (a b : area) : Prop :=
  (col_fin b ≤ col_inicio a ∨ fila_fin b ≤ fila_inicio a)%Z.

(** ** float64 scalars of the Python code *)

Module F64.

Definition prec : Z := 53.
Definition emax : Z := 1024.

Definition mul : spec_float → spec_float → spec_float := SFmul prec emax.
Definition div : spec_float → spec_float → spec_float := SFdiv prec emax.

(** [float(n)] for a Python integer. *)
Definition of_Z (z : Z) : spec_float := binary_normalize prec emax z 0 false.

(** The literal [0.05]: the float64 nearest to 5/100. *)
Definition cinco_centesimos : spec_float := Eval cbv in div (of_Z 5) (of_Z 100).

(** [int(x)]: truncation towards zero; an infinity or a NaN raises
    ([None]). *)
Definition to_int (x : spec_float) : option Z :=
  match x with
  | S754_zero _ => Some 0%Z
  | S754_finite s m e =>
      let abs := match e with
                 | Zneg p => (Zpos m / 2 ^ Zpos p)%Z
                 | _ => (Zpos m * 2 ^ e)%Z
                 end in
      Some (if s then (- abs)%Z else abs)
  | _ => None
  end.

End F64.

(** ** Step 2 of the Coronel Suarez script: fixed-margin window *)

(** An entry of [porcentajes_validos]: the float [100 * n / total], kept
    as its two integers, or the integer [0] appended for a raster
    without valid data. *)
Inductive porcentaje : Type :=
  | Pct (n_validos total_pixels : nat)
  | Cero.

(** [p < 50] *)
Definition menor_50 (p : porcentaje) : bool :=
  match p with
  | Pct n t => bajo_umbral n t
  | Cero => true
  end.

(** The analysis loop (lines 102-136): [areas_validas] and
    [porcentajes_validos]. The key ['pct_validos'] of the dictionaries
    is never read and is left out. *)
Fixpoint analizar_rasters_cs (rasters : list (option f32 * ndarray f32))
  : list (option area) * list porcentaje :=
  match rasters with
  | [] => ([], [])
  | (nodata, banda) :: resto =>
      let data := aplicar_nodata nodata banda in
      let pct_validos := Pct (contar_validos data) (size_of data) in
      let '(areas, porcentajes) := analizar_rasters_cs resto in
      match detectar_area data with
      | Some a => (Some a :: areas, pct_validos :: porcentajes)
      | None => (None :: areas, pct_validos :: Cero :: porcentajes)
      end
  end.

Definition indice_mayo_problema : nat := 5.

(** Lines 139-141. *)
Definition mayo_es_problematico (porcentajes_validos : list porcentaje) : bool :=
  match porcentajes_validos !! indice_mayo_problema with
  | Some p => menor_50 p
  | None => false
  end.

(** Lines 145-151. *)
Definition areas_validas_filtradas_cs (areas : list (option area)) (mayo_problema : bool)
  : list area :=
  if mayo_problema
  then omap id (imap (λ i a, if decide (i = indice_mayo_problema) then None else a) areas)
  else omap id areas.

(** [int(dim * porcentaje_recorte)] with [porcentaje_recorte = 0.05]. *)
Definition pixeles_recorte (dim : Z) : option Z :=
  F64.to_int (F64.mul (F64.of_Z dim) F64.cinco_centesimos).

(** Lines 166-178. *)
Definition recorte_margen (ref_height ref_width : Z) : option area :=
  pixeles_recorte_h ← pixeles_recorte ref_height;
  pixeles_recorte_w ← pixeles_recorte ref_width;
  let fi := pixeles_recorte_h in
  let ff := (ref_height - pixeles_recorte_h)%Z in
  let ci := pixeles_recorte_w in
  let cf := (ref_width - pixeles_recorte_w)%Z in
  Some (Area fi ff ci cf (cf - ci) (ff - fi)).

(** Step 2 of the Coronel Suarez script; the reference raster is the
    first one. *)
Definition paso_2_coronel_suarez (rasters : list (option f32 * ndarray f32)) : etapa area :=
  match rasters with
  | [] => ([], Excepcion "IndexError")
  | (_, ref) :: _ =>
      let '(areas, porcentajes_validos) := analizar_rasters_cs rasters in
      let filtradas :=
        areas_validas_filtradas_cs areas (mayo_es_problematico porcentajes_validos) in
      match filtradas with
      | [] => ([msg_sin_areas], Exit 1)
      | _ =>
          match recorte_margen (Z.of_nat (nfilas ref)) (Z.of_nat (ncols ref)) with
          | Some rc => ([], Continua rc)
          | None => ([], Excepcion "OverflowError")
          end
      end
  end.

(** [p] holds for the [n] integers from [z] on. *)
Fixpoint todos_desde (n : nat) (z : Z) (p : Z → bool) : bool :=
  match n with
  | O => true
  | S n' => p z && todos_desde n' (z + 1)%Z p
  end.

(** The number of rasters without valid data among the first [k]. *)
Definition sin_datos_antes (areas : list (option area)) (k : nat) : nat :=
  length (filter (λ a, a = None) (take k areas)).

(** The percentage entry of one raster. *)
Definition pct_de (raster : option f32 * ndarray f32) : porcentaje :=
  let data := aplicar_nodata raster.1 raster.2 in
  Pct (contar_validos data) (size_of data).

(** Two sample lists of rasters: a single 4x5 raster, and the same
    raster behind one without valid data. *)
Definition rasters_ej : list (option f32 * ndarray f32) := [(None, raster_borde)].
Definition rasters_ej2 : list (option f32 * ndarray f32) :=
  [(None, raster_vacio); (None, raster_borde)].

(** ** Tiles of the windowed reprojection (Coronel Suarez script) *)

Definition CHUNK_SIZE : Z := 2000.

(** Lines 257-258: [(dim + CHUNK_SIZE - 1) // CHUNK_SIZE]. *)
Definition n_chunks (dim : Z) : Z := ((dim + CHUNK_SIZE - 1) / CHUNK_SIZE)%Z.

(** A destination tile: rows [row_start, row_end) and columns
    [col_start, col_end). *)
Record tesela : Type := Tesela {
  row_start : Z;
  row_end : Z;
  col_start : Z;
  col_end : Z
}.

(** Lines 268-275: the tile (i, j), or [None] when the loop skips it. *)
Definition ventana_destino (alto ancho i j : Z) : option tesela :=
  let row_start := (i * CHUNK_SIZE)%Z in
  let row_end := Z.min ((i + 1) * CHUNK_SIZE) alto in
  let col_start := (j * CHUNK_SIZE)%Z in
  let col_end := Z.min ((j + 1) * CHUNK_SIZE) ancho in
  if (row_end <=? row_start)%Z || (col_end <=? col_start)%Z
  then None
  else Some (Tesela row_start row_end col_start col_end).

(** The tiles processed by the two nested loops, in order. *)
Definition teselas (alto ancho : Z) : list tesela :=
  i ← seqZ 0 (n_chunks alto);
  j ← seqZ 0 (n_chunks ancho);
  match ventana_destino alto ancho i j with
  | Some t => [t]
  | None => []
  end.

(** The destination pixel (r, c) belongs to the tile. *)
Definition en_tesela (t : tesela) (r c : Z) : Prop :=
  (row_start t ≤ r < row_end t ∧ col_start t ≤ c < col_end t)%Z.

(** Lines 291-304: the source window clamped to the source raster, or
    [None] when the script finds no intersection. *)
Definition ajustar_ventana (w : Window) (src_width src_height : Z) : option Window :=
  let col_off_adj := Z.max 0 (col_off w) in
  let row_off_adj := Z.max 0 (row_off w) in
  let width_adj := Z.min (win_width w) (src_width - col_off_adj) in
  let height_adj := Z.min (win_height w) (src_height - row_off_adj) in
  if (0 <? width_adj)%Z && (0 <? height_adj)%Z
  then Some (MkWindow col_off_adj row_off_adj width_adj height_adj)
  else None.

(** The pixel (fila, col) lies in the window. *)
Definition en_ventana (w : Window) (fila col : Z) : Prop :=
  (row_off w ≤ fila < row_off w + win_height w ∧
   col_off w ≤ col < col_off w + win_width w)%Z.

(** Infinities of opposite sign: their sum is NaN. *)
Definition infinitos_opuestos (p q : f32) : Prop :=
  match p, q with
  | S754_infinity s, S754_infinity s' => s ≠ s'
  | _, _ => False
  end.

(** A store like [estado_ej] whose May band is complete. *)
Definition estado_lleno : estado :=
  Estado (<[0 := banda_llena]> (<[1 := banda_llena]> (<[2 := banda_llena]>
          (<[3 := banda_llena]> (<[4 := banda_abril_ej]> (<[5 := banda_llena]>
          (<[6 := banda_junio_ej]> (<[7 := banda_llena]> ∅))))))))
         [0; 1; 2; 3; 4; 5; 6] 7.

(** The monthly rasters that exist, in the order of [NDVI_MESES]. *)
Definition meses_encontrados (existe : string → bool) (NDVI_DIR : string) : list string :=
  filter (λ mes, existe (archivo_ndvi NDVI_DIR mes) = true) NDVI_MESES.
Definition meses_ausentes (existe : string → bool) (NDVI_DIR : string) : list string :=
  filter (λ mes, existe (archivo_ndvi NDVI_DIR mes) = false) NDVI_MESES.

(** A file system in which only the given months have a raster. *)
Definition solo_meses (NDVI_DIR : string) (meses : list string) : string → bool :=
  λ p, bool_decide (p ∈ map (archivo_ndvi NDVI_DIR) meses).

(** A raster with the single category 4, and one with a missing pixel
    in the middle. *)
Definition pred_constante : ndarray Z := NDArray 3 3 (λ _ _, 4%Z).
Definition pred_hueco : ndarray Z :=
  of_rows (-1)%Z [ [1; 1; 2]; [1; -1; 2]; [2; 2; 2] ]%Z.

(** ** Cropping the monthly bands (Coronel Suarez script) *)

(** [a[fi:ff, ci:cf]] for non-negative bounds: a slice is cut at the end
    of the array. *)
Definition np_slice {A} (a : ndarray A) (fi ff ci cf : nat) : ndarray A :=
  NDArray (Nat.min ff (nfilas a) - Nat.min fi (nfilas a))
          (Nat.min cf (ncols a) - Nat.min ci (ncols a))
          (λ r c, celda a (fi + r) (ci + c)).

(** Lines 357-370: one monthly band, nodata applied and cropped to the
    common window. *)
Definition banda_recortada (rc : area) (nodata : option f32) (banda : ndarray f32)
  : ndarray f32 :=
  np_slice (aplicar_nodata nodata banda)
           (Z.to_nat (fila_inicio rc)) (Z.to_nat (fila_fin rc))
           (Z.to_nat (col_inicio rc)) (Z.to_nat (col_fin rc)).

(** The order of the samples. *)
Definition menor_igual (x y : f32) : Prop := F32.leb x y = true.

(** ** What the four statistics are

    The statistics of a series of numbers, written down without the
    numpy kernels above: they are what the stack reducer is compared
    with. *)

(** [m] is a median of the series [v]: [v] splits into as many samples
    not above as samples not below its middle, which is one sample [a]
    (then [b] is [a]) or two samples [a], [b], and [m] is the float32
    mean [(a + b) / 2]. *)
Definition es_mediana (m : f32) (v : list f32) : Prop :=
  ∃ menores medio mayores a b,
    v ≡ₚ menores ++ medio ++ mayores ∧
    length menores = length mayores ∧
    ((medio = [a] ∧ b = a) ∨ medio = [a; b]) ∧
    Forall (λ x, menor_igual x a) menores ∧
    menor_igual a b ∧
    Forall (λ y, menor_igual b y) mayores ∧
    m = F32.div (F32.add a b) F32.dos.

(** The float32 sum of a series, sample after sample from the first. *)
Fixpoint sumar_desde (acc : f32) (v : list f32) : f32 :=
  match v with
  | [] => acc
  | x :: v' => sumar_desde (F32.add acc x) v'
  end.
Definition suma_f32 (v : list f32) : f32 :=
  match v with
  | [] => F32.cero
  | x :: v' => sumar_desde x v'
  end.

(** The float32 mean of a series. *)
Definition media_f32 (v : list f32) : f32 :=
  F32.div (suma_f32 v) (F32.of_Z (Z.of_nat (length v))).

(** The population standard deviation of a series of numbers, in
    float32: the root of the mean squared deviation from the mean. *)
Definition desviacion_poblacional (v : list f32) : f32 :=
  F32.sqrt (media_f32 (map (λ x, F32.mul (F32.sub x (media_f32 v))
                                         (F32.sub x (media_f32 v))) v)).

(** ** From the inventory to the outputs (base script, steps 3 to 5) *)

(** Lines 253-266: one band per raster found, appended in the order of
    [ndvi_files]. [leer_banda archivo] is the band that lines 259-264
    make of one raster: band 1 read in the common window as float32, with
    the nodata value turned into NaN. *)
Definition leer_bandas_ndvi (leer_banda : string → ndarray f32)
    (ndvi_files ndvi_nombres : list string) : list (ndarray f32) :=
  map (λ par, leer_banda par.1) (zip ndvi_files ndvi_nombres).

(** Lines 276-334 and 359-363: the statistics of the monthly bands, the
    output raster and the lines of the sidecar. An exception of
    [np.stack] or of the writer ends the run ([None]). *)
Definition pasos_4_y_5 (banda_verano : ndarray f32) (bandas : list (ndarray f32))
    (ndvi_nombres : list string) : option (dataset * list string) :=
  '(mediana, minimo, maximo, desviacion) ← calcular_estadisticos bandas;
  let finales := bandas_finales banda_verano mediana minimo maximo desviacion bandas in
  let nombres := nombres_finales ndvi_nombres in
  ds ← escribir_raster finales nombres;
  Some (ds, lineas_nombres nombres).

(** A disk with the rasters of April, May and June. *)
Definition existe_ej : string → bool :=
  solo_meses dir_ndvi ["2024-04"; "2024-05"; "2024-06"].
Definition leer_banda_ej (archivo : string) : ndarray f32 :=
  if String.eqb archivo (archivo_ndvi dir_ndvi "2024-04") then banda_abril_ej
  else if String.eqb archivo (archivo_ndvi dir_ndvi "2024-05") then banda_mayo_ej
  else if String.eqb archivo (archivo_ndvi dir_ndvi "2024-06") then banda_junio_ej
  else banda_llena.

(** ** Cropping, gap filling and statistics together (Coronel Suarez
    script, steps 3 to 4) *)

(** [bandas_ndvi.append(banda)] *)
Definition append_banda (l : loc) : M unit := λ st,
  Some (tt, Estado (heap st) (bandas_ndvi st ++ [l]) (banda_verano st)).

(** Lines 351-373: every monthly raster is read in full, its nodata
    value turned into NaN, cropped with the common window, and the
    cropped band appended to [bandas_ndvi]. *)
Fixpoint leer_y_recortar (rc : area) (rasters : list (option f32 * ndarray f32)) : M unit :=
  match rasters with
  | [] => mret tt
  | (nodata, banda_completa) :: resto =>
      l ← nuevo (banda_recortada rc nodata banda_completa);
      append_banda l;;
      leer_y_recortar rc resto
  end.

(** The arrays behind [bandas_ndvi], as [np.stack] reads them. *)
Definition leer_bandas : M (list (ndarray f32)) := λ st,
  bandas ← mapM (λ l, heap st !! l) (bandas_ndvi st); Some (bandas, st).

(** Lines 463-477: the statistics of the bands of the list. *)
Definition paso_4 : M (ndarray f32 * ndarray f32 * ndarray f32 * ndarray f32) :=
  bandas ← leer_bandas;
  lift (calcular_estadisticos bandas).

(** Lines 351-477: the cropping loop, the gap filler, the statistics. *)
Definition pasos_3_a_4 (rc : area) (rasters : list (option f32 * ndarray f32))
  : M (ndarray f32 * ndarray f32 * ndarray f32 * ndarray f32) :=
  leer_y_recortar rc rasters;;
  interpolar_mayo;;
  paso_4.

(** The store before the cropping loop: the category band exists and
    the list of monthly bands is empty. *)
Definition estado_con_verano (verano : ndarray f32) : estado :=
  Estado {[0 := verano]} [] 0.


(** Seven monthly rasters of 20 x 40 pixels: constant ones from December
    to March, April without its row 10, May with data in its first three
    rows only, June without its column 7. *)
Definition raster_constante (v : f32) : ndarray f32 := NDArray 20 40 (λ _ _, v).
Definition raster_abril_cs : ndarray f32 :=
  NDArray 20 40 (λ r _, if r =? 10 then F32.nan else F32.decimal 2 1).
Definition raster_mayo_cs : ndarray f32 :=
  NDArray 20 40 (λ r _, if r <? 3 then F32.decimal 3 1 else F32.nan).
Definition raster_junio_cs : ndarray f32 :=
  NDArray 20 40 (λ _ c, if c =? 7 then F32.nan else F32.decimal 6 1).
Definition rasters_cs_ej : list (option f32 * ndarray f32) :=
  [(None, raster_constante (F32.decimal 5 1)); (None, raster_constante (F32.decimal 6 1));
   (None, raster_constante (F32.decimal 7 1)); (None, raster_constante (F32.decimal 5 1));
   (None, raster_abril_cs); (None, raster_mayo_cs); (None, raster_junio_cs)].

(** A float32 number: mantissa and exponent are those of the format. *)
Definition es_float32 (x : f32) : Prop := valid_binary F32.prec F32.emax x = true.

(** The double of [x] is representable: [x] is not finite, or below
    2^127 in magnitude. *)
Definition doble_sin_desborde (x : f32) : Prop :=
  match x with
  | S754_finite _ _ e => (e < 104)%Z
  | _ => True
  end.

(** The greatest power of two of float32, 2^127. *)
Definition dos_127 : f32 := S754_finite false 8388608 104.

(* ================================================================== *)
(** * Part II: properties                                              *)
(* ================================================================== *)

(** ** Grid aligner *)

Section Aligner.
Local Open Scope Z_scope.

Lemma fold_max_spec (l : list Z) (x : Z) :
  es_maximo (fold_left (λ m y, if m <? y then y else m) l x) (x :: l).
Proof.
  revert x. induction l as [|y l IH]; intros x; simpl.
  - split; [left|]. intros z Hz. apply list_elem_of_singleton in Hz. lia.
  - destruct (IH (if x <? y then y else x)) as [Hin Hub]. split.
    + apply elem_of_cons in Hin as [Heq | Hin].
      * rewrite Heq. destruct (Z.ltb_spec x y); [right; left | left].
      * right; right; exact Hin.
    + intros z Hz. pose proof (Hub _ ltac:(left)) as H0.
      rewrite !elem_of_cons in Hz. destruct Hz as [Hz | [Hz | Hz]].
      * subst z. destruct (Z.ltb_spec x y); lia.
      * subst z. destruct (Z.ltb_spec x y); lia.
      * apply Hub. right; exact Hz.
Qed.

Lemma fold_min_spec (l : list Z) (x : Z) :
  es_minimo (fold_left (λ m y, if y <? m then y else m) l x) (x :: l).
Proof.
  revert x. induction l as [|y l IH]; intros x; simpl.
  - split; [left|]. intros z Hz. apply list_elem_of_singleton in Hz. lia.
  - destruct (IH (if y <? x then y else x)) as [Hin Hlb]. split.
    + apply elem_of_cons in Hin as [Heq | Hin].
      * rewrite Heq. destruct (Z.ltb_spec y x); [right; left | left].
      * right; right; exact Hin.
    + intros z Hz. pose proof (Hlb _ ltac:(left)) as H0.
      rewrite !elem_of_cons in Hz. destruct Hz as [Hz | [Hz | Hz]].
      * subst z. destruct (Z.ltb_spec y x); lia.
      * subst z. destruct (Z.ltb_spec y x); lia.
      * apply Hlb. right; exact Hz.
Qed.

Lemma py_max_spec (l : list Z) :
  l ≠ [] → ∃ x, py_max l = Some x ∧ es_maximo x l.
Proof.
  destruct l as [|x l]; [done|]. intros _. eexists; split; [reflexivity|].
  apply fold_max_spec.
Qed.

Lemma py_min_spec (l : list Z) :
  l ≠ [] → ∃ x, py_min l = Some x ∧ es_minimo x l.
Proof.
  destruct l as [|x l]; [done|]. intros _. eexists; split; [reflexivity|].
  apply fold_min_spec.
Qed.

Lemma recorte_comun_spec (filtradas : list area) :
  filtradas ≠ [] →
  ∃ rc, recorte_comun filtradas = Some rc ∧
    es_maximo (fila_inicio rc) (map fila_inicio filtradas) ∧
    es_minimo (fila_fin rc) (map fila_fin filtradas) ∧
    es_maximo (col_inicio rc) (map col_inicio filtradas) ∧
    es_minimo (col_fin rc) (map col_fin filtradas) ∧
    width rc = col_fin rc - col_inicio rc ∧
    height rc = fila_fin rc - fila_inicio rc.
Proof.
  intros Hne.
  assert (Hm : ∀ f : area → Z, map f filtradas ≠ []).
  { intros f. destruct filtradas; [done | discriminate]. }
  destruct (py_max_spec _ (Hm fila_inicio)) as (fi & Efi & Hfi).
  destruct (py_min_spec _ (Hm fila_fin)) as (ff & Eff & Hff).
  destruct (py_max_spec _ (Hm col_inicio)) as (ci & Eci & Hci).
  destruct (py_min_spec _ (Hm col_fin)) as (cf & Ecf & Hcf).
  exists (Area fi ff ci cf (cf - ci) (ff - fi)).
  unfold recorte_comun. rewrite Efi, Eff, Eci, Ecf. simpl. done.
Qed.

Lemma alinear_interseccion_no_vacio (areas : list (option area)) :
  areas_validas_filtradas areas ≠ [] →
  ∃ rc, alinear_interseccion areas = ([], Continua rc) ∧
        recorte_comun (areas_validas_filtradas areas) = Some rc.
Proof.
  intros Hne. destruct (recorte_comun_spec _ Hne) as (rc & Erc & _).
  exists rc. split; [|exact Erc]. unfold alinear_interseccion.
  destruct (areas_validas_filtradas areas) eqn:E; [done|]. by rewrite Erc.
Qed.

(** C1. Intersection policy: whenever at least one raster has a valid
    window, the aligner continues with the common window whose row start
    is the greatest row start, whose row end is the least row end, whose
    column start is the greatest column start and whose column end is the
    least column end of the windows. *)
Theorem C1_recorte_comun_max_min (areas : list (option area)) :
  areas_validas_filtradas areas ≠ [] →
  ∃ rc, alinear_interseccion areas = ([], Continua rc) ∧
    es_maximo (fila_inicio rc) (map fila_inicio (areas_validas_filtradas areas)) ∧
    es_minimo (fila_fin rc) (map fila_fin (areas_validas_filtradas areas)) ∧
    es_maximo (col_inicio rc) (map col_inicio (areas_validas_filtradas areas)) ∧
    es_minimo (col_fin rc) (map col_fin (areas_validas_filtradas areas)).
Proof.
  intros Hne.
  destruct (alinear_interseccion_no_vacio _ Hne) as (rc & Erun & Erc).
  destruct (recorte_comun_spec _ Hne) as (rc' & Erc' & H1 & H2 & H3 & H4 & _).
  assert (rc' = rc) as -> by congruence.
  exists rc. done.
Qed.

Lemma C1_witness :
  ∃ rc, alinear_interseccion [Some area_a; None; Some area_c] = ([], Continua rc) ∧
    es_maximo (fila_inicio rc) [0; 1] ∧ es_minimo (fila_fin rc) [2; 4] ∧
    es_maximo (col_inicio rc) [0; 0] ∧ es_minimo (col_fin rc) [2; 3].
Proof.
  apply (C1_recorte_comun_max_min [Some area_a; None; Some area_c]).
  simpl. discriminate.
Defined.

(** The claim of C5 fails: two rasters whose valid windows do not overlap
    give a common window of width and height -1; the aligner does not
    abort, it hands that window on, and the read window is requested with
    width -1 and height -1. *)
Lemma C5_counterexample :
  recorte_comun (areas_validas_filtradas [Some area_a; Some area_b])
    = Some (Area 3 2 3 2 (-1) (-1)) ∧
  degenerado (Area 3 2 3 2 (-1) (-1)) ∧
  alinear_interseccion [Some area_a; Some area_b]
    = ([], Continua (Area 3 2 3 2 (-1) (-1))) ∧
  ¬ aborta (alinear_interseccion [Some area_a; Some area_b]) ∧
  ventana (Area 3 2 3 2 (-1) (-1)) = MkWindow 3 3 (-1) (-1).
Proof.
  split; [reflexivity|]. split; [left; simpl; lia|].
  split; [reflexivity|]. split; [|reflexivity]. simpl. tauto.
Qed.

(** C5, amended. The aligner exits (with code 1 and the "no valid areas"
    diagnostic) exactly when no raster has a valid window. With at least
    one valid window it never aborts: it continues with the max/min
    window, whose width and height are the differences end - start
    whatever their sign, and the read window is requested with exactly
    that offset, width and height. *)
Theorem C5_alinear_sin_guarda (areas : list (option area)) :
  (areas_validas_filtradas areas = [] →
     alinear_interseccion areas = ([msg_sin_areas], Exit 1)) ∧
  (areas_validas_filtradas areas ≠ [] →
     ∃ rc, alinear_interseccion areas = ([], Continua rc) ∧
       recorte_comun (areas_validas_filtradas areas) = Some rc ∧
       width rc = col_fin rc - col_inicio rc ∧
       height rc = fila_fin rc - fila_inicio rc ∧
       ventana rc = MkWindow (col_inicio rc) (fila_inicio rc)
                      (col_fin rc - col_inicio rc) (fila_fin rc - fila_inicio rc)).
Proof.
  split.
  - intros E. unfold alinear_interseccion. by rewrite E.
  - intros Hne.
    destruct (alinear_interseccion_no_vacio _ Hne) as (rc & Erun & Erc).
    destruct (recorte_comun_spec _ Hne) as (rc' & Erc' & _ & _ & _ & _ & Hw & Hh).
    assert (rc' = rc) as -> by congruence.
    exists rc. repeat split; try done.
    unfold ventana. by rewrite Hw, Hh.
Qed.

Lemma C5_witness :
  alinear_interseccion [None; None] = ([msg_sin_areas], Exit 1) ∧
  ∃ rc, alinear_interseccion [Some area_a; Some area_b] = ([], Continua rc) ∧
       recorte_comun [area_a; area_b] = Some rc ∧
       width rc = col_fin rc - col_inicio rc ∧
       height rc = fila_fin rc - fila_inicio rc ∧
       ventana rc = MkWindow (col_inicio rc) (fila_inicio rc)
                      (col_fin rc - col_inicio rc) (fila_fin rc - fila_inicio rc).
Proof.
  split.
  - apply (proj1 (C5_alinear_sin_guarda [None; None])). reflexivity.
  - apply (proj2 (C5_alinear_sin_guarda [Some area_a; Some area_b])). discriminate.
Defined.

End Aligner.

(** ** Valid-window detector *)

Section Detector.

Lemma np_any_true (v : list bool) : np_any v = true ↔ ∃ i, v !! i = Some true.
Proof.
  unfold np_any. induction v as [|b v IH]; simpl.
  - split; [discriminate | intros [i Hi]; by destruct i].
  - destruct b; simpl.
    + split; [intros _; by exists 0 | done].
    + rewrite IH. split.
      * intros [i Hi]. by exists (S i).
      * intros [[|i] Hi]; [discriminate | by exists i].
Qed.

Lemma argmax_spec (v : list bool) :
  np_any v = true →
  v !! argmax v = Some true ∧ ∀ i, i < argmax v → v !! i = Some false.
Proof.
  induction v as [|b v IH]; [discriminate|].
  destruct b; simpl.
  - intros _. split; [done | intros i Hi; lia].
  - unfold np_any at 1. simpl. fold (np_any v). intros Hany. rewrite Hany.
    destruct (IH Hany) as [H1 H2]. split; [exact H1|].
    intros [|i] Hi; [done|]. apply H2. lia.
Qed.

Lemma argmax_reverse_spec (v : list bool) :
  np_any v = true →
  argmax (reverse v) < length v ∧
  v !! (length v - S (argmax (reverse v))) = Some true ∧
  ∀ i, length v - argmax (reverse v) ≤ i → i < length v → v !! i = Some false.
Proof.
  intros Hany.
  assert (Hrev : np_any (reverse v) = true).
  { apply np_any_true in Hany as [i Hi]. apply np_any_true.
    pose proof (lookup_lt_Some _ _ _ Hi) as Hlt.
    exists (length v - S i). rewrite reverse_lookup by lia.
    replace (length v - S (length v - S i)) with i by lia. exact Hi. }
  destruct (argmax_spec _ Hrev) as [H1 H2].
  pose proof (lookup_lt_Some _ _ _ H1) as Hlt. rewrite length_reverse in Hlt.
  split; [exact Hlt|]. split.
  - rewrite reverse_lookup in H1 by exact Hlt. exact H1.
  - intros i Hge Hi.
    specialize (H2 (length v - S i) ltac:(lia)).
    rewrite reverse_lookup in H2 by lia.
    replace (length v - S (length v - S i)) with i in H2 by lia. exact H2.
Qed.

Lemma forallb_seq_false (f : nat → bool) (n : nat) :
  forallb f (seq 0 n) = false ↔ ∃ i, i < n ∧ f i = false.
Proof.
  split.
  - intros H. destruct (forallb f (seq 0 n)) eqn:E; [discriminate|].
    clear H. apply not_true_iff_false in E.
    destruct (decide (Exists (λ i, f i = false) (seq 0 n))) as [Hex | Hnex].
    + apply Exists_exists in Hex as (i & Hin & Hi). exists i. split; [|done].
      apply elem_of_seq in Hin. lia.
    + exfalso. apply E. apply forallb_forall. intros i Hin.
      destruct (f i) eqn:Efi; [done|]. exfalso. apply Hnex.
      apply Exists_exists. exists i. split; [|done]. by apply list_elem_of_In.
  - intros (i & Hi & Hfi). apply not_true_iff_false. intros Hall.
    rewrite forallb_forall in Hall. specialize (Hall i).
    rewrite Hall in Hfi; [discriminate|]. apply in_seq. lia.
Qed.

Lemma filas_validas_length (data : ndarray f32) :
  length (filas_validas data) = nfilas data.
Proof. unfold filas_validas. by rewrite length_map, length_seq. Qed.

Lemma cols_validas_length (data : ndarray f32) :
  length (cols_validas data) = ncols data.
Proof. unfold cols_validas. by rewrite length_map, length_seq. Qed.

Lemma filas_validas_true (data : ndarray f32) (r : nat) :
  filas_validas data !! r = Some true ↔ fila_valida data r.
Proof.
  unfold filas_validas, fila_valida, valido.
  change (map ?f ?l) with (f <$> l). rewrite list_lookup_fmap. split.
  - intros H. apply fmap_Some in H as (r' & Hr' & Hb).
    apply lookup_seq in Hr' as [-> Hr]. simpl in *.
    symmetry in Hb. apply negb_true_iff in Hb.
    apply forallb_seq_false in Hb as (c & Hc & Hnan). by exists c.
  - intros (c & Hr & Hc & Hnan). rewrite lookup_seq_lt by exact Hr. simpl.
    f_equal. apply negb_true_iff. apply forallb_seq_false. by exists c.
Qed.

Lemma cols_validas_true (data : ndarray f32) (c : nat) :
  cols_validas data !! c = Some true ↔ col_valida data c.
Proof.
  unfold cols_validas, col_valida, valido.
  change (map ?f ?l) with (f <$> l). rewrite list_lookup_fmap. split.
  - intros H. apply fmap_Some in H as (c' & Hc' & Hb).
    apply lookup_seq in Hc' as [-> Hc]. simpl in *.
    symmetry in Hb. apply negb_true_iff in Hb.
    apply forallb_seq_false in Hb as (r & Hr & Hnan). by exists r.
  - intros (r & Hr & Hc & Hnan). rewrite lookup_seq_lt by exact Hc. simpl.
    f_equal. apply negb_true_iff. apply forallb_seq_false. by exists r.
Qed.

(** What [argmax] and the reversed [argmax] find in a vector that marks
    the indices with property [P]. *)
Lemma primera_ultima_argmax (v : list bool) (P : nat → Prop) :
  (∀ i, v !! i = Some true ↔ P i) →
  (∃ i, P i) →
  np_any v = true ∧
  primera P (argmax v) ∧
  argmax (reverse v) < length v ∧
  ultima P (length v - S (argmax (reverse v))).
Proof.
  intros HP [i0 Hi0].
  assert (Hany : np_any v = true) by (apply np_any_true; exists i0; by apply HP).
  destruct (argmax_spec _ Hany) as [Hf1 Hf2].
  destruct (argmax_reverse_spec _ Hany) as (Hl0 & Hl1 & Hl2).
  split; [exact Hany|]. split; [|split; [exact Hl0|]].
  - split; [by apply HP|]. intros i Hi HPi. apply HP in HPi.
    rewrite (Hf2 i Hi) in HPi. discriminate.
  - split; [by apply HP|]. intros i Hi HPi. apply HP in HPi.
    pose proof (lookup_lt_Some _ _ _ HPi) as Hlt.
    rewrite (Hl2 i) in HPi by lia. discriminate.
Qed.

Lemma primera_unica (P : nat → Prop) (n m : nat) : primera P n → primera P m → n = m.
Proof.
  intros [Hn Hn'] [Hm Hm'].
  destruct (Nat.lt_trichotomy n m) as [H | [H | H]]; [|done|].
  - by destruct (Hm' n H).
  - by destruct (Hn' m H).
Qed.

Lemma ultima_unica (P : nat → Prop) (n m : nat) : ultima P n → ultima P m → n = m.
Proof.
  intros [Hn Hn'] [Hm Hm'].
  destruct (Nat.lt_trichotomy n m) as [H | [H | H]]; [|done|].
  - by destruct (Hn' m H).
  - by destruct (Hm' n H).
Qed.

(** The detector on a raster with at least one non-missing sample. *)
Lemma detectar_area_valido (data : ndarray f32) :
  (∃ r c, valido data r c) →
  ∃ fi lf ci lc,
    primera (fila_valida data) fi ∧ ultima (fila_valida data) lf ∧
    primera (col_valida data) ci ∧ ultima (col_valida data) lc ∧
    detectar_area data =
      Some (Area (Z.of_nat fi) (Z.of_nat lf + 1) (Z.of_nat ci) (Z.of_nat lc + 1)
                 (Z.of_nat lc + 1 - Z.of_nat ci) (Z.of_nat lf + 1 - Z.of_nat fi)).
Proof.
  intros (r & c & Hv).
  destruct (primera_ultima_argmax (filas_validas data) (fila_valida data))
    as (Hfa & Hf1 & Hf0 & Hf2); [apply filas_validas_true | by exists r, c |].
  destruct (primera_ultima_argmax (cols_validas data) (col_valida data))
    as (Hca & Hc1 & Hc0 & Hc2); [apply cols_validas_true | by exists c, r |].
  eexists _, _, _, _. split; [exact Hf1|]. split; [exact Hf2|].
  split; [exact Hc1|]. split; [exact Hc2|].
  unfold detectar_area. rewrite Hfa, Hca. simpl. do 2 f_equal; lia.
Qed.

Lemma rectangulo_fila (data : ndarray f32) (r0 r1 c0 c1 : nat) :
  rectangulo_valido data r0 r1 c0 c1 →
  ∀ r, fila_valida data r ↔ r0 ≤ r < r1.
Proof.
  intros (Hr & Hc & H) r. split.
  - intros (c & Hlr & Hlc & Hnan). by apply (H r c Hlr Hlc) in Hnan as [? _].
  - intros Hin. exists c0. split; [lia|]. split; [lia|]. apply H; lia.
Qed.

Lemma rectangulo_col (data : ndarray f32) (r0 r1 c0 c1 : nat) :
  rectangulo_valido data r0 r1 c0 c1 →
  ∀ c, col_valida data c ↔ c0 ≤ c < c1.
Proof.
  intros (Hr & Hc & H) c. split.
  - intros (r & Hlr & Hlc & Hnan). by apply (H r c Hlr Hlc) in Hnan as [_ ?].
  - intros Hin. exists r0. split; [lia|]. split; [lia|]. apply H; lia.
Qed.

Lemma detectar_area_rectangulo (data : ndarray f32) (r0 r1 c0 c1 : nat) :
  rectangulo_valido data r0 r1 c0 c1 →
  detectar_area data =
    Some (Area (Z.of_nat r0) (Z.of_nat r1) (Z.of_nat c0) (Z.of_nat c1)
               (Z.of_nat c1 - Z.of_nat c0) (Z.of_nat r1 - Z.of_nat r0)).
Proof.
  intros HR. pose proof (rectangulo_fila _ _ _ _ _ HR) as HF.
  pose proof (rectangulo_col _ _ _ _ _ HR) as HC.
  destruct HR as (Hr & Hc & H).
  destruct (detectar_area_valido data) as (fi & lf & ci & lc & H1 & H2 & H3 & H4 & E).
  { exists r0, c0. split; [lia|]. split; [lia|]. apply H; lia. }
  assert (fi = r0) as ->.
  { apply (primera_unica _ _ _ H1). split; [apply HF; lia|].
    intros i Hi Hv. apply HF in Hv. lia. }
  assert (lf = r1 - 1) as ->.
  { apply (ultima_unica _ _ _ H2). split; [apply HF; lia|].
    intros i Hi Hv. apply HF in Hv. lia. }
  assert (ci = c0) as ->.
  { apply (primera_unica _ _ _ H3). split; [apply HC; lia|].
    intros i Hi Hv. apply HC in Hv. lia. }
  assert (lc = c1 - 1) as ->.
  { apply (ultima_unica _ _ _ H4). split; [apply HC; lia|].
    intros i Hi Hv. apply HC in Hv. lia. }
  rewrite E. do 2 f_equal; lia.
Qed.

Lemma detectar_area_sin_datos (data : ndarray f32) :
  (∀ r c, ¬ valido data r c) → detectar_area data = None.
Proof.
  intros Hno. unfold detectar_area.
  destruct (np_any (filas_validas data)) eqn:E; [|done].
  apply np_any_true in E as [r Hr]. apply filas_validas_true in Hr as [c Hv].
  by destruct (Hno r c).
Qed.

(** C4. On a raster with at least one non-missing sample the detector
    returns (first valid row, last valid row + 1, first valid column,
    last valid column + 1), a row or column being valid iff it holds a
    non-missing sample; when the non-missing samples fill exactly a
    rectangle it returns that rectangle; on an all-missing raster it
    reports no valid data. *)
Theorem C4_detectar_area (data : ndarray f32) :
  ((∃ r c, valido data r c) →
     ∃ fi lf ci lc,
       primera (fila_valida data) fi ∧ ultima (fila_valida data) lf ∧
       primera (col_valida data) ci ∧ ultima (col_valida data) lc ∧
       detectar_area data =
         Some (Area (Z.of_nat fi) (Z.of_nat lf + 1) (Z.of_nat ci) (Z.of_nat lc + 1)
                    (Z.of_nat lc + 1 - Z.of_nat ci) (Z.of_nat lf + 1 - Z.of_nat fi))) ∧
  (∀ r0 r1 c0 c1, rectangulo_valido data r0 r1 c0 c1 →
     detectar_area data =
       Some (Area (Z.of_nat r0) (Z.of_nat r1) (Z.of_nat c0) (Z.of_nat c1)
                  (Z.of_nat c1 - Z.of_nat c0) (Z.of_nat r1 - Z.of_nat r0))) ∧
  ((∀ r c, ¬ valido data r c) → detectar_area data = None).
Proof.
  split; [apply detectar_area_valido|].
  split; [apply detectar_area_rectangulo | apply detectar_area_sin_datos].
Qed.

Lemma raster_borde_rectangulo : rectangulo_valido raster_borde 1 3 2 4.
Proof.
  split; [simpl; lia|]. split; [simpl; lia|].
  intros r c Hr Hc. simpl in Hr, Hc.
  destruct r as [|[|[|[|r]]]]; [| | | |lia];
    (destruct c as [|[|[|[|[|c]]]]]; [| | | | |lia]);
    vm_compute; split; intros; try discriminate; try lia; done.
Qed.

Lemma C4_witness :
  (∃ fi lf ci lc,
     primera (fila_valida raster_borde) fi ∧ ultima (fila_valida raster_borde) lf ∧
     primera (col_valida raster_borde) ci ∧ ultima (col_valida raster_borde) lc ∧
     detectar_area raster_borde =
       Some (Area (Z.of_nat fi) (Z.of_nat lf + 1) (Z.of_nat ci) (Z.of_nat lc + 1)
                  (Z.of_nat lc + 1 - Z.of_nat ci) (Z.of_nat lf + 1 - Z.of_nat fi))) ∧
  detectar_area raster_borde = Some (Area 1 3 2 4 2 2) ∧
  detectar_area raster_vacio = None.
Proof.
  split; [|split].
  - apply (proj1 (C4_detectar_area raster_borde)).
    exists 1, 2. split; [simpl; lia|]. split; [simpl; lia|]. reflexivity.
  - apply (proj1 (proj2 (C4_detectar_area raster_borde)) 1 3 2 4).
    exact raster_borde_rectangulo.
  - apply (proj2 (proj2 (C4_detectar_area raster_vacio))).
    intros r c (Hr & Hc & Hnan). simpl in Hr, Hc.
    destruct r as [|[|r]]; [| |lia]; (destruct c as [|[|c]]; [| |lia]); discriminate.
Defined.

End Detector.

(** ** Temporal gap filler *)

Section GapFiller.

Lemma wp_ret {A} (a : A) (Q : A → estado → Prop) st : Q a st → wp (mret a) Q st.
Proof. intros H. by exists a, st. Qed.

Lemma wp_bind {A B} (m : M A) (f : A → M B) (Q : B → estado → Prop) st :
  wp m (λ a st', wp (f a) Q st') st → wp (m ≫= f) Q st.
Proof.
  intros (a & st' & E & b & st'' & E' & HQ). exists b, st''. split; [|done].
  unfold mbind, M_bind. by rewrite E.
Qed.

Lemma wp_lift {A} (o : option A) (a : A) (Q : A → estado → Prop) st :
  o = Some a → Q a st → wp (lift o) Q st.
Proof. intros -> H. by exists a, st. Qed.

Lemma wp_leer l a (Q : ndarray f32 → estado → Prop) st :
  heap st !! l = Some a → Q a st → wp (leer l) Q st.
Proof. intros E H. exists a, st. split; [|done]. unfold leer. by rewrite E. Qed.

Lemma wp_nuevo a (Q : loc → estado → Prop) st :
  (∀ l, heap st !! l = None →
        Q l (Estado (<[l := a]> (heap st)) (bandas_ndvi st) (banda_verano st))) →
  wp (nuevo a) Q st.
Proof.
  intros H. eexists _, _. split; [reflexivity|]. apply H.
  apply not_elem_of_dom. apply is_fresh.
Qed.

Lemma wp_copy l a (Q : loc → estado → Prop) st :
  heap st !! l = Some a →
  (∀ l', heap st !! l' = None →
         Q l' (Estado (<[l' := a]> (heap st)) (bandas_ndvi st) (banda_verano st))) →
  wp (copy l) Q st.
Proof.
  intros E H. unfold copy. apply wp_bind. apply (wp_leer _ a); [done|].
  by apply wp_nuevo.
Qed.

Lemma wp_len_bandas (Q : nat → estado → Prop) st :
  Q (length (bandas_ndvi st)) st → wp len_bandas Q st.
Proof. intros H. by eexists _, _. Qed.

Lemma wp_elemento i l (Q : loc → estado → Prop) st :
  bandas_ndvi st !! i = Some l → Q l st → wp (elemento i) Q st.
Proof. intros E H. exists l, st. split; [|done]. unfold elemento. by rewrite E. Qed.

Lemma wp_asignar_elemento i l (Q : unit → estado → Prop) st :
  i < length (bandas_ndvi st) →
  Q tt (Estado (heap st) (<[i := l]> (bandas_ndvi st)) (banda_verano st)) →
  wp (asignar_elemento i l) Q st.
Proof.
  intros Hi H. eexists _, _. split; [|exact H].
  unfold asignar_elemento. by rewrite decide_True.
Qed.

Lemma wp_asignar_mascara dst (mask : ndarray bool) (vals d : ndarray f32) (Q : unit → estado → Prop) st :
  heap st !! dst = Some d →
  shape mask = shape d → shape vals = shape d →
  Q tt (Estado (<[dst := NDArray (nfilas d) (ncols d)
                   (λ r c, if celda mask r c then celda vals r c else celda d r c)]>
                  (heap st)) (bandas_ndvi st) (banda_verano st)) →
  wp (asignar_mascara dst mask vals) Q st.
Proof.
  intros E S1 S2 H. eexists _, _. split; [|exact H].
  unfold asignar_mascara. rewrite E. simpl. by rewrite decide_True.
Qed.

Lemma zip_nd_Some {A B C} (f : A → B → C) (a : ndarray A) (b : ndarray B) :
  shape a = shape b →
  zip_nd f a b = Some (NDArray (nfilas a) (ncols a) (λ r c, f (celda a r c) (celda b r c))).
Proof. intros H. unfold zip_nd. by rewrite decide_True. Qed.

Ltac buscar_heap :=
  simpl;
  repeat (rewrite lookup_insert_eq ||
          rewrite lookup_insert_ne by (first [done | intros ->; congruence]));
  done.
Ltac paso_leer x := apply wp_bind, (wp_leer _ x); [buscar_heap|].
Ltac shape_eq := unfold shape, np_isnan, np_not_isnan, map_nd; simpl; congruence.
Ltac paso_zip :=
  eapply wp_bind, wp_lift;
    [apply zip_nd_Some; unfold shape, np_isnan, np_not_isnan, map_nd; simpl; congruence|].

(** The run of the step when it interpolates. *)
Lemma interpolar_mayo_ejecuta st l5 l4 l6 m a j :
  bandas_ndvi st !! indice_mayo = Some l5 →
  bandas_ndvi st !! indice_abril = Some l4 →
  bandas_ndvi st !! indice_junio = Some l6 →
  heap st !! l5 = Some m → heap st !! l4 = Some a → heap st !! l6 = Some j →
  shape a = shape m → shape j = shape m →
  bajo_umbral (contar_validos m) (size_of m) = true →
  ∃ lmi h' out,
    interpolar_mayo st =
      Some (tt, Estado h' (<[indice_mayo := lmi]> (bandas_ndvi st)) (banda_verano st)) ∧
    heap st !! lmi = None ∧
    (∀ l, is_Some (heap st !! l) → h' !! l = heap st !! l) ∧
    h' !! lmi = Some out ∧ shape out = shape m ∧
    ∀ r c, celda out r c = relleno (celda m r c) (celda a r c) (celda j r c).
Proof.
  intros H5 H4 H6 Hm Ha Hj Sa Sj Hb.
  pose proof (lookup_lt_Some _ _ _ H6) as Hlen. unfold indice_junio in Hlen.
  cut (wp interpolar_mayo (λ _ st', ∃ lmi out,
         bandas_ndvi st' = <[indice_mayo := lmi]> (bandas_ndvi st) ∧
         banda_verano st' = banda_verano st ∧
         heap st !! lmi = None ∧
         (∀ l, is_Some (heap st !! l) → heap st' !! l = heap st !! l) ∧
         heap st' !! lmi = Some out ∧ shape out = shape m ∧
         ∀ r c, celda out r c = relleno (celda m r c) (celda a r c) (celda j r c)) st).
  { intros ([] & [h' b' v'] & E & lmi & out & Eb & Ev & Hrest). simpl in *. subst.
    by exists lmi, h', out. }
  unfold interpolar_mayo.
  apply wp_bind, wp_len_bandas.
  rewrite decide_True by (unfold indice_mayo; lia).
  apply wp_bind, (wp_elemento _ l5); [done|].
  apply wp_bind, (wp_copy _ m); [done|]. intros lm Hlm. simpl.
  apply wp_bind, (wp_leer _ m); [buscar_heap|]. simpl.
  rewrite Hb. rewrite decide_True by (unfold indice_junio, indice_abril; lia).
  apply wp_bind, (wp_elemento _ l4); [done|].
  apply wp_bind, (wp_copy _ a); [buscar_heap|]. simpl. intros la Hla.
  apply lookup_insert_None in Hla as [Hla Hla1].
  apply wp_bind, (wp_elemento _ l6); [done|].
  apply wp_bind, (wp_copy _ j); [buscar_heap|]. simpl. intros lj Hlj.
  apply lookup_insert_None in Hlj as [Hlj Hlj1].
  apply lookup_insert_None in Hlj as [Hlj Hlj2].
  apply wp_bind, (wp_copy _ m); [buscar_heap|]. simpl. intros lmi Hlmi.
  apply lookup_insert_None in Hlmi as [Hlmi Hlmi1].
  apply lookup_insert_None in Hlmi as [Hlmi Hlmi2].
  apply lookup_insert_None in Hlmi as [Hlmi Hlmi3].
  assert (Sa' : (nfilas a, ncols a) = (nfilas m, ncols m)) by exact Sa.
  assert (Sj' : (nfilas j, ncols j) = (nfilas m, ncols m)) by exact Sj.
  (* case 1 *)
  paso_leer a. paso_leer j.
  paso_zip. paso_zip.
  paso_leer a. paso_leer j. paso_zip.
  eapply wp_bind, wp_asignar_mascara; [buscar_heap | shape_eq | shape_eq |]. simpl.
  (* case 2 *)
  paso_leer a. paso_leer j. paso_zip. paso_zip. paso_leer a.
  eapply wp_bind, wp_asignar_mascara; [buscar_heap | shape_eq | shape_eq |]. simpl.
  (* case 3 *)
  paso_leer a. paso_leer j. paso_zip. paso_zip. paso_leer j.
  eapply wp_bind, wp_asignar_mascara; [buscar_heap | shape_eq | shape_eq |]. simpl.
  apply wp_asignar_elemento; [simpl; unfold indice_mayo; lia|]. simpl.
  eexists lmi, _. split; [done|]. split; [done|]. split; [done|].
  split; [|split; [buscar_heap|split; [done|]]].
  - intros l [x Hx].
    assert (l ≠ lmi) by (intros ->; rewrite Hlmi in Hx; discriminate).
    assert (l ≠ lj) by (intros ->; rewrite Hlj in Hx; discriminate).
    assert (l ≠ la) by (intros ->; rewrite Hla in Hx; discriminate).
    assert (l ≠ lm) by (intros ->; rewrite Hlm in Hx; discriminate).
    buscar_heap.
  - intros r c. simpl. unfold relleno. reflexivity.
Qed.


Lemma contenido_Some st i x :
  contenido st i = Some x ↔ ∃ l, bandas_ndvi st !! i = Some l ∧ heap st !! l = Some x.
Proof. unfold contenido. by rewrite bind_Some. Qed.

(** The five cases of one pixel. *)
Lemma relleno_casos (x p q : f32) :
  (F32.isnan x = false → relleno x p q = x) ∧
  (F32.isnan x = true → F32.isnan p = false → F32.isnan q = false →
     relleno x p q = F32.div (F32.add p q) F32.dos) ∧
  (F32.isnan x = true → F32.isnan p = false → F32.isnan q = true → relleno x p q = p) ∧
  (F32.isnan x = true → F32.isnan p = true → F32.isnan q = false → relleno x p q = q) ∧
  (F32.isnan x = true → F32.isnan p = true → F32.isnan q = true →
     F32.isnan (relleno x p q) = true).
Proof.
  unfold relleno. repeat split; intros; repeat match goal with
    | H : F32.isnan _ = _ |- _ => rewrite H
    end; simpl; done.
Qed.

(** C2. When the May band (index 5) has less than 50% of non-missing
    samples and April (index 4) and June (index 6) are present with its
    shape, the step succeeds and the new May band has the same shape and,
    pixel by pixel: a sample valid in May is kept; a missing one becomes
    (a + b) / 2 when April's a and June's b are both valid, the valid
    neighbour's value when exactly one is valid, and stays missing when
    neither is. *)
Theorem C2_interpolar_mayo (st : estado) (m a j : ndarray f32) :
  contenido st indice_mayo = Some m →
  contenido st indice_abril = Some a →
  contenido st indice_junio = Some j →
  shape a = shape m → shape j = shape m →
  bajo_umbral (contar_validos m) (size_of m) = true →
  ∃ st' out,
    interpolar_mayo st = Some (tt, st') ∧
    contenido st' indice_mayo = Some out ∧
    shape out = shape m ∧
    ∀ r c, r < nfilas m → c < ncols m →
      let x := celda m r c in
      let p := celda a r c in
      let q := celda j r c in
      let y := celda out r c in
      (F32.isnan x = false → y = x) ∧
      (F32.isnan x = true → F32.isnan p = false → F32.isnan q = false →
         y = F32.div (F32.add p q) F32.dos) ∧
      (F32.isnan x = true → F32.isnan p = false → F32.isnan q = true → y = p) ∧
      (F32.isnan x = true → F32.isnan p = true → F32.isnan q = false → y = q) ∧
      (F32.isnan x = true → F32.isnan p = true → F32.isnan q = true →
         F32.isnan y = true).
Proof.
  intros Hm Ha Hj Sa Sj Hb.
  apply contenido_Some in Hm as (l5 & H5 & Hm).
  apply contenido_Some in Ha as (l4 & H4 & Ha).
  apply contenido_Some in Hj as (l6 & H6 & Hj).
  destruct (interpolar_mayo_ejecuta st l5 l4 l6 m a j)
    as (lmi & h' & out & Erun & Hfresh & Hframe & Hout & Sout & Hpix); try done.
  eexists _, out. split; [exact Erun|]. split; [|split; [exact Sout|]].
  - apply contenido_Some. exists lmi. simpl. split; [|exact Hout].
    apply list_lookup_insert_eq. by eapply lookup_lt_Some.
  - intros r c _ _. simpl. rewrite Hpix. apply relleno_casos.
Qed.

Lemma C2_witness :
  ∃ st' out,
    interpolar_mayo estado_ej = Some (tt, st') ∧
    contenido st' indice_mayo = Some out ∧
    shape out = shape banda_mayo_ej ∧
    ∀ r c, r < nfilas banda_mayo_ej → c < ncols banda_mayo_ej →
      let x := celda banda_mayo_ej r c in
      let p := celda banda_abril_ej r c in
      let q := celda banda_junio_ej r c in
      let y := celda out r c in
      (F32.isnan x = false → y = x) ∧
      (F32.isnan x = true → F32.isnan p = false → F32.isnan q = false →
         y = F32.div (F32.add p q) F32.dos) ∧
      (F32.isnan x = true → F32.isnan p = false → F32.isnan q = true → y = p) ∧
      (F32.isnan x = true → F32.isnan p = true → F32.isnan q = false → y = q) ∧
      (F32.isnan x = true → F32.isnan p = true → F32.isnan q = true →
         F32.isnan y = true).
Proof.
  apply (C2_interpolar_mayo estado_ej banda_mayo_ej banda_abril_ej banda_junio_ej);
    reflexivity.
Defined.

(** The example of the specification: 0.40 in April and 0.60 in June
    fill May with 0.50; the other pixels follow the fallback cases. *)
Example interpolar_mayo_ejemplo :
  (interpolar_mayo estado_ej ≫= λ r, to_rows <$> contenido r.2 indice_mayo) =
    Some [ [F32.decimal 5 1; F32.decimal 7 1; F32.nan; F32.decimal 3 1] ].
Proof. vm_compute. reflexivity. Qed.

(** The step on any well-formed store: it succeeds, the list keeps its
    length and every slot but May's, and no buffer that existed before is
    modified. *)
Lemma interpolar_mayo_marco (st : estado) :
  bien_formado st → vecinos_misma_forma st →
  ∃ st', interpolar_mayo st = Some (tt, st') ∧
    banda_verano st' = banda_verano st ∧
    length (bandas_ndvi st') = length (bandas_ndvi st) ∧
    (∀ i, i ≠ indice_mayo → bandas_ndvi st' !! i = bandas_ndvi st !! i) ∧
    (∀ l, is_Some (heap st !! l) → heap st' !! l = heap st !! l).
Proof.
  intros [Hwf Hv] Hshape.
  destruct (decide (indice_mayo < length (bandas_ndvi st))) as [Hlen | Hlen].
  2:{ exists st. split; [|done]. unfold interpolar_mayo, mbind, M_bind, len_bandas.
      by rewrite decide_False. }
  destruct (lookup_lt_is_Some_2 _ _ Hlen) as [l5 H5].
  destruct (Hwf _ _ H5) as [m Hm].
  (* the runs that copy May and stop *)
  assert (Hcorto :
    bajo_umbral (contar_validos m) (size_of m) = false ∨
    ¬ (indice_junio < length (bandas_ndvi st) ∧ indice_abril < length (bandas_ndvi st)) →
    wp interpolar_mayo (λ _ st',
      banda_verano st' = banda_verano st ∧
      bandas_ndvi st' = bandas_ndvi st ∧
      (∀ l, is_Some (heap st !! l) → heap st' !! l = heap st !! l)) st).
  { intros Hcaso. unfold interpolar_mayo.
    apply wp_bind, wp_len_bandas. rewrite decide_True by done.
    apply wp_bind, (wp_elemento _ l5); [done|].
    apply wp_bind, (wp_copy _ m); [done|]. intros lm Hlm. simpl.
    apply wp_bind, (wp_leer _ m); [buscar_heap|]. simpl.
    assert (Hfin : ∀ l, is_Some (heap st !! l) → <[lm:=m]> (heap st) !! l = heap st !! l).
    { intros l [x Hx]. apply lookup_insert_ne. intros ->. rewrite Hlm in Hx. discriminate. }
    destruct (bajo_umbral _ _); [|by apply wp_ret].
    destruct Hcaso as [? | Hno]; [discriminate|].
    rewrite decide_False by done. by apply wp_ret. }
  destruct (bajo_umbral (contar_validos m) (size_of m)) eqn:Hb.
  2:{ destruct Hcorto as ([] & st' & E & Ev & Eb & Hh); [by left|].
      exists st'. rewrite Eb. done. }
  destruct (decide (indice_junio < length (bandas_ndvi st)
                    ∧ indice_abril < length (bandas_ndvi st))) as [[Hl6 Hl4] | Hno].
  2:{ destruct Hcorto as ([] & st' & E & Ev & Eb & Hh); [by right|].
      exists st'. rewrite Eb. done. }
  destruct (lookup_lt_is_Some_2 _ _ Hl6) as [l6 H6].
  destruct (lookup_lt_is_Some_2 _ _ Hl4) as [l4 H4].
  destruct (Hwf _ _ H6) as [j Hj]. destruct (Hwf _ _ H4) as [a Ha].
  destruct (Hshape m a j) as [Sa Sj]; try (apply contenido_Some; eauto).
  destruct (interpolar_mayo_ejecuta st l5 l4 l6 m a j)
    as (lmi & h' & out & Erun & Hfresh & Hframe & _); try done.
  eexists. split; [exact Erun|]. simpl. split; [done|].
  split; [apply length_insert|]. split; [|exact Hframe].
  intros i Hi. by apply list_lookup_insert_ne.
Qed.

(** C10. The gap-filling step only replaces slot 5 of the list of monthly
    bands: every other slot refers to the same array with the same
    contents as before, missing samples included; the April and June
    arrays it reads (indeed every array that existed before the step)
    and the category band are unchanged. *)
Theorem C10_marco_interpolacion (st : estado) :
  bien_formado st → vecinos_misma_forma st →
  ∃ st', interpolar_mayo st = Some (tt, st') ∧
    length (bandas_ndvi st') = length (bandas_ndvi st) ∧
    (∀ i, i ≠ indice_mayo → contenido st' i = contenido st i) ∧
    (∀ l, is_Some (heap st !! l) → heap st' !! l = heap st !! l) ∧
    banda_verano st' = banda_verano st ∧
    heap st' !! banda_verano st' = heap st !! banda_verano st.
Proof.
  intros Hwf Hshape.
  destruct (interpolar_mayo_marco st Hwf Hshape) as (st' & E & Ev & El & Hb & Hh).
  exists st'. split; [exact E|]. split; [exact El|].
  split; [|split; [exact Hh|split; [exact Ev|]]].
  - intros i Hi. unfold contenido. rewrite (Hb i Hi).
    destruct (bandas_ndvi st !! i) as [l|] eqn:Ei; [|done]. simpl.
    apply Hh. destruct Hwf as [Hwf _]. by eapply Hwf.
  - rewrite Ev. apply Hh. by destruct Hwf.
Qed.

Lemma estado_ej_bien_formado : bien_formado estado_ej.
Proof.
  split.
  - intros i l Hi.
    do 7 (destruct i as [|i]; [injection Hi as <-; by eexists|]). by destruct i.
  - by eexists.
Qed.

Lemma estado_ej_misma_forma : vecinos_misma_forma estado_ej.
Proof.
  intros m a j Hm Ha Hj. vm_compute in Hm, Ha, Hj.
  injection Hm as <-. injection Ha as <-. injection Hj as <-. done.
Qed.

Lemma C10_witness :
  ∃ st', interpolar_mayo estado_ej = Some (tt, st') ∧
    length (bandas_ndvi st') = length (bandas_ndvi estado_ej) ∧
    (∀ i, i ≠ indice_mayo → contenido st' i = contenido estado_ej i) ∧
    (∀ l, is_Some (heap estado_ej !! l) → heap st' !! l = heap estado_ej !! l) ∧
    banda_verano st' = banda_verano estado_ej ∧
    heap st' !! banda_verano st' = heap estado_ej !! banda_verano estado_ej.
Proof.
  apply (C10_marco_interpolacion estado_ej).
  - exact estado_ej_bien_formado.
  - exact estado_ej_misma_forma.
Defined.

End GapFiller.

(** ** Majority filter *)

Section MajorityFilter.
Local Open Scope Z_scope.

Lemma elem_insertar_conteo (v : Z) (l : list (Z * nat)) (k : Z) (n : nat) :
  claves_crecientes l →
  (k, n) ∈ insertar_conteo v l ↔
    (k ≠ v ∧ (k, n) ∈ l) ∨
    (k = v ∧ ((∃ n0, (v, n0) ∈ l ∧ n = S n0) ∨ ((∀ n0, (v, n0) ∉ l) ∧ n = 1%nat))).
Proof.
  induction l as [|[k0 n0] l IH]; simpl.
  - intros _. rewrite list_elem_of_singleton. setoid_rewrite elem_of_nil. split.
    + intros [= -> ->]. right. split; [done|]. right. split; [|done]. by intros _ [].
    + intros [[_ []] | [-> [(m & [] & _) | [_ ->]]]]. done.
  - intros [Hlt Hs]. specialize (IH Hs).
    assert (Hcola : ∀ m, (v, m) ∈ l → k0 < v) by (intros m Hm; by apply Hlt in Hm).
    assert (Hcola' : (k, n) ∈ l → k0 < k) by apply Hlt.
    destruct (Z.ltb_spec v k0) as [Hv | Hv]; [|destruct (Z.eqb_spec v k0) as [-> | Hne]].
    + (* new least key *)
      rewrite !elem_of_cons. setoid_rewrite elem_of_cons. split.
      * intros [[= -> ->] | [[= -> ->] | H]].
        -- right. split; [done|]. right. split; [|done].
           intros m [[= ? ?] | Hm]; [lia|]. apply Hcola in Hm. lia.
        -- left. split; [lia|]. by left.
        -- left. split; [|by right]. apply Hcola' in H. lia.
      * intros [[Hk [H | H]] | [-> [(m & [[= ? ?] | H] & ->) | [Hno ->]]]].
        -- right; by left.
        -- right; by right.
        -- lia.
        -- apply Hcola in H. lia.
        -- by left.
    + (* the head counts one more *)
      rewrite !elem_of_cons. setoid_rewrite elem_of_cons. split.
      * intros [[= -> ->] | H].
        -- right. split; [done|]. left. exists n0. split; [by left | done].
        -- left. split; [|by right]. apply Hcola' in H. lia.
      * intros [[Hk [[= ? ?] | H]] | [-> [(m & [[= ->] | H] & ->) | [Hno ->]]]].
        -- done.
        -- by right.
        -- by left.
        -- apply Hcola in H. lia.
        -- destruct (Hno n0). by left.
    + (* insert further down *)
      rewrite elem_of_cons, IH, !elem_of_cons. setoid_rewrite elem_of_cons. split.
      * intros [[= -> ->] | [[Hk H] | [-> [(m & H & ->) | [Hno ->]]]]].
        -- left. split; [lia | by left].
        -- left. split; [done | by right].
        -- right. split; [done|]. left. exists m. split; [by right | done].
        -- right. split; [done|]. right. split; [|done].
           intros m [[= ? ?] | Hm]; [lia|]. by apply (Hno m).
      * intros [[Hk [H | H]] | [-> [(m & [[= ? ?] | Hm] & ->) | [Hno ->]]]].
        -- by left.
        -- right; left. done.
        -- lia.
        -- right; right. split; [done|]. left. by exists m.
        -- right; right. split; [done|]. right. split; [|done].
           intros m Hm. apply (Hno m). by right.
Qed.

Lemma claves_crecientes_insertar (v : Z) (l : list (Z * nat)) :
  claves_crecientes l → claves_crecientes (insertar_conteo v l).
Proof.
  induction l as [|[k0 n0] l IH]; simpl.
  - intros _. split; [|done]. intros k' n' H. by apply elem_of_nil in H.
  - intros [Hlt Hs].
    destruct (Z.ltb_spec v k0) as [Hv | Hv]; [|destruct (Z.eqb_spec v k0) as [-> | Hne]].
    + simpl. split; [|done]. intros k' n' H.
      apply elem_of_cons in H as [[= -> ->] | H]; [lia|]. apply Hlt in H. lia.
    + simpl. done.
    + simpl. split; [|by apply IH]. intros k' n' H.
      apply (elem_insertar_conteo _ _ _ _ Hs) in H as [[_ H] | [-> _]]; [|lia].
      by apply (Hlt _ n').
Qed.

(** The table of [np.unique]: increasing keys, and an entry (k, n)
    exactly for the values k that occur, with their multiplicity n. *)
Lemma np_unique_spec (vec : list Z) :
  claves_crecientes (np_unique vec) ∧
  ∀ k n, (k, n) ∈ np_unique vec ↔ (n = ocurrencias k vec ∧ (0 < n)%nat).
Proof.
  induction vec as [|v vec [IHs IH]]; simpl.
  - split; [done|]. intros k n. split.
    + intros H. by apply elem_of_nil in H.
    + unfold ocurrencias. simpl. lia.
  - split; [by apply claves_crecientes_insertar|]. intros k n.
    rewrite (elem_insertar_conteo _ _ _ _ IHs). unfold ocurrencias in *. simpl.
    destruct (Z.eq_dec v k) as [-> | Hne].
    + split.
      * intros [[Hk _] | [_ [(n0 & H & ->) | [Hno ->]]]]; [done | |].
        -- apply IH in H as [-> _]. lia.
        -- destruct (count_occ Z.eq_dec vec k) as [|c] eqn:Ec; [lia|].
           destruct (Hno (S c)). apply IH. lia.
      * intros [-> _]. right. split; [done|].
        destruct (count_occ Z.eq_dec vec k) as [|c] eqn:Ec.
        -- right. split; [|done]. intros n0 H. apply IH in H. lia.
        -- left. exists (S c). split; [|done]. apply IH. lia.
    + rewrite IH. split.
      * intros [[_ H] | [-> _]]; done.
      * intros H. left. done.
Qed.

Lemma nth_map_lookup {A B} (f : A → B) (l : list A) (i : nat) (x : A) (d : B) :
  l !! i = Some x → nth i (map f l) d = f x.
Proof.
  revert i. induction l as [|y l IH]; intros [|i] H; try done.
  - by injection H as ->.
  - by apply IH.
Qed.

(** [np.argmax] picks, in a table with increasing keys, the entry with
    the greatest count and, among those, the least key. *)
Lemma np_argmax_tabla (u : list (Z * nat)) :
  u ≠ [] → claves_crecientes u →
  ∃ k n, u !! np_argmax (map snd u) = Some (k, n) ∧
    ∀ k' n', (k', n') ∈ u → (n' ≤ n)%nat ∧ (n' = n → k ≤ k').
Proof.
  induction u as [|[k0 n0] u IH]; [done|]. intros _ [Hlt Hs].
  destruct u as [|e u'] eqn:Eu.
  - exists k0, n0. split; [done|]. intros k' n' H.
    apply list_elem_of_singleton in H as [= -> ->]. lia.
  - rewrite <- Eu in *. destruct IH as (k & n & Hbest & Hall); [by subst | done |].
    assert (Hnth : nth (np_argmax (map snd u)) (map snd u) 0%nat = n).
    { by apply (nth_map_lookup snd u _ (k, n)). }
    assert (Hstep : np_argmax (map snd ((k0, n0) :: u)) =
                    if (n <=? n0)%nat then 0%nat else S (np_argmax (map snd u))).
    { simpl. rewrite Hnth. subst u. reflexivity. }
    rewrite Hstep. destruct (Nat.leb_spec n n0) as [Hle | Hgt].
    + exists k0, n0. split; [done|]. intros k' n' H.
      apply elem_of_cons in H as [[= -> ->] | H]; [lia|].
      destruct (Hall _ _ H) as [H1 _]. split; [lia|]. intros _.
      apply Hlt in H. lia.
    + exists k, n. split; [exact Hbest|]. intros k' n' H.
      apply elem_of_cons in H as [[= -> ->] | H]; [lia|]. by apply Hall.
Qed.

Lemma ocurrencias_filter (x : Z) (v : list Z) :
  0 ≤ x → ocurrencias x (filter (λ y, 0 ≤ y) v) = ocurrencias x v.
Proof.
  intros Hx. unfold ocurrencias. induction v as [|y v IH]; [done|].
  rewrite filter_cons. destruct (decide (0 ≤ y)) as [Hy | Hy]; simpl.
  - destruct (Z.eq_dec y x); by rewrite IH.
  - rewrite IH. destruct (Z.eq_dec y x); [lia | done].
Qed.

Lemma ocurrencias_pos (x : Z) (v : list Z) : (0 < ocurrencias x v)%nat ↔ x ∈ v.
Proof.
  unfold ocurrencias. rewrite list_elem_of_In. split; intros H.
  - apply (count_occ_In Z.eq_dec). exact H.
  - apply (count_occ_In Z.eq_dec) in H. exact H.
Qed.

(** The function handed to the filter. *)
Lemma moda_spec (v : list Z) :
  ((∀ x, x ∈ v → x < 0) → moda v = -1) ∧
  ((∃ x, x ∈ v ∧ 0 ≤ x) → es_moda (moda v) v).
Proof.
  unfold moda. set (vec := filter (λ y, 0 ≤ y) v). split.
  - intros Hneg. rewrite decide_True; [done|].
    destruct vec as [|y vec'] eqn:E; [done|].
    assert (Hy : y ∈ vec) by (rewrite E; left).
    apply list_elem_of_filter in Hy as [Hy Hin]. apply Hneg in Hin. lia.
  - intros (x0 & Hin0 & Hx0).
    assert (Hin : x0 ∈ vec) by (apply list_elem_of_filter; done).
    rewrite decide_False by (destruct vec; [by apply elem_of_nil in Hin | done]).
    destruct (np_unique_spec vec) as [Hs Hu].
    destruct (np_argmax_tabla (np_unique vec)) as (k & n & Hbest & Hall); [|done|].
    { intros E. assert (H : (x0, ocurrencias x0 vec) ∈ np_unique vec).
      { apply Hu. split; [done|]. by apply ocurrencias_pos. }
      rewrite E in H. by apply elem_of_nil in H. }
    assert (Emoda : nth (np_argmax (map snd (np_unique vec))) (map fst (np_unique vec)) (-1) = k).
    { by apply (nth_map_lookup fst _ _ (k, n)). }
    rewrite Emoda.
    assert (Hk : (k, n) ∈ np_unique vec) by (by eapply list_elem_of_lookup_2).
    apply Hu in Hk as [Hn Hpos]. rewrite Hn in Hpos.
    apply ocurrencias_pos in Hpos as Hkin.
    apply list_elem_of_filter in Hkin as [Hk0 Hkv].
    split; [done|]. split; [done|]. intros x Hx.
    rewrite <- (ocurrencias_filter x v Hx), <- (ocurrencias_filter k v Hk0).
    fold vec. rewrite <- Hn.
    destruct (ocurrencias x vec) as [|c] eqn:Ec; [lia|].
    destruct (Hall x (S c)) as [H1 H2]; [apply Hu; lia|]. done.
Qed.

Lemma clamp_spec (n : nat) (i : Z) :
  (0 < n)%nat →
  (i < 0 → clamp n i = 0%nat) ∧
  (0 ≤ i < Z.of_nat n → clamp n i = Z.to_nat i) ∧
  (Z.of_nat n ≤ i → clamp n i = (n - 1)%nat).
Proof. unfold clamp. lia. Qed.

(** The nine samples of the default window, borders replicated. *)
Lemma vecindario_de_3 (pred : ndarray Z) (r c : nat) :
  vecindario_de pred 3 r c =
    let f := clamp (nfilas pred) in
    let g := clamp (ncols pred) in
    let R := Z.of_nat r in
    let C := Z.of_nat c in
    [ celda pred (f (R - 1)) (g (C - 1)); celda pred (f (R - 1)) (g C);
      celda pred (f (R - 1)) (g (C + 1));
      celda pred (f R) (g (C - 1)); celda pred (f R) (g C); celda pred (f R) (g (C + 1));
      celda pred (f (R + 1)) (g (C - 1)); celda pred (f (R + 1)) (g C);
      celda pred (f (R + 1)) (g (C + 1)) ].
Proof.
  unfold vecindario_de. simpl.
  repeat (f_equal; try (f_equal; lia)).
Qed.

(** C8. Every pixel of the filtered raster is the function [moda] of its
    3x3 window with replicated borders; [moda] is -1 when the window has
    no non-negative value, and otherwise the non-negative value that
    occurs most often in the window, the least one on a tie; the window
    1,1,1,2,2,3,-1,-1,-1 gives 1. *)
Theorem C8_filtro_mayoria (pred : ndarray Z) (r c : nat) :
  shape (pred_filtrado pred) = shape pred ∧
  celda (pred_filtrado pred) r c = moda (vecindario_de pred 3 r c) ∧
  vecindario_de pred 3 r c =
    (let f := clamp (nfilas pred) in
     let g := clamp (ncols pred) in
     let R := Z.of_nat r in
     let C := Z.of_nat c in
     [ celda pred (f (R - 1)) (g (C - 1)); celda pred (f (R - 1)) (g C);
       celda pred (f (R - 1)) (g (C + 1));
       celda pred (f R) (g (C - 1)); celda pred (f R) (g C); celda pred (f R) (g (C + 1));
       celda pred (f (R + 1)) (g (C - 1)); celda pred (f (R + 1)) (g C);
       celda pred (f (R + 1)) (g (C + 1)) ]) ∧
  (∀ n i, (0 < n)%nat →
     (i < 0 → clamp n i = 0%nat) ∧
     (0 ≤ i < Z.of_nat n → clamp n i = Z.to_nat i) ∧
     (Z.of_nat n ≤ i → clamp n i = (n - 1)%nat)) ∧
  (∀ v, ((∀ x, x ∈ v → x < 0) → moda v = -1) ∧
        ((∃ x, x ∈ v ∧ 0 ≤ x) → es_moda (moda v) v)) ∧
  moda [1; 1; 1; 2; 2; 3; -1; -1; -1] = 1.
Proof.
  split; [done|]. split; [done|]. split; [apply vecindario_de_3|].
  split; [apply clamp_spec|]. split; [apply moda_spec | reflexivity].
Qed.

Lemma C8_witness :
  celda (pred_filtrado pred_ej) 0 0 = 1 ∧
  es_moda (moda (vecindario_de pred_ej 3 0 0)) (vecindario_de pred_ej 3 0 0) ∧
  moda [-1; -1; -1; -1; -1; -1; -1; -1; -1] = -1.
Proof.
  destruct (C8_filtro_mayoria pred_ej 0 0) as (_ & Hc & _ & _ & Hm & _).
  split; [rewrite Hc; reflexivity|]. split.
  - apply (proj2 (Hm (vecindario_de pred_ej 3 0 0))).
    exists 1. split; [vm_compute; left | lia].
  - apply (proj1 (Hm [-1; -1; -1; -1; -1; -1; -1; -1; -1])).
    intros x Hx. repeat (apply elem_of_cons in Hx as [-> | Hx]; [lia|]).
    by apply elem_of_nil in Hx.
Defined.

(** Ties go to the least value, whatever the order in the window. *)
Example moda_empate : moda [3; 2; 3; 2; -1] = 2.
Proof. reflexivity. Qed.

End MajorityFilter.

(** ** Missing inputs *)

Section MissingInputs.

Lemma append_vacio (s : string) : s +:+ "" = s.
Proof.
  induction s as [|a s IH]; [done|].
  change (String a s +:+ "") with (String a (s +:+ "")). by rewrite IH.
Qed.

Lemma msg_no_archivo_contiene (ruta : string) : contiene (msg_no_archivo ruta) ruta.
Proof.
  exists (nl +:+ "[ERROR] No se encuentra el archivo: "), "".
  rewrite append_vacio. reflexivity.
Qed.

(** The claim of C6 fails for the Coronel Suarez script: with every
    monthly raster present and the category raster absent the run prints
    the path, goes on with an all-NaN category band and writes its
    output. *)
Lemma C6_counterexample :
  todo_menos ruta_mnc ruta_mnc = false ∧
  leer_mnc_verano (todo_menos ruta_mnc) ruta_mnc (Area 1 3 1 3 2 2) (np_full 2 2 uno)
    = ([msg_no_archivo ruta_mnc; msg_banda_dummy], Continua (np_full 2 2 F32.nan)) ∧
  correr_coronel_suarez (todo_menos ruta_mnc) dir_ndvi ruta_mnc
      paso_2_ej (np_full 2 2 uno) resto_ej
    = ([Imprime (msg_no_archivo ruta_mnc); Imprime msg_banda_dummy; Escribe ruta_salida],
       Continua tt) ∧
  ¬ corrida_abortada
      (correr_coronel_suarez (todo_menos ruta_mnc) dir_ndvi ruta_mnc
         paso_2_ej (np_full 2 2 uno) resto_ej).
Proof.
  split; [reflexivity|]. split; [reflexivity|]. split; [reflexivity|].
  vm_compute. tauto.
Qed.

(** C6, amended. Base script: when the category raster is absent the run
    prints one diagnostic that contains its path and exits with code 1;
    nothing else is printed, no later step runs and nothing is written.
    Coronel Suarez script: when the category raster is absent the stage
    prints a diagnostic that contains its path and continues with an
    all-NaN band of the size of the common window. *)
Theorem C6_archivo_ausente (existe : string → bool) (ruta NDVI_DIR : string) :
  existe ruta = false →
  (∀ resto,
     correr_inta existe ruta NDVI_DIR resto = ([Imprime (msg_no_archivo ruta)], Exit 1) ∧
     corrida_abortada (correr_inta existe ruta NDVI_DIR resto) ∧
     (∀ p, Escribe p ∉ (correr_inta existe ruta NDVI_DIR resto).1)) ∧
  contiene (msg_no_archivo ruta) ruta ∧
  (∀ rc reproyectado,
     leer_mnc_verano existe ruta rc reproyectado =
       ([msg_no_archivo ruta; msg_banda_dummy],
        Continua (np_full (Z.to_nat (height rc)) (Z.to_nat (width rc)) F32.nan))).
Proof.
  intros Hno. split; [|split].
  - intros resto. unfold correr_inta, paso_1_inta. rewrite Hno. simpl.
    split; [done|]. split; [done|].
    intros p Hp. apply list_elem_of_singleton in Hp. discriminate.
  - apply msg_no_archivo_contiene.
  - intros rc reproyectado. unfold leer_mnc_verano. by rewrite Hno.
Qed.

Lemma C6_witness :
  (∀ resto,
     correr_inta (todo_menos ruta_recorte) ruta_recorte dir_ndvi resto
       = ([Imprime (msg_no_archivo ruta_recorte)], Exit 1) ∧
     corrida_abortada (correr_inta (todo_menos ruta_recorte) ruta_recorte dir_ndvi resto) ∧
     (∀ p, Escribe p ∉ (correr_inta (todo_menos ruta_recorte) ruta_recorte dir_ndvi resto).1)) ∧
  contiene (msg_no_archivo ruta_recorte) ruta_recorte ∧
  (∀ rc reproyectado,
     leer_mnc_verano (todo_menos ruta_recorte) ruta_recorte rc reproyectado =
       ([msg_no_archivo ruta_recorte; msg_banda_dummy],
        Continua (np_full (Z.to_nat (height rc)) (Z.to_nat (width rc)) F32.nan))).
Proof.
  apply (C6_archivo_ausente (todo_menos ruta_recorte) ruta_recorte dir_ndvi).
  reflexivity.
Defined.

(** The monthly rasters: both lists have one entry per raster found, in
    the order of [NDVI_MESES]. *)
Lemma buscar_ndvi_spec (existe : string → bool) (NDVI_DIR : string) (meses : list string) :
  let encontrados := filter (λ mes, existe (archivo_ndvi NDVI_DIR mes) = true) meses in
  (buscar_ndvi existe NDVI_DIR meses).2 =
    (map (archivo_ndvi NDVI_DIR) encontrados, map nombre_ndvi encontrados).
Proof.
  induction meses as [|mes meses IH]; [done|]. simpl in *.
  destruct (buscar_ndvi existe NDVI_DIR meses) as [avisos [files nombres]].
  simpl in IH. injection IH as -> ->. rewrite filter_cons.
  destruct (existe (archivo_ndvi NDVI_DIR mes)) eqn:E; simpl; done.
Qed.

Lemma inventario_ndvi_longitudes (existe : string → bool) (NDVI_DIR : string)
    (out : list string) (ndvi_files ndvi_nombres : list string) :
  inventario_ndvi existe NDVI_DIR = (out, Continua (ndvi_files, ndvi_nombres)) →
  ndvi_files ≠ [] ∧ length ndvi_files = length ndvi_nombres.
Proof.
  unfold inventario_ndvi. pose proof (buscar_ndvi_spec existe NDVI_DIR NDVI_MESES) as H.
  destruct (buscar_ndvi existe NDVI_DIR NDVI_MESES) as [avisos [files nombres]].
  simpl in H. injection H as Hf Hn.
  destruct files as [|f fs]; [discriminate|].
  intros [= <- <- <-]. split; [done|]. rewrite Hf, Hn. by rewrite !length_map.
Qed.

End MissingInputs.

(** ** Stack reducer *)

Section FloatOrder.

Lemma leb_nan_l (x : f32) : F32.leb F32.nan x = false.
Proof. by destruct x. Qed.

Lemma leb_nan_r (x : f32) : F32.leb x F32.nan = false.
Proof. by destruct x. Qed.

Lemma leb_valida (x y : f32) : F32.leb x y = true → valida x ∧ valida y.
Proof. destruct x, y; try done. Qed.

Ltac caso_compare :=
  repeat match goal with
  | |- context [Pos.compare_cont Eq ?a ?b] =>
      change (Pos.compare_cont Eq a b) with (Pos.compare a b);
      destruct (Pos.compare_spec a b)
  | |- context [Z.compare ?a ?b] => destruct (Z.compare_spec a b)
  | H : context [Pos.compare_cont Eq ?a ?b] |- _ =>
      change (Pos.compare_cont Eq a b) with (Pos.compare a b) in H;
      destruct (Pos.compare_spec a b)
  | H : context [Z.compare ?a ?b] |- _ => destruct (Z.compare_spec a b)
  end.

Lemma leb_refl (x : f32) : valida x → F32.leb x x = true.
Proof.
  destruct x as [s|s| |s m e]; try done; intros _; destruct s; try done;
    unfold F32.leb, SFleb, SFcompare; caso_compare; simpl; try done; lia.
Qed.

Lemma leb_total (x y : f32) :
  valida x → valida y → F32.leb x y = true ∨ F32.leb y x = true.
Proof.
  destruct x as [s|s| |s m e], y as [s'|s'| |s' m' e']; try done; intros _ _;
    destruct s, s'; unfold F32.leb, SFleb, SFcompare;
    caso_compare; simpl; auto; lia.
Qed.

Lemma leb_trans (x y z : f32) :
  F32.leb x y = true → F32.leb y z = true → F32.leb x z = true.
Proof.
  destruct x as [s|s| |s m e], y as [s'|s'| |s' m' e'], z as [s''|s''| |s'' m'' e''];
    try done; destruct s, s', s''; try done;
    unfold F32.leb, SFleb, SFcompare; intros H1 H2;
    caso_compare; simpl in *; try done; try lia.
Qed.

End FloatOrder.

Section Reductions.

Lemma fold_fmin_valida (l : list f32) (acc : f32) :
  valida acc → es_minimo_f (fold_left np_fmin l acc) (acc :: filter valida l).
Proof.
  revert acc. induction l as [|x l IH]; intros acc Hacc; simpl.
  - split; [left|]. intros y Hy. apply list_elem_of_singleton in Hy as ->.
    by apply leb_refl.
  - rewrite filter_cons. unfold np_fmin at 2.
    destruct (decide (valida x)) as [Ex | Ex]; cycle 1.
    + assert (Ex' : F32.isnan x = true) by (by destruct x).
      rewrite Ex', orb_true_r. by apply IH.
    + assert (Ex' : F32.isnan x = false) by exact Ex.
      rewrite Ex', orb_false_r.
      destruct (F32.leb acc x) eqn:El.
      * destruct (IH acc Hacc) as [Hin Hlb]. split.
        -- apply elem_of_cons in Hin as [-> | Hin]; [left | right; right; done].
        -- intros y Hy. rewrite !elem_of_cons in Hy. destruct Hy as [-> | [-> | Hy]].
           ++ apply Hlb. left.
           ++ apply (leb_trans _ acc); [apply Hlb; left | done].
           ++ apply Hlb. by right.
      * destruct (leb_total acc x Hacc Ex) as [? | Hxa]; [congruence|].
        destruct (IH x Ex) as [Hin Hlb]. split.
        -- by right.
        -- intros y Hy. rewrite !elem_of_cons in Hy. destruct Hy as [-> | [-> | Hy]].
           ++ apply (leb_trans _ x); [apply Hlb; left | done].
           ++ apply Hlb. left.
           ++ apply Hlb. by right.
Qed.

Lemma fold_fmax_valida (l : list f32) (acc : f32) :
  valida acc → es_maximo_f (fold_left np_fmax l acc) (acc :: filter valida l).
Proof.
  revert acc. induction l as [|x l IH]; intros acc Hacc; simpl.
  - split; [left|]. intros y Hy. apply list_elem_of_singleton in Hy as ->.
    by apply leb_refl.
  - rewrite filter_cons. unfold np_fmax at 2.
    destruct (decide (valida x)) as [Ex | Ex]; cycle 1.
    + assert (Ex' : F32.isnan x = true) by (by destruct x).
      rewrite Ex', orb_true_r. by apply IH.
    + assert (Ex' : F32.isnan x = false) by exact Ex.
      rewrite Ex', orb_false_r.
      destruct (F32.leb x acc) eqn:El.
      * destruct (IH acc Hacc) as [Hin Hub]. split.
        -- apply elem_of_cons in Hin as [-> | Hin]; [left | right; right; done].
        -- intros y Hy. rewrite !elem_of_cons in Hy. destruct Hy as [-> | [-> | Hy]].
           ++ apply Hub. left.
           ++ apply (leb_trans _ acc); [done | apply Hub; left].
           ++ apply Hub. by right.
      * destruct (leb_total acc x Hacc Ex) as [Hax | ?]; [|congruence].
        destruct (IH x Ex) as [Hin Hub]. split.
        -- by right.
        -- intros y Hy. rewrite !elem_of_cons in Hy. destruct Hy as [-> | [-> | Hy]].
           ++ apply (leb_trans _ x); [done | apply Hub; left].
           ++ apply Hub. left.
           ++ apply Hub. by right.
Qed.

(** [np.nanmin] of a series: NaN when no sample is valid, otherwise a
    least one of the valid samples. *)
Lemma nanmin1d_spec (serie : list f32) :
  match filter valida serie with
  | [] => nanmin1d serie = F32.nan
  | v => es_minimo_f (nanmin1d serie) v
  end.
Proof.
  unfold nanmin1d, reduce. induction serie as [|x l IH]; [done|].
  rewrite filter_cons. destruct (decide (valida x)) as [Ex | Ex]; cycle 1.
  - destruct x; try done. clear Ex.
    destruct l as [|y l]; [done|]. simpl.
    assert (E : np_fmin S754_nan y = y).
    { unfold np_fmin. rewrite leb_nan_l. by destruct y. }
    rewrite E. exact IH.
  - by apply fold_fmin_valida.
Qed.

Lemma nanmax1d_spec (serie : list f32) :
  match filter valida serie with
  | [] => nanmax1d serie = F32.nan
  | v => es_maximo_f (nanmax1d serie) v
  end.
Proof.
  unfold nanmax1d, reduce. induction serie as [|x l IH]; [done|].
  rewrite filter_cons. destruct (decide (valida x)) as [Ex | Ex]; cycle 1.
  - destruct x; try done. clear Ex.
    destruct l as [|y l]; [done|]. simpl.
    assert (E : np_fmax S754_nan y = y).
    { unfold np_fmax. rewrite leb_nan_r. by destruct y. }
    rewrite E. exact IH.
  - by apply fold_fmax_valida.
Qed.

End Reductions.

Section Desviacion.

Lemma casi_igual_refl (x : f32) : casi_igual x x.
Proof. by left. Qed.

Lemma casi_igual_trans (x y z : f32) : casi_igual x y → casi_igual y z → casi_igual x z.
Proof.
  intros [-> | [Hx Hy]] [-> | [Hy' Hz]]; try (by left); try (by right).
Qed.

Lemma add_casi (s s' x : f32) :
  casi_igual s s' → casi_igual (F32.add s x) (F32.add s' x).
Proof.
  intros [-> | [Hs Hs']]; [by left|].
  destruct s as [b| | |], s' as [b'| | |]; try done.
  destruct x as [c|c| |c m e]; try (by left).
  right. by destruct b, b', c.
Qed.

Lemma add_cero_r (s : f32) : casi_igual (F32.add s F32.cero) s.
Proof. destruct s as [[]|[]| |[] m e]; try (by left). by right. Qed.

Lemma add_cero_l (x : f32) : casi_igual (F32.add F32.cero x) x.
Proof. destruct x as [[]|[]| |[] m e]; try (by left). by right. Qed.

Lemma div_casi (a a' c : f32) :
  casi_igual a a' → casi_igual (F32.div a c) (F32.div a' c).
Proof.
  intros [-> | [Ha Ha']]; [by left|].
  destruct a as [b| | |], a' as [b'| | |]; try done.
  destruct c as [d|d| |d m e]; try (by left); by right.
Qed.

Lemma sub_casi (x a a' : f32) :
  casi_igual a a' → casi_igual (F32.sub x a) (F32.sub x a').
Proof.
  intros [-> | [Ha Ha']]; [by left|].
  destruct a as [b| | |], a' as [b'| | |]; try done.
  destruct x as [c|c| |c m e]; try (by left).
  right. by destruct b, b', c.
Qed.

Lemma mul_casi (d d' : f32) : casi_igual d d' → F32.mul d d = F32.mul d' d'.
Proof.
  intros [-> | [Hd Hd']]; [done|].
  destruct d as [b| | |], d' as [b'| | |]; try done. by destruct b, b'.
Qed.

Lemma binary_round_aux_no_negativo (mx ex : Z) (lx : location) :
  no_negativo (binary_round_aux F32.prec F32.emax false mx ex lx).
Proof.
  unfold binary_round_aux.
  destruct (shr_fexp F32.prec F32.emax mx ex lx) as [mrs e'].
  destruct (shr_fexp F32.prec F32.emax _ e' loc_Exact) as [mrs' e''].
  destruct (shr_m mrs'); [done | | done].
  by destruct (Z.leb _ _).
Qed.

Lemma mul_no_negativo (d : f32) : no_negativo (F32.mul d d).
Proof.
  destruct d as [[]|[]| |b m e]; try done.
  unfold F32.mul, SFmul. replace (xorb b b) with false by (by destruct b).
  apply binary_round_aux_no_negativo.
Qed.

Lemma add_no_negativo (a b : f32) :
  no_negativo a → no_negativo b → no_negativo (F32.add a b).
Proof.
  destruct a as [[]|[]| |[] m e], b as [[]|[]| |[] m' e']; try done.
  intros _ _. unfold F32.add, SFadd, cond_Zopp, binary_normalize, binary_round.
  change (Z.pos ?a + Z.pos ?b)%Z with (Z.pos (a + b)). cbv iota.
  match goal with
  | |- no_negativo (let '(_, _) := ?t in _) => destruct t as [mz ez]
  end.
  apply binary_round_aux_no_negativo.
Qed.

Lemma add_cero_r_exacto (s : f32) : no_negativo s → F32.add s F32.cero = s.
Proof. by destruct s as [[]|[]| |[] m e]. Qed.

Lemma add_cero_l_exacto (x : f32) : no_negativo x → F32.add F32.cero x = x.
Proof. by destruct x as [[]|[]| |[] m e]. Qed.

Lemma rellenar_valida (x : f32) : valida x → rellenar_cero x = x.
Proof. intros H. unfold rellenar_cero. by rewrite H. Qed.

Lemma rellenar_no_valida (x : f32) : ¬ valida x → rellenar_cero x = F32.cero.
Proof. intros H. by destruct x. Qed.

(** The sum of the zero-filled series is the sum of the valid samples,
    up to the sign of a zero. *)
Lemma fold_add_rellenar (l : list f32) (acc acc' : f32) :
  casi_igual acc acc' →
  casi_igual (fold_left F32.add (map rellenar_cero l) acc)
             (fold_left F32.add (filter valida l) acc').
Proof.
  revert acc acc'. induction l as [|x l IH]; intros acc acc' H; [done|].
  simpl. rewrite filter_cons.
  destruct (decide (valida x)) as [Ex | Ex].
  - rewrite rellenar_valida by done. simpl. apply IH. by apply add_casi.
  - rewrite rellenar_no_valida by done.
    apply IH. eapply casi_igual_trans; [apply add_cero_r | done].
Qed.

Lemma np_sum_rellenar (serie : list f32) :
  casi_igual (np_sum (map rellenar_cero serie)) (np_sum (filter valida serie)).
Proof.
  unfold np_sum, reduce.
  assert (Hcero : ∀ l, casi_igual (fold_left F32.add (map rellenar_cero l) F32.cero)
            match filter valida l with
            | [] => F32.cero
            | x :: resto => fold_left F32.add resto x
            end).
  { induction l as [|y l IH]; [by left|]. simpl. rewrite filter_cons.
    destruct (decide (valida y)) as [Ey | Ey].
    - rewrite rellenar_valida by done. apply fold_add_rellenar, add_cero_l.
    - rewrite rellenar_no_valida by done. exact IH. }
  destruct serie as [|x l]; [by left|]. simpl. rewrite filter_cons.
  destruct (decide (valida x)) as [Ex | Ex].
  - rewrite rellenar_valida by done. apply fold_add_rellenar, casi_igual_refl.
  - rewrite rellenar_no_valida by done. apply Hcero.
Qed.

(** For samples without negative sign the zero-filled sum is exact. *)
Lemma fold_add_exacto (g : f32 → f32) (l : list f32) (acc : f32) :
  (∀ x, no_negativo (g x)) → no_negativo acc →
  fold_left F32.add (map (λ x, if F32.isnan x then F32.cero else g x) l) acc =
  fold_left F32.add (map g (filter valida l)) acc.
Proof.
  intros Hg. revert acc. induction l as [|x l IH]; intros acc Hacc; [done|].
  cbn [map fold_left]. rewrite filter_cons.
  destruct (decide (valida x)) as [Ex | Ex].
  - assert (Ex' : F32.isnan x = false) by exact Ex. rewrite Ex'.
    cbn [map fold_left]. apply IH. by apply add_no_negativo.
  - assert (Ex' : F32.isnan x = true) by (by destruct x). rewrite Ex'.
    rewrite add_cero_r_exacto by done. by apply IH.
Qed.

Lemma np_sum_exacto (g : f32 → f32) (serie : list f32) :
  (∀ x, no_negativo (g x)) →
  np_sum (map (λ x, if F32.isnan x then F32.cero else g x) serie) =
  np_sum (map g (filter valida serie)).
Proof.
  intros Hg. unfold np_sum, reduce.
  assert (Hcero : ∀ l,
            fold_left F32.add (map (λ x, if F32.isnan x then F32.cero else g x) l) F32.cero =
            match map g (filter valida l) with
            | [] => F32.cero
            | x :: resto => fold_left F32.add resto x
            end).
  { induction l as [|y l IH]; [done|]. cbn [map fold_left]. rewrite filter_cons.
    destruct (decide (valida y)) as [Ey | Ey].
    - assert (Ey' : F32.isnan y = false) by exact Ey. rewrite Ey'.
      cbn [map fold_left].
      rewrite add_cero_l_exacto by done. by apply fold_add_exacto.
    - assert (Ey' : F32.isnan y = true) by (by destruct y). rewrite Ey'.
      rewrite add_cero_r_exacto by done. exact IH. }
  destruct serie as [|x l]; [done|]. cbn [map fold_left]. rewrite filter_cons.
  destruct (decide (valida x)) as [Ex | Ex].
  - assert (Ex' : F32.isnan x = false) by exact Ex. rewrite Ex'.
    cbn [map fold_left]. by apply fold_add_exacto.
  - assert (Ex' : F32.isnan x = true) by (by destruct x). rewrite Ex'. apply Hcero.
Qed.

(** [np.sum] adds the samples one after the other from the first. *)
Lemma np_sum_suma (v : list f32) : np_sum v = suma_f32 v.
Proof.
  assert (H : ∀ l acc, fold_left F32.add l acc = sumar_desde acc l).
  { induction l as [|x l IH]; intros acc; [done|]. simpl. apply IH. }
  destruct v as [|x v]; [done|]. apply H.
Qed.

(** [np.nanstd] of a series: NaN when no sample is valid, otherwise the
    population standard deviation of the valid samples. *)
Lemma nanstd1d_spec (serie : list f32) :
  match filter valida serie with
  | [] => nanstd1d serie = F32.nan
  | v => nanstd1d serie = desviacion_poblacional v
  end.
Proof.
  destruct (filter valida serie) as [|x0 v0] eqn:Ev.
  - unfold nanstd1d. by rewrite Ev.
  - rewrite <- Ev. unfold nanstd1d, desviacion_poblacional, media_f32.
    rewrite <- !np_sum_suma, length_map.
    assert (Hdof : (Z.of_nat (length (filter valida serie)) - 0 <=? 0)%Z = false).
    { rewrite Ev. simpl length. apply Z.leb_gt. lia. }
    rewrite Hdof. rewrite Z.sub_0_r. f_equal. f_equal.
    set (n := F32.of_Z (Z.of_nat (length (filter valida serie)))).
    set (avg := F32.div (np_sum (map rellenar_cero serie)) n).
    set (avg' := F32.div (np_sum (filter valida serie)) n).
    assert (Havg : casi_igual avg avg') by apply div_casi, np_sum_rellenar.
    rewrite map_map.
    rewrite (map_ext (λ x, F32.mul (if F32.isnan x then F32.cero else F32.sub x avg)
                                   (if F32.isnan x then F32.cero else F32.sub x avg))
                     (λ x, if F32.isnan x then F32.cero
                           else F32.mul (F32.sub x avg) (F32.sub x avg)))
      by (intros x; by destruct (F32.isnan x)).
    rewrite (np_sum_exacto (λ x, F32.mul (F32.sub x avg) (F32.sub x avg)))
      by (intros x; apply mul_no_negativo).
    f_equal. apply map_ext. intros x. by apply mul_casi, sub_casi.
Qed.

End Desviacion.

(** ** The sorted series and the median *)

Section Ordenacion.

Lemma insertar_ordenado_perm (x : f32) (l : list f32) : insertar_ordenado x l ≡ₚ x :: l.
Proof.
  induction l as [|y l IH]; [done|]. simpl. destruct (F32.leb x y); [done|].
  rewrite IH. apply Permutation_swap.
Qed.

Lemma ordenar_perm (l : list f32) : ordenar l ≡ₚ l.
Proof.
  induction l as [|x l IH]; [done|]. simpl.
  rewrite insertar_ordenado_perm. by rewrite IH.
Qed.

Lemma insertar_ordenado_sorted (x : f32) (l : list f32) :
  valida x → Forall valida l →
  StronglySorted menor_igual l → StronglySorted menor_igual (insertar_ordenado x l).
Proof.
  intros Hx Hl Hs. induction Hs as [|y l Hs IH Hy]; simpl.
  - by repeat constructor.
  - apply Forall_cons in Hl as [Hvy Hl].
    destruct (F32.leb x y) eqn:E.
    + constructor; [by constructor|]. constructor; [done|].
      eapply Forall_impl; [exact Hy|]. intros z Hz. by eapply leb_trans.
    + constructor; [by apply IH|].
      rewrite insertar_ordenado_perm. constructor; [|done].
      destruct (leb_total x y Hx Hvy); [congruence | done].
Qed.

Lemma ordenar_sorted (l : list f32) :
  Forall valida l → StronglySorted menor_igual (ordenar l).
Proof.
  induction l as [|x l IH]; intros Hl; simpl; [constructor|].
  apply Forall_cons in Hl as [Hx Hl].
  apply insertar_ordenado_sorted; [done | | by apply IH].
  by rewrite ordenar_perm.
Qed.

Lemma sorted_partes (s : list f32) (k : nat) (x : f32) :
  StronglySorted menor_igual s → s !! k = Some x →
  Forall (λ y, menor_igual y x) (take k s) ∧ Forall (λ y, menor_igual x y) (drop (S k) s).
Proof.
  intros Hs Hk. rewrite <- (take_drop_middle s k x Hk) in Hs.
  apply StronglySorted_app in Hs as (Hcross & _ & Hs2).
  apply StronglySorted_cons in Hs2 as [Hd _]. split; [|done].
  apply Forall_forall. intros y Hy. apply Hcross; [done | left].
Qed.

(** The masked median of a non-empty series of numbers is a median of
    it. *)
Lemma ma_median_es_mediana (v : list f32) :
  v ≠ [] → Forall valida v → es_mediana (ma_median v) v.
Proof.
  intros Hne Hval. unfold ma_median.
  pose proof (ordenar_sorted v Hval) as Hs. pose proof (ordenar_perm v) as Hp.
  assert (Hlen : length (ordenar v) = length v) by (by rewrite Hp).
  assert (Hpos : 0 < length (ordenar v)) by (rewrite Hlen; destruct v; [done | simpl; lia]).
  assert (Hvs : Forall valida (ordenar v)) by (by rewrite Hp).
  set (s := ordenar v) in *. set (n := length s) in *.
  pose proof (Nat.div_mod_eq n 2) as Hdm.
  pose proof (Nat.mod_upper_bound n 2 ltac:(lia)) as Hmod.
  destruct (Nat.odd n) eqn:Eo.
  - (* an odd number of samples: low and high are the middle one *)
    assert (Hodd : n mod 2 = 1).
    { apply Nat.odd_spec in Eo as [k Hk]. rewrite Hk.
      rewrite Nat.add_comm, Nat.mul_comm, Nat.Div0.mod_add. done. }
    destruct (lookup_lt_is_Some_2 s (n / 2)) as [x Hx]; [lia|].
    rewrite (nth_lookup_Some _ _ _ _ Hx).
    destruct (sorted_partes s (n / 2) x Hs Hx) as [Hlo Hhi].
    exists (take (n / 2) s), [x], (drop (S (n / 2)) s), x, x.
    split; [cbn [app]; by rewrite (take_drop_middle s (n / 2) x Hx)|].
    split; [rewrite length_take, length_drop; lia|].
    split; [by left|]. split; [exact Hlo|]. split; [|split; [exact Hhi | done]].
    apply leb_refl. rewrite Forall_forall in Hvs. apply Hvs.
    by eapply list_elem_of_lookup_2.
  - (* an even number: the two samples around the middle *)
    assert (Hev : n mod 2 = 0).
    { destruct (n mod 2) as [|[|?]] eqn:Em; [done| |lia].
      assert (Nat.odd n = true); [|congruence].
      apply Nat.odd_spec. exists (n / 2). lia. }
    set (h := n / 2) in *.
    destruct (lookup_lt_is_Some_2 s (h - 1)) as [a Ha]; [lia|].
    destruct (lookup_lt_is_Some_2 s h) as [b Hb]; [lia|].
    rewrite (nth_lookup_Some _ _ _ _ Ha), (nth_lookup_Some _ _ _ _ Hb).
    destruct (sorted_partes s (h - 1) a Hs Ha) as [Hlo Hab].
    destruct (sorted_partes s h b Hs Hb) as [_ Hhi].
    exists (take (h - 1) s), [a; b], (drop (S h) s), a, b.
    assert (Es : s = take (h - 1) s ++ [a; b] ++ drop (S h) s).
    { rewrite <- (take_drop_middle s (h - 1) a Ha) at 1.
      replace (S (h - 1)) with h by lia. by rewrite (drop_S s b h Hb). }
    split; [by rewrite <- Es|]. split; [rewrite length_take, length_drop; lia|].
    split; [by right|]. split; [exact Hlo|]. split; [|split; [exact Hhi | done]].
    rewrite Forall_forall in Hab. apply Hab.
    replace (S (h - 1)) with h by lia.
    apply list_elem_of_lookup. exists 0. rewrite lookup_drop, Nat.add_0_r. done.
Qed.

(** [np.nanmedian] of a series: NaN when no sample is valid, otherwise
    a median of the valid samples. *)
Lemma nanmedian1d_spec (serie : list f32) :
  match filter valida serie with
  | [] => nanmedian1d serie = F32.nan
  | v => es_mediana (nanmedian1d serie) v
  end.
Proof.
  unfold nanmedian1d. destruct (filter valida serie) as [|x v] eqn:E; [done|].
  apply ma_median_es_mediana; [done|]. rewrite <- E.
  apply Forall_forall. intros y Hy. by apply list_elem_of_filter in Hy as [? _].
Qed.

End Ordenacion.

Section StackReducer.

Lemma np_stack_Some (bandas : list (ndarray f32)) (h w : nat) :
  bandas ≠ [] → Forall (λ b, shape b = (h, w)) bandas → np_stack bandas = Some bandas.
Proof.
  destruct bandas as [|b resto]; [done|]. intros _ Hall. simpl.
  apply Forall_cons in Hall as [Hb Hresto]. rewrite decide_True; [done|].
  eapply Forall_impl; [exact Hresto|]. intros b' Hb'. simpl in Hb'. congruence.
Qed.

Lemma reducir_eje0_shape (f : list f32 → f32) (bandas : list (ndarray f32)) (h w : nat) :
  bandas ≠ [] → Forall (λ b, shape b = (h, w)) bandas →
  shape (reducir_eje0 f bandas) = (h, w) ∧
  ∀ r c, celda (reducir_eje0 f bandas) r c = f ((λ b, celda b r c) <$> bandas).
Proof.
  destruct bandas as [|b resto]; [done|]. intros _ Hall.
  apply Forall_cons in Hall as [Hb _]. done.
Qed.

(** C3. For a non-empty list of bands of one shape the four statistics
    are produced, each with the shape of the bands. At every pixel the
    time series is the list of the samples that the bands have there, in
    the order of the bands. When none of them is valid the median,
    minimum, maximum and standard deviation are all NaN; otherwise the
    median is a median of the valid samples, the minimum a least and the
    maximum a greatest of them, and the standard deviation their
    population standard deviation. *)
Theorem C3_calcular_estadisticos (bandas : list (ndarray f32)) (h w : nat) :
  bandas ≠ [] → Forall (λ b, shape b = (h, w)) bandas →
  ∃ mediana minimo maximo desviacion,
    calcular_estadisticos bandas = Some (mediana, minimo, maximo, desviacion) ∧
    shape mediana = (h, w) ∧ shape minimo = (h, w) ∧
    shape maximo = (h, w) ∧ shape desviacion = (h, w) ∧
    ∀ r c,
      match filter valida ((λ b, celda b r c) <$> bandas) with
      | [] => celda mediana r c = F32.nan ∧ celda minimo r c = F32.nan ∧
              celda maximo r c = F32.nan ∧ celda desviacion r c = F32.nan
      | v => es_mediana (celda mediana r c) v ∧
             es_minimo_f (celda minimo r c) v ∧
             es_maximo_f (celda maximo r c) v ∧
             celda desviacion r c = desviacion_poblacional v
      end.
Proof.
  intros Hne Hall. unfold calcular_estadisticos.
  rewrite (np_stack_Some bandas h w Hne Hall). simpl.
  destruct (reducir_eje0_shape nanmedian1d bandas h w Hne Hall) as [S1 C1].
  destruct (reducir_eje0_shape nanmin1d bandas h w Hne Hall) as [S2 C2].
  destruct (reducir_eje0_shape nanmax1d bandas h w Hne Hall) as [S3 C3].
  destruct (reducir_eje0_shape nanstd1d bandas h w Hne Hall) as [S4 C4].
  eexists _, _, _, _. split; [reflexivity|].
  split; [exact S1|]. split; [exact S2|]. split; [exact S3|]. split; [exact S4|].
  intros r c. rewrite C1, C2, C3, C4.
  pose proof (nanmedian1d_spec ((λ b, celda b r c) <$> bandas)) as H1.
  pose proof (nanmin1d_spec ((λ b, celda b r c) <$> bandas)) as H2.
  pose proof (nanmax1d_spec ((λ b, celda b r c) <$> bandas)) as H3.
  pose proof (nanstd1d_spec ((λ b, celda b r c) <$> bandas)) as H4.
  by destruct (filter valida ((λ b, celda b r c) <$> bandas)).
Qed.

Lemma C3_witness :
  ∃ mediana minimo maximo desviacion,
    calcular_estadisticos bandas_ej = Some (mediana, minimo, maximo, desviacion) ∧
    shape mediana = (1, 4) ∧ shape minimo = (1, 4) ∧
    shape maximo = (1, 4) ∧ shape desviacion = (1, 4) ∧
    ∀ r c,
      match filter valida ((λ b, celda b r c) <$> bandas_ej) with
      | [] => celda mediana r c = F32.nan ∧ celda minimo r c = F32.nan ∧
              celda maximo r c = F32.nan ∧ celda desviacion r c = F32.nan
      | v => es_mediana (celda mediana r c) v ∧
             es_minimo_f (celda minimo r c) v ∧
             es_maximo_f (celda maximo r c) v ∧
             celda desviacion r c = desviacion_poblacional v
      end.
Proof.
  apply (C3_calcular_estadisticos bandas_ej 1 4).
  - discriminate.
  - repeat constructor.
Defined.

(** The series of the specification, 0.2, NaN, 0.5, 0.8: median 0.5,
    minimum 0.2, maximum 0.8, and the standard deviation of the three
    valid samples. *)
Example estadisticos_serie_ej :
  nanmedian1d serie_ej = F32.decimal 5 1 ∧
  nanmin1d serie_ej = F32.decimal 2 1 ∧
  nanmax1d serie_ej = F32.decimal 8 1 ∧
  nanstd1d serie_ej =
    desviacion_poblacional [F32.decimal 2 1; F32.decimal 5 1; F32.decimal 8 1].
Proof. vm_compute. done. Qed.

(** The statistics of the sample bands, pixel by pixel. *)
Example calcular_estadisticos_ej :
  (calcular_estadisticos bandas_ej ≫= λ e, Some (to_rows e.1.1.2, to_rows e.1.2)) =
    Some ([ [F32.decimal 4 1; F32.decimal 7 1; F32.nan; F32.decimal 1 1] ],
          [ [F32.decimal 6 1; F32.decimal 7 1; F32.nan; F32.decimal 9 1] ]).
Proof. vm_compute. done. Qed.

End StackReducer.

(** ** Multi-band writer *)

Section Writer.

(** The loop writes pair [k] at band [i + k] and leaves the other bands
    as they were. *)
Lemma escribir_desde_spec (pares : list (ndarray f32 * string)) (i : nat) (ds : dataset) :
  1 ≤ i → i + length pares ≤ S (ds_count ds) →
  ∃ ds', escribir_desde i pares ds = Some ds' ∧
    ds_count ds' = ds_count ds ∧
    (∀ k b n, pares !! k = Some (b, n) →
       ds_bandas ds' !! (i + k) = Some b ∧ ds_descripciones ds' !! (i + k) = Some n) ∧
    (∀ j, ¬ (i ≤ j < i + length pares) →
       ds_bandas ds' !! j = ds_bandas ds !! j ∧
       ds_descripciones ds' !! j = ds_descripciones ds !! j).
Proof.
  revert i ds. induction pares as [|[b0 n0] pares IH]; intros i ds Hi Hlen.
  - exists ds. split; [done|]. split; [done|]. split; [|done].
    intros k b n H. by rewrite lookup_nil in H.
  - simpl in Hlen. simpl. unfold dst_write. rewrite decide_True by lia. simpl.
    unfold dst_set_band_description. simpl. rewrite decide_True by lia. simpl.
    edestruct (IH (S i)) as (ds' & E & Hc & Hw & Hf); [lia | | rewrite E].
    { simpl. lia. }
    exists ds'. split; [done|]. simpl in *. split; [done|]. split.
    + intros [|k] b n H.
      * injection H as -> ->. rewrite Nat.add_0_r.
        destruct (Hf i ltac:(lia)) as [-> ->]. by rewrite !lookup_insert_eq.
      * simpl in H. replace (i + S k) with (S i + k) by lia. by apply Hw.
    + intros j Hj. destruct (Hf j ltac:(lia)) as [-> ->].
      by rewrite !lookup_insert_ne by lia.
Qed.

Lemma lineas_nombres_lookup (nombres : list string) (k : nat) (nombre : string) :
  nombres !! k = Some nombre →
  lineas_nombres nombres !! k = Some (linea_banda (S k) nombre).
Proof. intros H. unfold lineas_nombres. by rewrite list_lookup_imap, H. Qed.

(** The writer on N monthly bands with their N names: the bands and the
    names are written pairwise in the order of the two lists. *)
Lemma escribir_raster_spec
    (banda_verano mediana minimo maximo desviacion : ndarray f32)
    (bandas : list (ndarray f32)) (ndvi_nombres : list string) :
  length bandas = length ndvi_nombres →
  let finales := bandas_finales banda_verano mediana minimo maximo desviacion bandas in
  let nombres := nombres_finales ndvi_nombres in
  ∃ ds, escribir_raster finales nombres = Some ds ∧
    ds_count ds = 5 + length bandas ∧
    (∀ k b n, finales !! k = Some b → nombres !! k = Some n →
       ds_bandas ds !! (1 + k) = Some b ∧ ds_descripciones ds !! (1 + k) = Some n) ∧
    (∀ j, ¬ (1 ≤ j ≤ 5 + length bandas) →
       ds_bandas ds !! j = None ∧ ds_descripciones ds !! j = None).
Proof.
  intros Hlen finales nombres.
  assert (Hzip : length (zip finales nombres) = 5 + length bandas).
  { unfold finales, nombres, bandas_finales, nombres_finales.
    rewrite length_zip_with, !length_app. simpl. lia. }
  assert (Hfin : length finales = 5 + length bandas).
  { unfold finales, bandas_finales. rewrite length_app. simpl. lia. }
  destruct (escribir_desde_spec (zip finales nombres) 1 (abrir_salida (length finales)))
    as (ds & E & Hc & Hw & Hf);
    [lia | rewrite Hzip; change (ds_count (abrir_salida (length finales))) with (length finales); lia |].
  exists ds. split; [exact E|]. simpl in Hc. split; [lia|]. split.
  - intros k b n Hb Hn. apply Hw. rewrite lookup_zip_with, Hb. simpl. by rewrite Hn.
  - intros j Hj. destruct (Hf j) as [-> ->]; [rewrite Hzip; lia | done].
Qed.

(** The position of an element in a filtered list: as many places from
    the start as elements before it pass the filter. *)
Lemma filter_lookup_take {A} (P : A → Prop) `{!∀ x, Decision (P x)}
    (l : list A) (i : nat) (x : A) :
  l !! i = Some x → P x →
  filter P l !! length (filter P (take i l)) = Some x.
Proof.
  intros Hi Hx.
  replace (filter P l) with (filter P (take i l ++ x :: drop (S i) l))
    by (by rewrite take_drop_middle).
  rewrite filter_app, filter_cons_True by done.
  rewrite lookup_app_r by lia. by rewrite Nat.sub_diag.
Qed.

(** The bands read are the bands of the rasters found, in the order of
    [NDVI_MESES]. *)
Lemma leer_bandas_ndvi_meses (existe : string → bool) (NDVI_DIR : string)
    (leer_banda : string → ndarray f32) (out ndvi_files ndvi_nombres : list string) :
  inventario_ndvi existe NDVI_DIR = (out, Continua (ndvi_files, ndvi_nombres)) →
  let encontrados := filter (λ mes, existe (archivo_ndvi NDVI_DIR mes) = true) NDVI_MESES in
  encontrados ≠ [] ∧
  ndvi_nombres = (λ mes, "NDVI_" +:+ mes) <$> encontrados ∧
  leer_bandas_ndvi leer_banda ndvi_files ndvi_nombres =
    (λ mes, leer_banda (archivo_ndvi NDVI_DIR mes)) <$> encontrados.
Proof.
  unfold inventario_ndvi. pose proof (buscar_ndvi_spec existe NDVI_DIR NDVI_MESES) as H.
  destruct (buscar_ndvi existe NDVI_DIR NDVI_MESES) as [avisos [files nombres]].
  cbv zeta in H. simpl in H. injection H as Hf Hn.
  destruct files as [|f fs] eqn:Ef; [discriminate|].
  intros [= <- <- <-].
  set (encontrados := filter _ NDVI_MESES) in *.
  split; [by destruct encontrados|]. split; [exact Hn|].
  unfold leer_bandas_ndvi. rewrite Hf, Hn.
  clear. induction encontrados as [|mes l IH]; [done|].
  simpl. f_equal. exact IH.
Qed.

(** The claim of C9 fails in the form of the sidecar lines: the first
    line is "Banda 1: inta_verano", not "Band 1: inta_verano". *)
Lemma C9_counterexample :
  lineas_nombres (nombres_finales nombres_ej) !! 0
    = Some ("Banda 1: inta_verano" +:+ nl) ∧
  lineas_nombres (nombres_finales nombres_ej) !! 0
    ≠ Some (linea_band 1 "inta_verano").
Proof. split; [reflexivity | discriminate]. Qed.

(** C9, amended. When the inventory finds N monthly rasters and the
    bands read from them have one shape, the output raster has 1 + 4 + N
    bands: band 1 the category band, bands 2 to 5 the median, minimum,
    maximum and standard deviation of the monthly bands, then the
    monthly bands in the order of the months of [NDVI_MESES]: the band of
    a month found stands at 6 plus the number of months found before it,
    and is described as "NDVI_<month>". The sidecar has one line per band,
    line n being "Banda <n>: <label>" followed by a newline, with the
    label of band n. *)
Theorem C9_escribir_raster (existe : string → bool) (NDVI_DIR : string)
    (leer_banda : string → ndarray f32) (banda_verano : ndarray f32) (h w : nat)
    (out ndvi_files ndvi_nombres : list string) :
  inventario_ndvi existe NDVI_DIR = (out, Continua (ndvi_files, ndvi_nombres)) →
  (∀ mes, mes ∈ NDVI_MESES → existe (archivo_ndvi NDVI_DIR mes) = true →
     shape (leer_banda (archivo_ndvi NDVI_DIR mes)) = (h, w)) →
  let presente := λ mes, existe (archivo_ndvi NDVI_DIR mes) = true in
  let N := length (filter presente NDVI_MESES) in
  let bandas := leer_bandas_ndvi leer_banda ndvi_files ndvi_nombres in
  ∃ ds lineas mediana minimo maximo desviacion,
    calcular_estadisticos bandas = Some (mediana, minimo, maximo, desviacion) ∧
    pasos_4_y_5 banda_verano bandas ndvi_nombres = Some (ds, lineas) ∧
    ds_count ds = 1 + 4 + N ∧
    (ds_bandas ds !! 1 = Some banda_verano ∧ ds_descripciones ds !! 1 = Some "inta_verano") ∧
    (ds_bandas ds !! 2 = Some mediana ∧ ds_descripciones ds !! 2 = Some "mediana") ∧
    (ds_bandas ds !! 3 = Some minimo ∧ ds_descripciones ds !! 3 = Some "min") ∧
    (ds_bandas ds !! 4 = Some maximo ∧ ds_descripciones ds !! 4 = Some "max") ∧
    (ds_bandas ds !! 5 = Some desviacion ∧ ds_descripciones ds !! 5 = Some "sd") ∧
    (∀ i mes, NDVI_MESES !! i = Some mes → presente mes →
       let n := 6 + length (filter presente (take i NDVI_MESES)) in
       ds_bandas ds !! n = Some (leer_banda (archivo_ndvi NDVI_DIR mes)) ∧
       ds_descripciones ds !! n = Some ("NDVI_" +:+ mes)) ∧
    (∀ j, ¬ (1 ≤ j ≤ 5 + N) →
       ds_bandas ds !! j = None ∧ ds_descripciones ds !! j = None) ∧
    length lineas = 1 + 4 + N ∧
    (∀ n, 1 ≤ n ≤ 5 + N →
       ∃ label, ds_descripciones ds !! n = Some label ∧
                lineas !! (n - 1) = Some ("Banda " +:+ pretty n +:+ ": " +:+ label +:+ nl)).
Proof.
  intros Hinv Hshape presente N bandas.
  destruct (leer_bandas_ndvi_meses existe NDVI_DIR leer_banda out ndvi_files ndvi_nombres Hinv)
    as (Hne & Hnom & Hban).
  fold presente in Hne, Hnom, Hban. fold bandas in Hban.
  set (encontrados := filter presente NDVI_MESES) in *.
  assert (HN : length bandas = N) by (by rewrite Hban, length_fmap).
  assert (Hlen : length bandas = length ndvi_nombres).
  { by rewrite Hban, Hnom, !length_fmap. }
  (* the statistics exist: the bands have one shape *)
  assert (Hsh : Forall (λ b, shape b = (h, w)) bandas).
  { rewrite Hban. apply Forall_fmap, Forall_forall. intros mes Hmes. simpl.
    apply list_elem_of_filter in Hmes as [Hex Hmes]. by apply Hshape. }
  assert (Hbne : bandas ≠ []) by (rewrite Hban; by destruct encontrados).
  assert (Hst : ∃ e, calcular_estadisticos bandas = Some e).
  { unfold calcular_estadisticos. rewrite (np_stack_Some bandas h w Hbne Hsh). by eexists. }
  destruct Hst as ([[[mediana minimo] maximo] desviacion] & Hst).
  destruct (escribir_raster_spec banda_verano mediana minimo maximo desviacion
              bandas ndvi_nombres Hlen) as (ds & E & Hc & Hpar & Hf).
  exists ds, (lineas_nombres (nombres_finales ndvi_nombres)),
         mediana, minimo, maximo, desviacion.
  split; [exact Hst|].
  split; [unfold pasos_4_y_5; rewrite Hst; simpl; by rewrite E|].
  split; [lia|].
  split; [by apply (Hpar 0)|]. split; [by apply (Hpar 1)|].
  split; [by apply (Hpar 2)|]. split; [by apply (Hpar 3)|].
  split; [by apply (Hpar 4)|].
  split.
  { intros i mes Hi Hmes n.
    pose proof (filter_lookup_take presente NDVI_MESES i mes Hi Hmes) as Hk.
    fold encontrados in Hk.
    apply (Hpar (5 + length (filter presente (take i NDVI_MESES)))).
    - unfold bandas_finales. rewrite lookup_app_r by (simpl; lia).
      replace (5 + _ - length _) with (length (filter presente (take i NDVI_MESES)))
        by (simpl; lia).
      by rewrite Hban, list_lookup_fmap, Hk.
    - unfold nombres_finales. rewrite lookup_app_r by (simpl; lia).
      replace (5 + _ - length _) with (length (filter presente (take i NDVI_MESES)))
        by (simpl; lia).
      by rewrite Hnom, list_lookup_fmap, Hk. }
  split; [intros j Hj; apply Hf; lia|].
  assert (Hln : length (nombres_finales ndvi_nombres) = 5 + N).
  { unfold nombres_finales. rewrite length_app. simpl. lia. }
  split; [unfold lineas_nombres; rewrite length_imap; lia|].
  intros n Hn.
  destruct (lookup_lt_is_Some_2 (nombres_finales ndvi_nombres) (n - 1)) as [label Hlabel];
    [lia|].
  destruct (lookup_lt_is_Some_2
              (bandas_finales banda_verano mediana minimo maximo desviacion bandas) (n - 1))
    as [b Hb]; [unfold bandas_finales; rewrite length_app; simpl; lia|].
  exists label. destruct (Hpar _ _ _ Hb Hlabel) as [_ Hd].
  replace (1 + (n - 1)) with n in Hd by lia. split; [exact Hd|].
  rewrite (lineas_nombres_lookup _ _ _ Hlabel). unfold linea_banda.
  by replace (S (n - 1)) with n by lia.
Qed.

Lemma C9_witness :
  ∃ ds lineas,
    pasos_4_y_5 banda_llena
      (leer_bandas_ndvi leer_banda_ej
         (map (archivo_ndvi dir_ndvi) ["2024-04"; "2024-05"; "2024-06"])
         (map nombre_ndvi ["2024-04"; "2024-05"; "2024-06"]))
      (map nombre_ndvi ["2024-04"; "2024-05"; "2024-06"]) = Some (ds, lineas) ∧
    ds_count ds = 8 ∧
    ds_descripciones ds !! 6 = Some "NDVI_2024-04" ∧
    ds_bandas ds !! 8 = Some banda_junio_ej ∧
    ds_descripciones ds !! 8 = Some "NDVI_2024-06" ∧
    length lineas = 8.
Proof.
  destruct (C9_escribir_raster existe_ej dir_ndvi leer_banda_ej banda_llena 1 4
              (map (λ mes, msg_warn_archivo (archivo_ndvi dir_ndvi mes))
                   ["2023-12"; "2024-01"; "2024-02"; "2024-03"])
              (map (archivo_ndvi dir_ndvi) ["2024-04"; "2024-05"; "2024-06"])
              (map nombre_ndvi ["2024-04"; "2024-05"; "2024-06"]))
    as (ds & lineas & med & mn & mx & sd & _ & E & Hc & _ & _ & _ & _ & _ & Hm & _ & Hl & _).
  - vm_compute. reflexivity.
  - intros mes Hmes _.
    repeat (apply elem_of_cons in Hmes as [-> | Hmes]; [reflexivity|]).
    by apply elem_of_nil in Hmes.
  - exists ds, lineas. split; [exact E|]. split; [exact Hc|].
    split; [apply (Hm 4 "2024-04"); reflexivity|].
    split; [apply (Hm 6 "2024-06"); reflexivity|].
    split; [apply (Hm 6 "2024-06"); reflexivity | exact Hl].
Defined.

(** The run on the sample disk: eight bands, the monthly ones from band
    6 on, and the lines of the sidecar. *)
Example pasos_4_y_5_ej :
  (pasos_4_y_5 banda_llena bandas_ej nombres_ej ≫= λ r, Some r.2) =
    Some ["Banda 1: inta_verano" +:+ nl; "Banda 2: mediana" +:+ nl;
          "Banda 3: min" +:+ nl; "Banda 4: max" +:+ nl; "Banda 5: sd" +:+ nl;
          "Banda 6: NDVI_2024-04" +:+ nl; "Banda 7: NDVI_2024-05" +:+ nl;
          "Banda 8: NDVI_2024-06" +:+ nl].
Proof. vm_compute. reflexivity. Qed.

End Writer.

(** ** More on the detector *)

Section DetectorExtra.

Lemma detectar_area_Some_valido (data : ndarray f32) (a : area) :
  detectar_area data = Some a → ∃ r c, valido data r c.
Proof.
  unfold detectar_area. destruct (np_any (filas_validas data)) eqn:E; [|done].
  intros _. apply np_any_true in E as [r Hr].
  apply filas_validas_true in Hr as [c Hv]. by exists r, c.
Qed.

(** The window of the detector contains every non-missing sample. *)
Lemma detectar_area_dentro (data : ndarray f32) (a : area) :
  detectar_area data = Some a → ∀ r c, valido data r c → dentro a r c.
Proof.
  intros E r c Hv.
  destruct (detectar_area_valido data) as (fi & lf & ci & lc & H1 & H2 & H3 & H4 & E');
    [by exists r, c|].
  rewrite E in E'. injection E' as ->. unfold dentro. simpl.
  destruct H1 as [_ Hf1]. destruct H2 as [_ Hf2].
  destruct H3 as [_ Hc1]. destruct H4 as [_ Hc2].
  assert (fi ≤ r).
  { destruct (decide (fi ≤ r)); [done|]. destruct (Hf1 r); [lia | by exists c]. }
  assert (r ≤ lf).
  { destruct (decide (r ≤ lf)); [done|]. destruct (Hf2 r); [lia | by exists c]. }
  assert (ci ≤ c).
  { destruct (decide (ci ≤ c)); [done|]. destruct (Hc1 c); [lia | by exists r]. }
  assert (c ≤ lc).
  { destruct (decide (c ≤ lc)); [done|]. destruct (Hc2 c); [lia | by exists r]. }
  lia.
Qed.

(** The window of the detector lies inside the raster, has at least one
    row and one column, and contains every non-missing sample. *)
Theorem detectar_area_envuelve (data : ndarray f32) (a : area) :
  detectar_area data = Some a →
  (0 ≤ fila_inicio a < fila_fin a ∧ fila_fin a ≤ Z.of_nat (nfilas data))%Z ∧
  (0 ≤ col_inicio a < col_fin a ∧ col_fin a ≤ Z.of_nat (ncols data))%Z ∧
  (width a = col_fin a - col_inicio a ∧ height a = fila_fin a - fila_inicio a)%Z ∧
  ∀ r c, valido data r c → dentro a r c.
Proof.
  intros E. destruct (detectar_area_Some_valido _ _ E) as (r0 & c0 & Hv0).
  destruct (detectar_area_valido data) as (fi & lf & ci & lc & H1 & H2 & H3 & H4 & E');
    [by exists r0, c0|].
  rewrite E in E'. injection E' as ->. simpl.
  destruct H1 as [[x1 Hx1] Hf1]. destruct H2 as [[x2 Hx2] Hf2].
  destruct H3 as [[y1 Hy1] Hc1]. destruct H4 as [[y2 Hy2] Hc2].
  (* the first valid row is not after the last one, and so for columns *)
  assert (Hfl : fi ≤ lf).
  { destruct (decide (fi ≤ lf)); [done|]. destruct (Hf2 fi); [lia | by exists x1]. }
  assert (Hcl : ci ≤ lc).
  { destruct (decide (ci ≤ lc)); [done|]. destruct (Hc2 ci); [lia | by exists y1]. }
  destruct Hx2 as (Hlf & _ & _). destruct Hy2 as (_ & Hlc & _).
  split; [lia|]. split; [lia|]. split; [lia|].
  apply detectar_area_dentro. exact E.
Qed.

Lemma detectar_area_envuelve_witness :
  (0 ≤ 1 < 3 ∧ 3 ≤ 4)%Z ∧ (0 ≤ 2 < 4 ∧ 4 ≤ 5)%Z ∧
  (2 = 4 - 2 ∧ 2 = 3 - 1)%Z ∧
  ∀ r c, valido raster_borde r c → dentro (Area 1 3 2 4 2 2) r c.
Proof.
  apply (detectar_area_envuelve raster_borde (Area 1 3 2 4 2 2)). reflexivity.
Defined.

Lemma valido_aplicar_nodata (nd : f32) (banda : ndarray f32) (r c : nat) :
  valido (aplicar_nodata (Some nd) banda) r c ↔
  r < nfilas banda ∧ c < ncols banda ∧
  F32.isnan (celda banda r c) = false ∧ F32.eqb (celda banda r c) nd = false.
Proof.
  unfold valido. simpl. destruct (F32.eqb (celda banda r c) nd) eqn:E; simpl.
  - split; [intros (_ & _ & H) | intros (_ & _ & _ & H)]; discriminate.
  - split; [intros (? & ? & ?) | intros (? & ? & ? & _)]; done.
Qed.

(** With a nodata value the window of a raster contains every sample
    that is neither NaN nor equal to that value, and a raster in which
    every sample is NaN or the nodata value has no window. *)
Theorem analizar_raster_nodata (nd : f32) (banda : ndarray f32) :
  (∀ a, analizar_raster (Some nd) banda = Some a →
     ∀ r c, r < nfilas banda → c < ncols banda →
       F32.isnan (celda banda r c) = false → F32.eqb (celda banda r c) nd = false →
       dentro a r c) ∧
  ((∀ r c, r < nfilas banda → c < ncols banda →
      F32.isnan (celda banda r c) = true ∨ F32.eqb (celda banda r c) nd = true) →
   analizar_raster (Some nd) banda = None).
Proof.
  unfold analizar_raster. split.
  - intros a E r c Hr Hc Hnan Heq.
    apply (detectar_area_dentro _ _ E). by apply valido_aplicar_nodata.
  - intros Hall. apply detectar_area_sin_datos. intros r c Hv.
    apply valido_aplicar_nodata in Hv as (Hr & Hc & Hnan & Heq).
    destruct (Hall r c Hr Hc); congruence.
Qed.

Lemma analizar_raster_nodata_witness :
  analizar_raster (Some nodata_ej) raster_nodata = Some (Area 0 2 1 3 2 2) ∧
  ∀ r c, r < 2 → c < 3 →
    F32.isnan (celda raster_nodata r c) = false →
    F32.eqb (celda raster_nodata r c) nodata_ej = false →
    dentro (Area 0 2 1 3 2 2) r c.
Proof.
  split; [reflexivity|].
  apply (proj1 (analizar_raster_nodata nodata_ej raster_nodata) (Area 0 2 1 3 2 2)).
  reflexivity.
Defined.

End DetectorExtra.

(** ** More on the intersection policy *)

Section AlignerExtra.
Local Open Scope Z_scope.

Lemma recorte_comun_Some (filtradas : list area) (rc : area) :
  recorte_comun filtradas = Some rc →
  es_maximo (fila_inicio rc) (map fila_inicio filtradas) ∧
  es_minimo (fila_fin rc) (map fila_fin filtradas) ∧
  es_maximo (col_inicio rc) (map col_inicio filtradas) ∧
  es_minimo (col_fin rc) (map col_fin filtradas) ∧
  width rc = col_fin rc - col_inicio rc ∧
  height rc = fila_fin rc - fila_inicio rc.
Proof.
  intros E. destruct filtradas as [|a l]; [discriminate|].
  destruct (recorte_comun_spec (a :: l)) as (rc' & E' & H); [done|].
  rewrite E in E'. by injection E' as <-.
Qed.

Lemma elem_of_map_campo (f : area → Z) (l : list area) (x : Z) :
  x ∈ map f l ↔ ∃ a, a ∈ l ∧ f a = x.
Proof.
  change (map f l) with (f <$> l). rewrite list_elem_of_fmap. split.
  - intros (a & -> & Ha). by exists a.
  - intros (a & Ha & <-). by exists a.
Qed.

(** The common window is the intersection of the windows: a rectangle
    lies in every raster's window exactly when it lies in the common
    window. *)
Theorem recorte_comun_es_interseccion (filtradas : list area) (rc : area)
    (r0 r1 c0 c1 : Z) :
  recorte_comun filtradas = Some rc →
  ((∀ a, a ∈ filtradas → rect_en r0 r1 c0 c1 a) ↔ rect_en r0 r1 c0 c1 rc).
Proof.
  intros E. destruct (recorte_comun_Some _ _ E)
    as ([Hfi Hfi'] & [Hff Hff'] & [Hci Hci'] & [Hcf Hcf'] & _).
  apply elem_of_map_campo in Hfi as (a1 & Ha1 & E1).
  apply elem_of_map_campo in Hff as (a2 & Ha2 & E2).
  apply elem_of_map_campo in Hci as (a3 & Ha3 & E3).
  apply elem_of_map_campo in Hcf as (a4 & Ha4 & E4).
  unfold rect_en. split.
  - intros H. pose proof (H _ Ha1). pose proof (H _ Ha2).
    pose proof (H _ Ha3). pose proof (H _ Ha4). lia.
  - intros H a Ha.
    assert (fila_inicio a ≤ fila_inicio rc)
      by (apply Hfi', elem_of_map_campo; by exists a).
    assert (fila_fin rc ≤ fila_fin a)
      by (apply Hff', elem_of_map_campo; by exists a).
    assert (col_inicio a ≤ col_inicio rc)
      by (apply Hci', elem_of_map_campo; by exists a).
    assert (col_fin rc ≤ col_fin a)
      by (apply Hcf', elem_of_map_campo; by exists a).
    lia.
Qed.

Lemma recorte_comun_es_interseccion_witness :
  (∀ a, a ∈ [area_a; area_c] → rect_en 1 2 0 2 a) ↔ rect_en 1 2 0 2 (Area 1 2 0 2 2 1).
Proof.
  apply (recorte_comun_es_interseccion [area_a; area_c] (Area 1 2 0 2 2 1) 1 2 0 2).
  reflexivity.
Defined.

(** The common window is degenerate exactly when two of the windows
    share no column or share no row. *)
Theorem recorte_comun_degenerado (filtradas : list area) (rc : area) :
  recorte_comun filtradas = Some rc →
  (degenerado rc ↔ ∃ a b, a ∈ filtradas ∧ b ∈ filtradas ∧ sin_solape a b).
Proof.
  intros E. destruct (recorte_comun_Some _ _ E)
    as ([Hfi Hfi'] & [Hff Hff'] & [Hci Hci'] & [Hcf Hcf'] & Hw & Hh).
  apply elem_of_map_campo in Hfi as (a1 & Ha1 & E1).
  apply elem_of_map_campo in Hff as (a2 & Ha2 & E2).
  apply elem_of_map_campo in Hci as (a3 & Ha3 & E3).
  apply elem_of_map_campo in Hcf as (a4 & Ha4 & E4).
  unfold degenerado, sin_solape. split.
  - intros [H | H].
    + exists a3, a4. split; [done|]. split; [done|]. left. lia.
    + exists a1, a2. split; [done|]. split; [done|]. right. lia.
  - intros (a & b & Ha & Hb & H).
    assert (fila_inicio a ≤ fila_inicio rc)
      by (apply Hfi', elem_of_map_campo; by exists a).
    assert (fila_fin rc ≤ fila_fin b)
      by (apply Hff', elem_of_map_campo; by exists b).
    assert (col_inicio a ≤ col_inicio rc)
      by (apply Hci', elem_of_map_campo; by exists a).
    assert (col_fin rc ≤ col_fin b)
      by (apply Hcf', elem_of_map_campo; by exists b).
    lia.
Qed.

Lemma recorte_comun_degenerado_witness :
  degenerado (Area 3 2 3 2 (-1) (-1)) ↔
  ∃ a b, a ∈ [area_a; area_b] ∧ b ∈ [area_a; area_b] ∧ sin_solape a b.
Proof.
  apply (recorte_comun_degenerado [area_a; area_b] (Area 3 2 3 2 (-1) (-1))).
  reflexivity.
Defined.

Lemma es_maximo_unico (x y : Z) (l l' : list Z) :
  l ≡ₚ l' → es_maximo x l → es_maximo y l' → x = y.
Proof.
  intros Hp [Hx Hx'] [Hy Hy']. rewrite <- Hp in Hy. rewrite Hp in Hx.
  apply Hx' in Hy. apply Hy' in Hx. lia.
Qed.

Lemma es_minimo_unico (x y : Z) (l l' : list Z) :
  l ≡ₚ l' → es_minimo x l → es_minimo y l' → x = y.
Proof.
  intros Hp [Hx Hx'] [Hy Hy']. rewrite <- Hp in Hy. rewrite Hp in Hx.
  apply Hx' in Hy. apply Hy' in Hx. lia.
Qed.

(** The common window does not depend on the order in which the
    rasters are analysed. *)
Theorem recorte_comun_orden (filtradas filtradas' : list area) :
  filtradas ≡ₚ filtradas' → recorte_comun filtradas = recorte_comun filtradas'.
Proof.
  intros Hp. destruct filtradas as [|a l].
  { apply Permutation_nil_l in Hp. by subst. }
  destruct filtradas' as [|a' l'].
  { symmetry in Hp. by apply Permutation_nil_cons in Hp. }
  destruct (recorte_comun_spec (a :: l)) as (rc & E & H1 & H2 & H3 & H4 & Hw & Hh); [done|].
  destruct (recorte_comun_spec (a' :: l')) as (rc' & E' & H1' & H2' & H3' & H4' & Hw' & Hh');
    [done|].
  rewrite E, E'. f_equal.
  assert (Hmap : ∀ f : area → Z, map f (a :: l) ≡ₚ map f (a' :: l')).
  { intros f. change (f <$> a :: l ≡ₚ f <$> a' :: l'). by rewrite Hp. }
  pose proof (es_maximo_unico _ _ _ _ (Hmap fila_inicio) H1 H1').
  pose proof (es_minimo_unico _ _ _ _ (Hmap fila_fin) H2 H2').
  pose proof (es_maximo_unico _ _ _ _ (Hmap col_inicio) H3 H3').
  pose proof (es_minimo_unico _ _ _ _ (Hmap col_fin) H4 H4').
  destruct rc, rc'. simpl in *. congruence.
Qed.

Lemma recorte_comun_orden_witness :
  recorte_comun [area_a; area_c; area_b] = recorte_comun [area_b; area_a; area_c].
Proof.
  apply (recorte_comun_orden [area_a; area_c; area_b] [area_b; area_a; area_c]).
  symmetry. apply (Permutation_cons_append [area_a; area_c] area_b).
Defined.

End AlignerExtra.

(** ** The fixed-margin window *)

Section FixedMargin.
Local Open Scope Z_scope.

Lemma todos_desde_spec (n : nat) (z : Z) (p : Z → bool) :
  todos_desde n z p = true → ∀ k, z ≤ k < z + Z.of_nat n → p k = true.
Proof.
  revert z. induction n as [|n IH]; intros z H k Hk; [lia|].
  simpl in H. apply andb_true_iff in H as [H0 H1].
  destruct (decide (k = z)) as [-> | Hne]; [done|].
  apply (IH (z + 1) H1). lia.
Qed.

(** For every dimension below 65536 the trimmed margin
    [int(dim * 0.05)] is the integer quotient [dim / 20]. *)
Lemma pixeles_recorte_cociente (dim : Z) :
  0 ≤ dim < 65536 → pixeles_recorte dim = Some (dim / 20).
Proof.
  intros Hdim.
  assert (H : todos_desde (Z.to_nat 65536) 0
                (λ d, bool_decide (pixeles_recorte d = Some (d / 20))) = true)
    by (vm_compute; reflexivity).
  pose proof (todos_desde_spec _ _ _ H dim ltac:(lia)) as Hd.
  by apply bool_decide_eq_true in Hd.
Qed.

(** The margin of a dimension below 65536 is a twentieth of it, and
    what is left between the two margins is at least nine tenths. *)
Lemma margen_veinteavo (dim : Z) :
  0 < dim →
  0 ≤ dim / 20 < dim - dim / 20 ∧ dim - dim / 20 ≤ dim ∧
  9 * dim ≤ 10 * (dim - dim / 20 - dim / 20).
Proof.
  intros Hdim.
  pose proof (Z.div_mod dim 20 ltac:(lia)). pose proof (Z.mod_pos_bound dim 20 ltac:(lia)).
  lia.
Qed.

(** When step 2 does not exit, its window is computed from the size of
    the reference raster alone. *)
Lemma paso_2_coronel_suarez_ventana (rasters : list (option f32 * ndarray f32))
    (nodata : option f32) (ref : ndarray f32) (out : list string) (rc : area) :
  rasters !! 0%nat = Some (nodata, ref) →
  0 < Z.of_nat (nfilas ref) < 65536 → 0 < Z.of_nat (ncols ref) < 65536 →
  paso_2_coronel_suarez rasters = (out, Continua rc) →
  rc = Area (Z.of_nat (nfilas ref) / 20)
            (Z.of_nat (nfilas ref) - Z.of_nat (nfilas ref) / 20)
            (Z.of_nat (ncols ref) / 20)
            (Z.of_nat (ncols ref) - Z.of_nat (ncols ref) / 20)
            (Z.of_nat (ncols ref) - Z.of_nat (ncols ref) / 20 - Z.of_nat (ncols ref) / 20)
            (Z.of_nat (nfilas ref) - Z.of_nat (nfilas ref) / 20
             - Z.of_nat (nfilas ref) / 20).
Proof.
  intros Href HH HW Erun.
  destruct rasters as [|[nd b] resto]; [done|]. injection Href as -> ->.
  unfold paso_2_coronel_suarez in Erun.
  destruct (analizar_rasters_cs _) as [areas pcts].
  destruct (areas_validas_filtradas_cs _ _); [done|].
  unfold recorte_margen in Erun.
  rewrite !pixeles_recorte_cociente in Erun by lia. simpl in Erun.
  by injection Erun as _ <-.
Qed.

(** Whoever the rasters are, when step 2 does not exit its window is
    the fixed margin of the reference raster: for dimensions H x W below
    65536 the rows [H/20, H - H/20) and the columns [W/20, W - W/20);
    the valid windows and the exclusion of May do not enter it. The
    window lies in the raster and is not degenerate. *)
Theorem paso_2_coronel_suarez_margen (rasters : list (option f32 * ndarray f32))
    (nodata : option f32) (ref : ndarray f32) (out : list string) (rc : area) :
  rasters !! 0%nat = Some (nodata, ref) →
  0 < Z.of_nat (nfilas ref) < 65536 → 0 < Z.of_nat (ncols ref) < 65536 →
  paso_2_coronel_suarez rasters = (out, Continua rc) →
  let H := Z.of_nat (nfilas ref) in
  let W := Z.of_nat (ncols ref) in
  rc = Area (H / 20) (H - H / 20) (W / 20) (W - W / 20)
            (W - W / 20 - W / 20) (H - H / 20 - H / 20) ∧
  0 ≤ fila_inicio rc < fila_fin rc ∧ fila_fin rc ≤ H ∧
  0 ≤ col_inicio rc < col_fin rc ∧ col_fin rc ≤ W ∧
  9 * W ≤ 10 * width rc ∧ 9 * H ≤ 10 * height rc.
Proof.
  intros Href HH HW Erun H W.
  pose proof (paso_2_coronel_suarez_ventana _ _ _ _ _ Href HH HW Erun) as Erc.
  fold H W in Erc. subst rc. simpl.
  pose proof (margen_veinteavo H ltac:(lia)). pose proof (margen_veinteavo W ltac:(lia)).
  split; [done|]. lia.
Qed.

Lemma paso_2_coronel_suarez_margen_witness :
  Area 0 4 0 5 5 4 = Area (4 / 20) (4 - 4 / 20) (5 / 20) (5 - 5 / 20)
                          (5 - 5 / 20 - 5 / 20) (4 - 4 / 20 - 4 / 20) ∧
  0 ≤ 0 < 4 ∧ 4 ≤ 4 ∧ 0 ≤ 0 < 5 ∧ 5 ≤ 5 ∧ 9 * 5 ≤ 10 * 5 ∧ 9 * 4 ≤ 10 * 4.
Proof.
  apply (paso_2_coronel_suarez_margen rasters_ej None raster_borde [] (Area 0 4 0 5 5 4)).
  - reflexivity.
  - simpl. lia.
  - simpl. lia.
  - vm_compute. reflexivity.
Defined.

Lemma analizar_rasters_cs_fst (rasters : list (option f32 * ndarray f32)) :
  (analizar_rasters_cs rasters).1 = areas_validas rasters.
Proof.
  induction rasters as [|[nd b] resto IH]; [done|]. simpl.
  destruct (analizar_rasters_cs resto) as [areas pcts]. simpl in IH. subst areas.
  unfold analizar_raster. simpl. by destruct (detectar_area _).
Qed.

Lemma sin_datos_antes_S (x : option area) (areas : list (option area)) (k : nat) :
  sin_datos_antes (x :: areas) (S k) =
    ((if x is None then 1 else 0) + sin_datos_antes areas k)%nat.
Proof.
  unfold sin_datos_antes. rewrite firstn_cons, filter_cons.
  destruct x; [by rewrite decide_False | by rewrite decide_True].
Qed.

(** [porcentajes_validos] gets one entry per raster and a second one,
    0, for each raster without valid data; so the percentage of raster
    [k] is at position [k] plus the number of rasters without valid data
    before it. *)
Theorem porcentajes_validos_desplazados (rasters : list (option f32 * ndarray f32)) :
  let areas := (analizar_rasters_cs rasters).1 in
  let porcentajes := (analizar_rasters_cs rasters).2 in
  length areas = length rasters ∧
  length porcentajes = (length rasters + sin_datos_antes areas (length rasters))%nat ∧
  ∀ k raster, rasters !! k = Some raster →
    porcentajes !! (k + sin_datos_antes areas k)%nat = Some (pct_de raster) ∧
    (areas !! k = Some None →
       porcentajes !! (k + sin_datos_antes areas k + 1)%nat = Some Cero).
Proof.
  induction rasters as [|[nd b] resto IH].
  - split; [done|]. split; [done|]. intros k raster H. by rewrite lookup_nil in H.
  - cbn [analizar_rasters_cs].
    destruct (analizar_rasters_cs resto) as [areas pcts]. cbn [fst snd] in IH.
    destruct IH as (Hl & Hp & Hk).
    destruct (detectar_area (aplicar_nodata nd b)) as [a|] eqn:Ea; cbn [fst snd length].
    + split; [lia|]. rewrite sin_datos_antes_S. split; [lia|].
      intros [|k] raster H.
      * injection H as <-. split; [done|]. intros [=].
      * rewrite sin_datos_antes_S. cbn [lookup list_lookup] in H |- *.
        replace (S k + (0 + sin_datos_antes areas k))%nat
          with (S (k + sin_datos_antes areas k)) by lia.
        by apply Hk.
    + split; [lia|]. rewrite sin_datos_antes_S. split; [lia|].
      intros [|k] raster H.
      * injection H as <-. done.
      * rewrite sin_datos_antes_S.
        replace (S k + (1 + sin_datos_antes areas k))%nat
          with (S (S (k + sin_datos_antes areas k))) by lia.
        by apply Hk.
Qed.

Lemma porcentajes_validos_desplazados_witness :
  (analizar_rasters_cs rasters_ej2).2 !! (1 + sin_datos_antes (analizar_rasters_cs rasters_ej2).1 1)%nat
    = Some (pct_de (None, raster_borde)).
Proof.
  apply (proj2 (proj2 (porcentajes_validos_desplazados rasters_ej2)) 1%nat). reflexivity.
Defined.

(** With an earlier raster without valid data, position 5 of
    [porcentajes_validos] is not the sixth raster's percentage: here the
    second raster's entry sits at position 2, behind the extra 0. *)
Example porcentajes_validos_ej :
  (analizar_rasters_cs rasters_ej2).2 = [Pct 0 4; Cero; Pct 4 20].
Proof. vm_compute. reflexivity. Qed.

End FixedMargin.

(** ** Tiles and source windows *)

Section Tiles.
Local Open Scope Z_scope.

Lemma elem_of_teselas (alto ancho : Z) (t : tesela) :
  t ∈ teselas alto ancho ↔
  ∃ i j, 0 ≤ i < n_chunks alto ∧ 0 ≤ j < n_chunks ancho ∧
         ventana_destino alto ancho i j = Some t.
Proof.
  unfold teselas. rewrite list_elem_of_bind. split.
  - intros (i & Ht & Hi). apply list_elem_of_bind in Ht as (j & Ht & Hj).
    apply elem_of_seqZ in Hi, Hj. exists i, j.
    destruct (ventana_destino alto ancho i j) as [t'|]; [|by apply elem_of_nil in Ht].
    apply list_elem_of_singleton in Ht as ->. split; [lia|]. split; [lia | done].
  - intros (i & j & Hi & Hj & E). exists i. split; [|apply elem_of_seqZ; lia].
    apply list_elem_of_bind. exists j. split; [|apply elem_of_seqZ; lia].
    rewrite E. by left.
Qed.

Lemma n_chunks_cota (dim i : Z) :
  0 ≤ i < n_chunks dim ↔ 0 ≤ i ∧ i * CHUNK_SIZE < dim.
Proof.
  unfold n_chunks, CHUNK_SIZE.
  pose proof (Z.div_mod (dim + 2000 - 1) 2000 ltac:(lia)).
  pose proof (Z.mod_pos_bound (dim + 2000 - 1) 2000 ltac:(lia)). lia.
Qed.

(** The loop never skips a tile, every tile is a non-empty block of at
    most 2000 x 2000 pixels inside the destination, and the tiles
    partition the destination: a pixel lies in exactly the tile of its
    row block r / 2000 and column block c / 2000. *)
Theorem teselas_particion (alto ancho : Z) :
  (∀ i j, 0 ≤ i < n_chunks alto → 0 ≤ j < n_chunks ancho →
     is_Some (ventana_destino alto ancho i j)) ∧
  (∀ t, t ∈ teselas alto ancho →
     0 ≤ row_start t < row_end t ∧ row_end t ≤ alto ∧
     0 ≤ col_start t < col_end t ∧ col_end t ≤ ancho ∧
     row_end t - row_start t ≤ CHUNK_SIZE ∧ col_end t - col_start t ≤ CHUNK_SIZE) ∧
  (∀ r c, 0 ≤ r < alto → 0 ≤ c < ancho →
     ∃ t, t ∈ teselas alto ancho ∧ en_tesela t r c ∧
          ventana_destino alto ancho (r / CHUNK_SIZE) (c / CHUNK_SIZE) = Some t ∧
          ∀ t', t' ∈ teselas alto ancho → en_tesela t' r c → t' = t).
Proof.
  assert (Hvd : ∀ i j, 0 ≤ i ∧ i * CHUNK_SIZE < alto → 0 ≤ j ∧ j * CHUNK_SIZE < ancho →
            ventana_destino alto ancho i j =
              Some (Tesela (i * CHUNK_SIZE) (Z.min ((i + 1) * CHUNK_SIZE) alto)
                           (j * CHUNK_SIZE) (Z.min ((j + 1) * CHUNK_SIZE) ancho))).
  { intros i j Hi Hj. unfold ventana_destino, CHUNK_SIZE in *.
    destruct (Z.leb_spec (Z.min ((i + 1) * 2000) alto) (i * 2000)); [lia|].
    destruct (Z.leb_spec (Z.min ((j + 1) * 2000) ancho) (j * 2000)); [lia|]. done. }
  split; [|split].
  - intros i j Hi Hj. apply n_chunks_cota in Hi, Hj. rewrite Hvd by done. by eexists.
  - intros t Ht. apply elem_of_teselas in Ht as (i & j & Hi & Hj & E).
    apply n_chunks_cota in Hi, Hj. rewrite Hvd in E by done. injection E as <-.
    unfold CHUNK_SIZE in *. simpl. lia.
  - intros r c Hr Hc.
    pose proof (Z.div_mod r 2000 ltac:(lia)) as Hdr.
    pose proof (Z.mod_pos_bound r 2000 ltac:(lia)) as Hmr.
    pose proof (Z.div_mod c 2000 ltac:(lia)) as Hdc.
    pose proof (Z.mod_pos_bound c 2000 ltac:(lia)) as Hmc.
    assert (Hi : 0 ≤ r / 2000 ∧ r / 2000 * CHUNK_SIZE < alto) by (unfold CHUNK_SIZE; lia).
    assert (Hj : 0 ≤ c / 2000 ∧ c / 2000 * CHUNK_SIZE < ancho) by (unfold CHUNK_SIZE; lia).
    eexists. split; [|split; [|split; [apply (Hvd _ _ Hi Hj)|]]].
    + apply elem_of_teselas. exists (r / 2000), (c / 2000).
      split; [by apply n_chunks_cota|]. split; [by apply n_chunks_cota|].
      apply (Hvd _ _ Hi Hj).
    + unfold en_tesela, CHUNK_SIZE. simpl. lia.
    + intros t' Ht' Hin. apply elem_of_teselas in Ht' as (i & j & Hi' & Hj' & E).
      apply n_chunks_cota in Hi', Hj'. rewrite Hvd in E by done. injection E as <-.
      unfold en_tesela, CHUNK_SIZE in *. simpl in Hin.
      assert (i = r / 2000) as -> by lia. assert (j = c / 2000) as -> by lia. done.
Qed.

(** A destination of 4100 x 2000 pixels has three tiles. *)
Example teselas_ej :
  teselas 4100 2000 =
    [Tesela 0 2000 0 2000; Tesela 2000 4000 0 2000; Tesela 4000 4100 0 2000].
Proof. reflexivity. Qed.

(** The clamped source window is non-empty, lies inside the source
    raster and contains every pixel of the requested window that lies
    inside the source; a request that lies inside the source is read
    unchanged; and when the script finds no intersection the requested
    window has indeed no pixel inside the source. *)
Theorem ajustar_ventana_spec (w : Window) (src_width src_height : Z) :
  (∀ v, ajustar_ventana w src_width src_height = Some v →
     0 ≤ col_off v ∧ 0 < win_width v ∧ col_off v + win_width v ≤ src_width ∧
     0 ≤ row_off v ∧ 0 < win_height v ∧ row_off v + win_height v ≤ src_height ∧
     ∀ fila col, en_ventana w fila col →
       0 ≤ fila < src_height → 0 ≤ col < src_width → en_ventana v fila col) ∧
  (0 ≤ col_off w → 0 < win_width w → col_off w + win_width w ≤ src_width →
   0 ≤ row_off w → 0 < win_height w → row_off w + win_height w ≤ src_height →
   ajustar_ventana w src_width src_height = Some w) ∧
  (ajustar_ventana w src_width src_height = None →
   ∀ fila col, en_ventana w fila col →
     ¬ (0 ≤ fila < src_height ∧ 0 ≤ col < src_width)).
Proof.
  unfold ajustar_ventana, en_ventana. split; [|split].
  - intros v E.
    destruct (Z.ltb_spec 0 (Z.min (win_width w) (src_width - Z.max 0 (col_off w))));
      [|done].
    destruct (Z.ltb_spec 0 (Z.min (win_height w) (src_height - Z.max 0 (row_off w))));
      [|done].
    injection E as <-. simpl. repeat split; lia.
  - intros. destruct w as [co ro ww wh]. simpl in *.
    rewrite !Z.max_r, !Z.min_l by lia.
    destruct (Z.ltb_spec 0 ww); [|lia]. destruct (Z.ltb_spec 0 wh); [|lia]. done.
  - intros E fila col Hin.
    destruct (Z.ltb_spec 0 (Z.min (win_width w) (src_width - Z.max 0 (col_off w))));
      destruct (Z.ltb_spec 0 (Z.min (win_height w) (src_height - Z.max 0 (row_off w))));
      try done; lia.
Qed.

Lemma ajustar_ventana_spec_witness :
  ajustar_ventana (MkWindow 10 20 300 400) 1000 1000 = Some (MkWindow 10 20 300 400).
Proof.
  apply (proj1 (proj2 (ajustar_ventana_spec (MkWindow 10 20 300 400) 1000 1000)));
    simpl; lia.
Defined.

(** The clamped window is not the intersection: a request that lies
    wholly to the left of the source is answered with a window of the
    requested width at column 0. *)
Example ajustar_ventana_fuera :
  ajustar_ventana (MkWindow (-5000) 0 2000 2000) 10000 10000
    = Some (MkWindow 0 0 2000 2000).
Proof. reflexivity. Qed.

End Tiles.

(** ** More on the gap filler *)

Section GapFillerExtra.

Lemma iter_pos_inv {A} (P : A → Prop) (f : A → A) (n : positive) (x : A) :
  (∀ y, P y → P (f y)) → P x → P (SpecFloat.iter_pos f n x).
Proof.
  intros Hf. revert x. induction n as [n IH | n IH |]; intros x Hx; simpl.
  - apply IH, IH, Hf, Hx.
  - apply IH, IH, Hx.
  - apply Hf, Hx.
Qed.

Lemma shr_1_no_negativo (mrs : shr_record) : (0 ≤ shr_m mrs)%Z → (0 ≤ shr_m (shr_1 mrs))%Z.
Proof.
  destruct mrs as [m r s]. simpl. destruct m as [|[p|p|]|p]; simpl; lia.
Qed.

Lemma shr_fexp_no_negativo (prec emax m e : Z) (l : location) :
  (0 ≤ m)%Z → (0 ≤ shr_m (shr_fexp prec emax m e l).1)%Z.
Proof.
  intros Hm. unfold shr_fexp, shr.
  assert (H0 : (0 ≤ shr_m (shr_record_of_loc m l))%Z)
    by (destruct l as [|[]]; simpl; lia).
  destruct (_ - e)%Z; simpl; try done.
  apply (iter_pos_inv (λ mrs, 0 ≤ shr_m mrs)%Z); [apply shr_1_no_negativo | done].
Qed.

(** Rounding a non-negative mantissa never gives NaN. *)
Lemma binary_round_aux_valida (s : bool) (mx ex : Z) (lx : location) :
  (0 ≤ mx)%Z → F32.isnan (binary_round_aux F32.prec F32.emax s mx ex lx) = false.
Proof.
  intros Hmx. unfold binary_round_aux.
  pose proof (shr_fexp_no_negativo F32.prec F32.emax mx ex lx Hmx) as H1.
  destruct (shr_fexp F32.prec F32.emax mx ex lx) as [mrs e']. simpl in H1.
  assert (H2 : (0 ≤ round_nearest_even (shr_m mrs) (loc_of_shr_record mrs))%Z).
  { unfold round_nearest_even. destruct (loc_of_shr_record mrs) as [|[]]; try lia.
    destruct (Z.even _); lia. }
  pose proof (shr_fexp_no_negativo F32.prec F32.emax _ e' loc_Exact H2) as H3.
  destruct (shr_fexp F32.prec F32.emax _ e' loc_Exact) as [mrs' e'']. simpl in H3.
  destruct (shr_m mrs'); [done | | lia]. by destruct (Z.leb _ _).
Qed.

(** The sum of two numbers is NaN only for infinities of opposite
    sign. *)
Lemma add_nan (p q : f32) :
  F32.isnan p = false → F32.isnan q = false →
  (F32.isnan (F32.add p q) = true ↔ infinitos_opuestos p q).
Proof.
  destruct p as [s|s| |s m e], q as [s'|s'| |s' m' e']; try done; intros _ _.
  - destruct s, s'; simpl; split; try done.
  - destruct s, s'; simpl; split; try done; intros H; by destruct H.
  - split; [|done]. unfold F32.add, SFadd, binary_normalize, binary_round.
    destruct (_ + _)%Z; [done | |];
      (match goal with
       | |- F32.isnan (let '(_, _) := ?t in _) = true → _ => destruct t as [mz ez]
       end; by rewrite binary_round_aux_valida).
Qed.

(** Halving keeps NaN and numbers apart. *)
Lemma div_dos_nan (x : f32) : F32.isnan (F32.div x F32.dos) = F32.isnan x.
Proof.
  destruct x as [s|s| |s m e]; try done.
  unfold F32.div, F32.dos, SFdiv.
  destruct (SFdiv_core_binary _ _ _ _ _ _) as [[mz ez] lz] eqn:E.
  apply binary_round_aux_valida.
  unfold SFdiv_core_binary in E.
  destruct (Z.div_eucl _ _) as [q r] eqn:Eq. injection E as <- _ _.
  match type of Eq with Z.div_eucl ?a ?b = _ =>
    assert (Ha : (0 ≤ a)%Z); [|pose proof (Z.div_eucl_eq a b ltac:(done)) as Hd;
      pose proof (Z.mod_pos_bound a b ltac:(done)) as Hb;
      unfold Z.modulo in Hb; rewrite Eq in Hd, Hb; nia] end.
  destruct (_ - _ - _)%Z; try lia. apply Z.shiftl_nonneg. lia.
Qed.

Lemma relleno_valida (x p q : f32) :
  F32.isnan (relleno x p q) = false ↔
    F32.isnan x = false ∨
    (F32.isnan p = false ∧ F32.isnan q = true) ∨
    (F32.isnan p = true ∧ F32.isnan q = false) ∨
    (F32.isnan p = false ∧ F32.isnan q = false ∧ ¬ infinitos_opuestos p q).
Proof.
  unfold relleno.
  destruct (F32.isnan x) eqn:Ex, (F32.isnan p) eqn:Ep, (F32.isnan q) eqn:Eq; simpl;
    rewrite ?Ex, ?Ep, ?Eq; try (split; [tauto | intros; done]).
  - split; [intros [=] | intros [? | [[? ?] | [[? ?] | (? & ? & ?)]]]; done].
  - rewrite div_dos_nan. pose proof (add_nan p q Ep Eq) as H.
    destruct (F32.isnan (F32.add p q)); split.
    + intros [=].
    + intros [? | [[? ?] | [[? ?] | (_ & _ & Hno)]]]; try done.
      destruct Hno. by apply H.
    + intros _. right; right; right. split; [done|]. split; [done|].
      intros Hop. apply H in Hop. discriminate.
    + done.
Qed.

(** After the interpolation a pixel of May is a number exactly when it
    was one before, or exactly one of April and June is a number there,
    or both are and they are not infinities of opposite sign; no valid
    pixel is lost. *)
Theorem interpolar_mayo_validez (st : estado) (m a j : ndarray f32) :
  contenido st indice_mayo = Some m →
  contenido st indice_abril = Some a →
  contenido st indice_junio = Some j →
  shape a = shape m → shape j = shape m →
  bajo_umbral (contar_validos m) (size_of m) = true →
  ∃ st' out,
    interpolar_mayo st = Some (tt, st') ∧
    contenido st' indice_mayo = Some out ∧
    ∀ r c,
      F32.isnan (celda out r c) = false ↔
        F32.isnan (celda m r c) = false ∨
        (F32.isnan (celda a r c) = false ∧ F32.isnan (celda j r c) = true) ∨
        (F32.isnan (celda a r c) = true ∧ F32.isnan (celda j r c) = false) ∨
        (F32.isnan (celda a r c) = false ∧ F32.isnan (celda j r c) = false ∧
         ¬ infinitos_opuestos (celda a r c) (celda j r c)).
Proof.
  intros Hm Ha Hj Sa Sj Hb.
  apply contenido_Some in Hm as (l5 & H5 & Hm).
  apply contenido_Some in Ha as (l4 & H4 & Ha).
  apply contenido_Some in Hj as (l6 & H6 & Hj).
  destruct (interpolar_mayo_ejecuta st l5 l4 l6 m a j)
    as (lmi & h' & out & Erun & Hfresh & Hframe & Hout & Sout & Hpix); try done.
  eexists _, out. split; [exact Erun|]. split.
  - apply contenido_Some. exists lmi. simpl. split; [|exact Hout].
    apply list_lookup_insert_eq. by eapply lookup_lt_Some.
  - intros r c. rewrite Hpix. apply relleno_valida.
Qed.

Lemma interpolar_mayo_validez_witness :
  ∃ st' out,
    interpolar_mayo estado_ej = Some (tt, st') ∧
    contenido st' indice_mayo = Some out ∧
    ∀ r c,
      F32.isnan (celda out r c) = false ↔
        F32.isnan (celda banda_mayo_ej r c) = false ∨
        (F32.isnan (celda banda_abril_ej r c) = false ∧
         F32.isnan (celda banda_junio_ej r c) = true) ∨
        (F32.isnan (celda banda_abril_ej r c) = true ∧
         F32.isnan (celda banda_junio_ej r c) = false) ∨
        (F32.isnan (celda banda_abril_ej r c) = false ∧
         F32.isnan (celda banda_junio_ej r c) = false ∧
         ¬ infinitos_opuestos (celda banda_abril_ej r c) (celda banda_junio_ej r c)).
Proof.
  apply (interpolar_mayo_validez estado_ej banda_mayo_ej banda_abril_ej banda_junio_ej);
    reflexivity.
Defined.

(** The step changes nothing when there are fewer than six bands, when
    May has at least 50% of valid pixels, or when there is no seventh
    band: the list of bands and every array are as before. *)
Theorem interpolar_mayo_sin_cambio (st : estado) :
  bien_formado st →
  (length (bandas_ndvi st) ≤ indice_mayo ∨
   length (bandas_ndvi st) ≤ indice_junio ∨
   ∃ m, contenido st indice_mayo = Some m ∧
        bajo_umbral (contar_validos m) (size_of m) = false) →
  ∃ st', interpolar_mayo st = Some (tt, st') ∧
    bandas_ndvi st' = bandas_ndvi st ∧
    banda_verano st' = banda_verano st ∧
    (∀ l, is_Some (heap st !! l) → heap st' !! l = heap st !! l) ∧
    ∀ i, contenido st' i = contenido st i.
Proof.
  intros [Hwf Hv] Hcaso.
  cut (wp interpolar_mayo (λ _ st',
         bandas_ndvi st' = bandas_ndvi st ∧ banda_verano st' = banda_verano st ∧
         ∀ l, is_Some (heap st !! l) → heap st' !! l = heap st !! l) st).
  { intros ([] & st' & E & Eb & Ev & Hh). exists st'. split; [done|].
    split; [done|]. split; [done|]. split; [done|].
    intros i. unfold contenido. rewrite Eb.
    destruct (bandas_ndvi st !! i) as [l|] eqn:Ei; [|done]. simpl.
    apply Hh. by eapply Hwf. }
  unfold interpolar_mayo. apply wp_bind, wp_len_bandas.
  destruct (decide (indice_mayo < length (bandas_ndvi st))) as [Hlen | Hlen];
    [|by apply wp_ret].
  destruct (lookup_lt_is_Some_2 _ _ Hlen) as [l5 H5].
  destruct (Hwf _ _ H5) as [m Hm].
  apply wp_bind, (wp_elemento _ l5); [done|].
  apply wp_bind, (wp_copy _ m); [done|]. intros lm Hlm. simpl.
  apply wp_bind, (wp_leer _ m); [simpl; by rewrite lookup_insert_eq|]. simpl.
  assert (Hfin : ∀ l, is_Some (heap st !! l) → <[lm:=m]> (heap st) !! l = heap st !! l).
  { intros l [x Hx]. apply lookup_insert_ne. intros ->. rewrite Hlm in Hx. discriminate. }
  destruct (bajo_umbral (contar_validos m) (size_of m)) eqn:Hb; [|by apply wp_ret].
  destruct (decide (indice_junio < length (bandas_ndvi st)
                    ∧ indice_abril < length (bandas_ndvi st))) as [[Hl6 Hl4] | Hno];
    [|by apply wp_ret].
  exfalso. destruct Hcaso as [? | [? | (m' & Hm' & Hb')]]; [lia | lia |].
  apply contenido_Some in Hm' as (l' & Hl' & Hm'). congruence.
Qed.

Lemma interpolar_mayo_sin_cambio_witness :
  ∃ st', interpolar_mayo estado_lleno = Some (tt, st') ∧
    bandas_ndvi st' = bandas_ndvi estado_lleno ∧
    banda_verano st' = banda_verano estado_lleno ∧
    (∀ l, is_Some (heap estado_lleno !! l) → heap st' !! l = heap estado_lleno !! l) ∧
    ∀ i, contenido st' i = contenido estado_lleno i.
Proof.
  apply (interpolar_mayo_sin_cambio estado_lleno).
  - split.
    + intros i l Hi.
      do 7 (destruct i as [|i]; [injection Hi as <-; by eexists|]). by destruct i.
    + by eexists.
  - right; right. exists banda_llena. split; reflexivity.
Defined.

End GapFillerExtra.

(** ** More on the inventory *)

Section InventoryExtra.

Lemma buscar_ndvi_avisos (existe : string → bool) (NDVI_DIR : string) (meses : list string) :
  (buscar_ndvi existe NDVI_DIR meses).1 =
    map (λ mes, msg_warn_archivo (archivo_ndvi NDVI_DIR mes))
        (filter (λ mes, existe (archivo_ndvi NDVI_DIR mes) = false) meses).
Proof.
  induction meses as [|mes meses IH]; [done|]. simpl in *.
  destruct (buscar_ndvi existe NDVI_DIR meses) as [avisos [files nombres]].
  simpl in IH. subst avisos. rewrite filter_cons.
  destruct (existe (archivo_ndvi NDVI_DIR mes)) eqn:E; simpl; done.
Qed.

(** The inventory: one warning per missing monthly raster; exit code 1
    after the "no rasters" diagnostic exactly when none exists;
    otherwise the paths and the names of the existing rasters, in month
    order. *)
Theorem inventario_ndvi_spec (existe : string → bool) (NDVI_DIR : string) :
  let encontrados := meses_encontrados existe NDVI_DIR in
  let avisos := map (λ mes, msg_warn_archivo (archivo_ndvi NDVI_DIR mes))
                    (meses_ausentes existe NDVI_DIR) in
  (encontrados = [] →
     inventario_ndvi existe NDVI_DIR = (avisos ++ [msg_sin_ndvi], Exit 1)) ∧
  (encontrados ≠ [] →
     inventario_ndvi existe NDVI_DIR =
       (avisos, Continua (map (archivo_ndvi NDVI_DIR) encontrados,
                          map nombre_ndvi encontrados))) ∧
  (∀ archivo, archivo ∈ map (archivo_ndvi NDVI_DIR) encontrados → existe archivo = true) ∧
  encontrados `sublist_of` NDVI_MESES.
Proof.
  intros encontrados avisos. unfold inventario_ndvi.
  pose proof (buscar_ndvi_spec existe NDVI_DIR NDVI_MESES) as H2.
  pose proof (buscar_ndvi_avisos existe NDVI_DIR NDVI_MESES) as H1.
  destruct (buscar_ndvi existe NDVI_DIR NDVI_MESES) as [av [files nombres]].
  simpl in H1, H2. injection H2 as -> ->. subst av.
  fold (meses_encontrados existe NDVI_DIR) (meses_ausentes existe NDVI_DIR).
  fold encontrados. split; [|split; [|split]].
  - intros E. by rewrite E.
  - intros E. destruct encontrados; done.
  - intros archivo Hin. change (archivo ∈ archivo_ndvi NDVI_DIR <$> encontrados) in Hin.
    apply list_elem_of_fmap in Hin as (mes & -> & Hmes).
    by apply list_elem_of_filter in Hmes as [Hmes _].
  - apply sublist_filter.
Qed.

Lemma inventario_ndvi_spec_witness :
  inventario_ndvi (λ _, false) dir_ndvi =
    (map (λ mes, msg_warn_archivo (archivo_ndvi dir_ndvi mes)) NDVI_MESES ++ [msg_sin_ndvi],
     Exit 1).
Proof.
  apply (proj1 (inventario_ndvi_spec (λ _, false) dir_ndvi)). reflexivity.
Defined.

(** Position 5 of the list of names, the one step 3.5 treats as May, is
    May's exactly when the rasters of the six months from December to
    May all exist. *)
Theorem indice_mayo_es_mayo (existe : string → bool) (NDVI_DIR : string) :
  map nombre_ndvi (meses_encontrados existe NDVI_DIR) !! indice_mayo = Some "NDVI_2024-05" ↔
  ∀ mes, mes ∈ take 6 NDVI_MESES → existe (archivo_ndvi NDVI_DIR mes) = true.
Proof.
  unfold meses_encontrados, NDVI_MESES, indice_mayo. rewrite !filter_cons, filter_nil.
  split.
  - intros H mes Hmes.
    destruct (existe (archivo_ndvi NDVI_DIR "2023-12")) eqn:E0,
             (existe (archivo_ndvi NDVI_DIR "2024-01")) eqn:E1,
             (existe (archivo_ndvi NDVI_DIR "2024-02")) eqn:E2,
             (existe (archivo_ndvi NDVI_DIR "2024-03")) eqn:E3,
             (existe (archivo_ndvi NDVI_DIR "2024-04")) eqn:E4,
             (existe (archivo_ndvi NDVI_DIR "2024-05")) eqn:E5,
             (existe (archivo_ndvi NDVI_DIR "2024-06")) eqn:E6;
      try (vm_compute in H; discriminate H);
      (simpl in Hmes;
       repeat (apply elem_of_cons in Hmes as [-> | Hmes]; [done|]);
       by apply elem_of_nil in Hmes).
  - intros H.
    rewrite (H "2023-12"), (H "2024-01"), (H "2024-02"), (H "2024-03"),
            (H "2024-04"), (H "2024-05") by (simpl; set_solver).
    by destruct (existe (archivo_ndvi NDVI_DIR "2024-06")).
Qed.

(** With January missing, position 5 holds June. *)
Example indice_mayo_desplazado :
  map nombre_ndvi
      (meses_encontrados
         (solo_meses dir_ndvi ["2023-12"; "2024-02"; "2024-03"; "2024-04"; "2024-05"; "2024-06"])
         dir_ndvi) !! indice_mayo
    = Some "NDVI_2024-06".
Proof. vm_compute. reflexivity. Qed.

End InventoryExtra.

(** ** More on the majority filter *)

Section MajorityFilterExtra.
Local Open Scope Z_scope.

(** Every sample of the window is a pixel of the raster at most one row
    and one column away. *)
Lemma vecindario_de_3_origen (pred : ndarray Z) (r c : nat) (x : Z) :
  (r < nfilas pred)%nat → (c < ncols pred)%nat →
  x ∈ vecindario_de pred 3 r c →
  ∃ r' c', (r' < nfilas pred)%nat ∧ (c' < ncols pred)%nat ∧
           -1 ≤ Z.of_nat r' - Z.of_nat r ≤ 1 ∧ -1 ≤ Z.of_nat c' - Z.of_nat c ≤ 1 ∧
           x = celda pred r' c'.
Proof.
  intros Hr Hc. rewrite vecindario_de_3. cbv zeta. intros Hx.
  repeat (apply elem_of_cons in Hx as [-> | Hx];
          [eexists _, _; split; [|split; [|split; [|split; [|reflexivity]]]];
           unfold clamp; lia|]).
  by apply elem_of_nil in Hx.
Qed.

Lemma vecindario_de_3_centro (pred : ndarray Z) (r c : nat) :
  (r < nfilas pred)%nat → (c < ncols pred)%nat →
  celda pred r c ∈ vecindario_de pred 3 r c.
Proof.
  intros Hr Hc. rewrite vecindario_de_3. cbv zeta.
  replace (clamp (nfilas pred) (Z.of_nat r)) with r by (unfold clamp; lia).
  replace (clamp (ncols pred) (Z.of_nat c)) with c by (unfold clamp; lia).
  do 4 right. left.
Qed.

(** The filter invents no category and loses no valid pixel: a filtered
    pixel is -1 or the non-negative value of a pixel of its 3x3
    surroundings; it is -1 only if the pixel and all its neighbours are
    negative, so a non-negative pixel stays non-negative, and a negative
    pixel with a non-negative neighbour is filled. *)
Theorem pred_filtrado_valores (pred : ndarray Z) (r c : nat) :
  (r < nfilas pred)%nat → (c < ncols pred)%nat →
  let y := celda (pred_filtrado pred) r c in
  (y = -1 ∨
   (0 ≤ y ∧ ∃ r' c', (r' < nfilas pred)%nat ∧ (c' < ncols pred)%nat ∧
              -1 ≤ Z.of_nat r' - Z.of_nat r ≤ 1 ∧ -1 ≤ Z.of_nat c' - Z.of_nat c ≤ 1 ∧
              y = celda pred r' c')) ∧
  (y = -1 ↔ ∀ x, x ∈ vecindario_de pred 3 r c → x < 0) ∧
  (0 ≤ celda pred r c → 0 ≤ y).
Proof.
  intros Hr Hc y.
  assert (Hy : y = moda (vecindario_de pred 3 r c)) by done.
  destruct (moda_spec (vecindario_de pred 3 r c)) as [Hneg Hpos].
  destruct (decide (Forall (λ x, x < 0) (vecindario_de pred 3 r c))) as [Hall | Hno].
  - rewrite Forall_forall in Hall.
    specialize (Hneg Hall). rewrite <- Hy in Hneg. split; [|split].
    + by left.
    + done.
    + intros Hc0. pose proof (Hall _ (vecindario_de_3_centro pred r c Hr Hc)) as Hc'.
      simpl in Hc'. lia.
  - apply not_Forall_Exists in Hno; [|apply _]. apply Exists_exists in Hno as (x0 & Hx0 & Hge).
    simpl in Hge.
    destruct Hpos as (H0 & Hin & _); [exists x0; split; [done | lia]|].
    rewrite <- Hy in H0, Hin. split; [|split].
    + right. split; [done|]. by apply vecindario_de_3_origen.
    + split; [lia|]. intros Hall. apply Hall in Hin. lia.
    + done.
Qed.

Lemma pred_filtrado_valores_witness :
  celda pred_hueco 1 1 = -1 ∧ 0 ≤ celda pred_hueco 0 0 ∧
  0 ≤ celda (pred_filtrado pred_hueco) 0 0.
Proof.
  split; [reflexivity|]. split; [simpl; lia|].
  apply (proj2 (proj2 (pred_filtrado_valores pred_hueco 0 0 ltac:(simpl; lia)
                         ltac:(simpl; lia)))).
  simpl. lia.
Defined.

Lemma ocurrencias_dos (x y : Z) (v : list Z) :
  x ≠ y → (ocurrencias x v + ocurrencias y v ≤ length v)%nat.
Proof.
  intros Hne. unfold ocurrencias. induction v as [|z v IH]; simpl; [lia|].
  destruct (Z.eq_dec z x), (Z.eq_dec z y); subst; try done; lia.
Qed.

(** A non-negative value that fills more than half of a window is the
    result of [moda]: in the 3x3 window, a value present in at least
    five cells wins. *)
Theorem moda_mayoria_absoluta (v : list Z) (x : Z) :
  0 ≤ x → (length v < 2 * ocurrencias x v)%nat → moda v = x.
Proof.
  intros Hx Hmay.
  destruct (moda_spec v) as [_ Hpos].
  destruct Hpos as (H0 & Hin & Hmax).
  { exists x. split; [|done]. apply ocurrencias_pos. lia. }
  destruct (Hmax x Hx) as [Hle _].
  destruct (decide (moda v = x)) as [|Hne]; [done|].
  pose proof (ocurrencias_dos _ _ v Hne). lia.
Qed.

Lemma moda_mayoria_absoluta_witness : moda [2; 7; 2; 2; -1; 2; 7; 2; 3] = 2.
Proof.
  apply (moda_mayoria_absoluta [2; 7; 2; 2; -1; 2; 7; 2; 3] 2); [lia|].
  vm_compute. lia.
Defined.

(** Whole regions of one category are left alone: a pixel whose eight
    neighbours, borders replicated, carry its own non-negative category
    keeps it. *)
Theorem pred_filtrado_uniforme (pred : ndarray Z) (r c : nat) (k : Z) :
  0 ≤ k → (∀ x, x ∈ vecindario_de pred 3 r c → x = k) →
  celda (pred_filtrado pred) r c = k.
Proof.
  intros Hk Hall.
  change (moda (vecindario_de pred 3 r c) = k).
  (* the window has nine cells, so some cell x of it is there, and x = k *)
  assert (Hne : ∃ x, x ∈ vecindario_de pred 3 r c).
  { rewrite vecindario_de_3. cbv zeta. eexists. left. }
  destruct Hne as [x Hx]. pose proof (Hall x Hx) as ->.
  (* the mode of a window with a non-negative cell is a cell of it *)
  destruct (moda_spec (vecindario_de pred 3 r c)) as [_ Hpos].
  destruct Hpos as (_ & Hin & _); [by exists k|].
  by apply Hall.
Qed.

Lemma pred_filtrado_uniforme_witness : celda (pred_filtrado pred_constante) 1 1 = 4.
Proof.
  apply (pred_filtrado_uniforme pred_constante 1 1 4); [lia|].
  intros x Hx. rewrite vecindario_de_3 in Hx. simpl in Hx.
  repeat (apply elem_of_cons in Hx as [-> | Hx]; [done|]). by apply elem_of_nil in Hx.
Defined.

(** The missing pixel in the middle of [pred_hueco] is filled with the
    majority of its neighbours. *)
Example pred_filtrado_hueco : celda (pred_filtrado pred_hueco) 1 1 = 2.
Proof. reflexivity. Qed.

End MajorityFilterExtra.

(** ** More on the statistics and the cropped bands *)

Section StatsExtra.

Lemma leb_antisim (x y : f32) :
  F32.leb x y = true → F32.leb y x = true → casi_igual x y.
Proof.
  destruct x as [s|s| |s m e], y as [s'|s'| |s' m' e']; try done;
    destruct s, s'; try done; try (by left); try (by right);
    unfold F32.leb, SFleb, SFcompare; intros H1 H2;
    repeat match goal with
    | H : context [Pos.compare_cont Eq ?a ?b] |- _ =>
        change (Pos.compare_cont Eq a b) with (Pos.compare a b) in H;
        destruct (Pos.compare_spec a b)
    | H : context [Z.compare ?a ?b] |- _ => destruct (Z.compare_spec a b)
    end; simpl in *; try done; try lia; left; by subst.
Qed.

Lemma es_minimo_f_perm (m m' : f32) (v v' : list f32) :
  v ≡ₚ v' → es_minimo_f m v → es_minimo_f m' v' → casi_igual m m'.
Proof.
  intros Hp [Hin Hlb] [Hin' Hlb']. rewrite <- Hp in Hin'. rewrite Hp in Hin.
  apply leb_antisim; [by apply Hlb | by apply Hlb'].
Qed.

Lemma es_maximo_f_perm (m m' : f32) (v v' : list f32) :
  v ≡ₚ v' → es_maximo_f m v → es_maximo_f m' v' → casi_igual m m'.
Proof.
  intros Hp [Hin Hub] [Hin' Hub']. rewrite <- Hp in Hin'. rewrite Hp in Hin.
  apply leb_antisim; [by apply Hub' | by apply Hub].
Qed.

(** The minimum and the maximum of a time series do not depend on the
    order of the time slices (up to the sign of a zero), are samples of
    the series when it has a valid one, and the minimum is not above the
    maximum. *)
Theorem nanmin_nanmax_orden (serie serie' : list f32) :
  serie ≡ₚ serie' →
  casi_igual (nanmin1d serie) (nanmin1d serie') ∧
  casi_igual (nanmax1d serie) (nanmax1d serie') ∧
  (filter valida serie ≠ [] →
     nanmin1d serie ∈ serie ∧ nanmax1d serie ∈ serie ∧
     F32.leb (nanmin1d serie) (nanmax1d serie) = true).
Proof.
  intros Hp.
  assert (Hf : filter valida serie ≡ₚ filter valida serie') by (by rewrite Hp).
  pose proof (nanmin1d_spec serie) as H1. pose proof (nanmin1d_spec serie') as H1'.
  pose proof (nanmax1d_spec serie) as H2. pose proof (nanmax1d_spec serie') as H2'.
  destruct (filter valida serie) as [|x v] eqn:E.
  - destruct (filter valida serie') as [|x' v'] eqn:E'.
    2:{ by apply Permutation_nil_cons in Hf. }
    rewrite H1, H1', H2, H2'. split; [by left|]. split; [by left | done].
  - destruct (filter valida serie') as [|x' v'] eqn:E'.
    { symmetry in Hf. by apply Permutation_nil_cons in Hf. }
    split; [by eapply es_minimo_f_perm|]. split; [by eapply es_maximo_f_perm|].
    intros _. destruct H1 as [Hin1 Hlb], H2 as [Hin2 Hub].
    assert (Hsub : ∀ y, y ∈ x :: v → y ∈ serie).
    { intros y Hy. rewrite <- E in Hy. by apply list_elem_of_filter in Hy as [_ ?]. }
    split; [by apply Hsub|]. split; [by apply Hsub|]. by apply Hlb.
Qed.

Lemma nanmin_nanmax_orden_witness :
  casi_igual (nanmin1d serie_ej) (nanmin1d (rev serie_ej)) ∧
  casi_igual (nanmax1d serie_ej) (nanmax1d (rev serie_ej)) ∧
  (filter valida serie_ej ≠ [] →
     nanmin1d serie_ej ∈ serie_ej ∧ nanmax1d serie_ej ∈ serie_ej ∧
     F32.leb (nanmin1d serie_ej) (nanmax1d serie_ej) = true).
Proof.
  apply (nanmin_nanmax_orden serie_ej (rev serie_ej)).
  apply Permutation_rev.
Defined.

(** Bands of different shapes, or no band at all, cannot be stacked:
    the statistics step raises. *)
Theorem calcular_estadisticos_error (bandas : list (ndarray f32)) :
  calcular_estadisticos bandas = None ↔
  bandas = [] ∨ ∃ b b', b ∈ bandas ∧ b' ∈ bandas ∧ shape b ≠ shape b'.
Proof.
  unfold calcular_estadisticos, np_stack. destruct bandas as [|b0 resto]; simpl.
  - split; [by left | done].
  - destruct (decide (Forall (λ b', shape b' = shape b0) resto)) as [Hall | Hno]; simpl.
    + split; [done|]. intros [? | (b & b' & Hb & Hb' & Hne)]; [done|].
      rewrite Forall_forall in Hall. destruct Hne.
      apply elem_of_cons in Hb as [-> | Hb], Hb' as [-> | Hb']; try done.
      * symmetry. by apply Hall.
      * by apply Hall.
      * rewrite (Hall _ Hb). symmetry. by apply Hall.
    + split; [|done]. intros _. right.
      apply not_Forall_Exists in Hno; [|apply _].
      apply Exists_exists in Hno as (b' & Hb' & Hne). simpl in Hne.
      exists b', b0. split; [by right|]. split; [left | done].
Qed.



End StatsExtra.

(** ** Half of the double of a float32 number *)

Section MitadDelDoble.
Local Open Scope Z_scope.

Lemma fexp_f32 (z : Z) : fexp F32.prec F32.emax z = Z.max (z - 24) (-149).
Proof. reflexivity. Qed.

Lemma shr_fexp_sin_desplazar (m e : Z) (l : location) :
  fexp F32.prec F32.emax (Zdigits2 m + e) - e ≤ 0 →
  shr_fexp F32.prec F32.emax m e l = (shr_record_of_loc m l, e).
Proof.
  intros H. unfold shr_fexp, shr.
  destruct (fexp F32.prec F32.emax (Zdigits2 m + e) - e) eqn:E; first [done | lia].
Qed.

Lemma shr_fexp_uno (p : positive) (e : Z) :
  fexp F32.prec F32.emax (Zdigits2 (Zpos p~0) + e) - e = 1 →
  shr_fexp F32.prec F32.emax (Zpos p~0) e loc_Exact =
    ({| shr_m := Zpos p; shr_r := false; shr_s := false |}, e + 1).
Proof. intros H. unfold shr_fexp. rewrite H. reflexivity. Qed.

(** Rounding a mantissa that is already in place. *)
Lemma binary_round_aux_exacto (s : bool) (p : positive) (e : Z) :
  fexp F32.prec F32.emax (Zpos (digits2_pos p) + e) = e → e ≤ 104 →
  binary_round_aux F32.prec F32.emax s (Zpos p) e loc_Exact = S754_finite s p e.
Proof.
  intros Hc He. unfold binary_round_aux.
  rewrite shr_fexp_sin_desplazar by (simpl; lia). simpl.
  rewrite shr_fexp_sin_desplazar by (simpl; lia). simpl.
  change (F32.emax - F32.prec) with 104.
  replace (e <=? 104) with true by (symmetry; apply Z.leb_le; lia). done.
Qed.

(** Rounding an even mantissa with one bit too many. *)
Lemma binary_round_aux_par (s : bool) (p : positive) (e : Z) :
  fexp F32.prec F32.emax (Zpos (Pos.succ (digits2_pos p)) + e) = e + 1 →
  fexp F32.prec F32.emax (Zpos (digits2_pos p) + (e + 1)) = e + 1 →
  e + 1 ≤ 104 →
  binary_round_aux F32.prec F32.emax s (Zpos p~0) e loc_Exact = S754_finite s p (e + 1).
Proof.
  intros H1 H2 He. unfold binary_round_aux.
  rewrite shr_fexp_uno by (simpl; lia). simpl.
  rewrite shr_fexp_sin_desplazar by (simpl; lia). simpl.
  change (F32.emax - F32.prec) with 104.
  replace (e + 1 <=? 104) with true by (symmetry; apply Z.leb_le; lia). done.
Qed.

Lemma shl_align_igual (mx : positive) (ex ex' : Z) :
  0 ≤ ex' - ex → shl_align mx ex ex' = (mx, ex).
Proof. intros H. unfold shl_align. destruct (ex' - ex) eqn:E; first [done | lia]. Qed.

Lemma div_eucl_div_mod (a b : Z) : Z.div_eucl a b = (a / b, a mod b).
Proof. unfold Z.div, Z.modulo. by destruct (Z.div_eucl a b). Qed.

(** The core of a division by 2. *)
Lemma div_core_dos (M : positive) (E : Z) (k : positive) :
  let e' := Z.min (fexp F32.prec F32.emax (Zpos (digits2_pos M) + E - 2)) (E + 22) in
  E + 22 - e' = Zpos k →
  SFdiv_core_binary F32.prec F32.emax (Zpos M) E 8388608 (-22) =
    (Zpos M * 2 ^ Zpos k / 8388608, e',
     new_location 8388608 ((Zpos M * 2 ^ Zpos k) mod 8388608)).
Proof.
  intros e' Hk. unfold SFdiv_core_binary.
  change (Zdigits2 (Zpos M)) with (Zpos (digits2_pos M)).
  change (Zdigits2 8388608) with 24.
  replace (Zpos (digits2_pos M) + E - (24 + -22)) with (Zpos (digits2_pos M) + E - 2) by lia.
  replace (E - -22) with (E + 22) by lia. fold e'. rewrite Hk.
  rewrite Z.shiftl_mul_pow2 by lia. by rewrite div_eucl_div_mod.
Qed.

Lemma doble_entre_dos (M : positive) :
  Zpos M * 2 ^ 24 / 8388608 = Zpos M~0 ∧ (Zpos M * 2 ^ 24) mod 8388608 = 0.
Proof.
  replace (Zpos M * 2 ^ 24) with (Zpos M~0 * 8388608) by lia.
  split; [by apply Z.div_mul | by apply Z.mod_mul].
Qed.

Lemma entre_dos_23 (M : positive) :
  Zpos M * 2 ^ 23 / 8388608 = Zpos M ∧ (Zpos M * 2 ^ 23) mod 8388608 = 0.
Proof.
  change (2 ^ 23) with 8388608.
  split; [by apply Z.div_mul | by apply Z.mod_mul].
Qed.

Lemma par_entre_dos_22 (M : positive) :
  Zpos M~0 * 2 ^ 22 / 8388608 = Zpos M ∧ (Zpos M~0 * 2 ^ 22) mod 8388608 = 0.
Proof.
  replace (Zpos M~0 * 2 ^ 22) with (Zpos M * 8388608) by lia.
  split; [by apply Z.div_mul | by apply Z.mod_mul].
Qed.

(** A float32 number x whose double does not overflow: (x + x) / 2 is
    x. *)
Lemma mitad_del_doble (x : f32) :
  es_float32 x → doble_sin_desborde x → F32.div (F32.add x x) F32.dos = x.
Proof.
  destruct x as [[]|[]| |s m e]; try done.
  unfold es_float32, doble_sin_desborde. intros Hv He. simpl in Hv. unfold bounded, canonical_mantissa in Hv.
  apply andb_true_iff in Hv as [Hc Hb]. apply Z.eqb_eq in Hc. apply Z.leb_le in Hb.
  rewrite fexp_f32 in Hc.
  (* the sum *)
  assert (Hsum : F32.add (S754_finite s m e) (S754_finite s m e) =
                 binary_round F32.prec F32.emax s m~0 e).
  { unfold F32.add, SFadd. rewrite Z.min_id, shl_align_igual by lia. simpl.
    destruct s; simpl; by rewrite Pos.add_diag. }
  rewrite Hsum. unfold binary_round.
  change (digits2_pos m~0) with (Pos.succ (digits2_pos m)).
  rewrite shl_align_igual by (rewrite fexp_f32; lia).
  destruct (decide (Zpos (digits2_pos m) = 24)) as [Hd | Hd].
  - (* a normal number: the sum has the next exponent *)
    rewrite binary_round_aux_par by (rewrite ?fexp_f32; lia).
    unfold F32.div, F32.dos, SFdiv.
    destruct (decide (e = -149)) as [-> | Hmin].
    + rewrite (div_core_dos m (-149 + 1) 23) by (cbv zeta; rewrite fexp_f32; lia).
      destruct (entre_dos_23 m) as [-> ->].
      replace (Z.min _ _) with (-149) by (rewrite fexp_f32; lia).
      change (new_location 8388608 0) with loc_Exact.
      rewrite binary_round_aux_exacto by (rewrite ?fexp_f32; lia). by destruct s.
    + rewrite (div_core_dos m (e + 1) 24) by (cbv zeta; rewrite fexp_f32; lia).
      destruct (doble_entre_dos m) as [-> ->].
      replace (Z.min _ _) with (e - 1) by (rewrite fexp_f32; lia).
      change (new_location 8388608 0) with loc_Exact.
      change (digits2_pos m~0) with (Pos.succ (digits2_pos m)).
      rewrite binary_round_aux_par by (rewrite ?fexp_f32; lia).
      replace (e - 1 + 1) with e by lia. by destruct s.
  - (* a subnormal number: the sum keeps the exponent *)
    assert (e = -149) as -> by lia.
    change (Pos.succ (digits2_pos m)) with (digits2_pos m~0).
    rewrite binary_round_aux_exacto
      by (change (digits2_pos m~0) with (Pos.succ (digits2_pos m)); rewrite ?fexp_f32; lia).
    unfold F32.div, F32.dos, SFdiv.
    rewrite (div_core_dos m~0 (-149) 22)
      by (cbv zeta; change (digits2_pos m~0) with (Pos.succ (digits2_pos m));
          rewrite fexp_f32; lia).
    destruct (par_entre_dos_22 m) as [-> ->].
    replace (Z.min _ _) with (-149)
      by (change (digits2_pos m~0) with (Pos.succ (digits2_pos m)); rewrite fexp_f32; lia).
    change (new_location 8388608 0) with loc_Exact.
    rewrite binary_round_aux_exacto by (rewrite ?fexp_f32; lia). by destruct s.
Qed.

End MitadDelDoble.

(** ** The median *)

Section Median.

(** The median of the valid samples of a series. With an odd number of
    them the middle sample x has as many samples below as above it and
    the result is the float32 mean (x + x) / 2 of x with itself, which is
    x unless x + x overflows; with an even number it is the float32 mean
    (a + b) / 2 of the two samples in the middle. *)
Theorem nanmedian1d_centro (serie : list f32) :
  let v := filter valida serie in
  v ≠ [] →
  ∃ menores medio mayores,
    v ≡ₚ menores ++ medio ++ mayores ∧
    length menores = length mayores ∧
    (∀ x y, x ∈ menores → y ∈ medio → menor_igual x y) ∧
    (∀ x y, x ∈ medio → y ∈ mayores → menor_igual x y) ∧
    ((∃ x, medio = [x] ∧
           nanmedian1d serie = F32.div (F32.add x x) F32.dos ∧
           (es_float32 x → doble_sin_desborde x → nanmedian1d serie = x)) ∨
     (∃ a b, medio = [a; b] ∧ menor_igual a b ∧
             nanmedian1d serie = F32.div (F32.add a b) F32.dos)).
Proof.
  intros v Hne. pose proof (nanmedian1d_spec serie) as Hmed. fold v in Hmed.
  destruct v as [|x0 v0]; [done|].
  destruct Hmed as (menores & medio & mayores & a & b & Hp & Hl & Hm & Hlo & Hab & Hhi & E).
  exists menores, medio, mayores. split; [exact Hp|]. split; [exact Hl|].
  rewrite Forall_forall in Hlo. rewrite Forall_forall in Hhi.
  destruct Hm as [[-> ->] | ->].
  - split; [|split].
    + intros x y Hx Hy. apply list_elem_of_singleton in Hy as ->. by apply Hlo.
    + intros x y Hx Hy. apply list_elem_of_singleton in Hx as ->. by apply Hhi.
    + left. exists a. split; [done|]. split; [exact E|].
      intros Hf Hd. rewrite E. by apply mitad_del_doble.
  - split; [|split; [|right; by exists a, b]].
    + intros x y Hx Hy. apply elem_of_cons in Hy as [-> | Hy]; [by apply Hlo|].
      apply list_elem_of_singleton in Hy as ->.
      eapply leb_trans; [by apply Hlo | exact Hab].
    + intros x y Hx Hy. apply elem_of_cons in Hx as [-> | Hx].
      * eapply leb_trans; [exact Hab | by apply Hhi].
      * apply list_elem_of_singleton in Hx as ->. by apply Hhi.
Qed.

Lemma nanmedian1d_centro_witness :
  ∃ menores medio mayores,
    filter valida serie_ej ≡ₚ menores ++ medio ++ mayores ∧
    length menores = length mayores ∧
    (∀ x y, x ∈ menores → y ∈ medio → menor_igual x y) ∧
    (∀ x y, x ∈ medio → y ∈ mayores → menor_igual x y) ∧
    ((∃ x, medio = [x] ∧
           nanmedian1d serie_ej = F32.div (F32.add x x) F32.dos ∧
           (es_float32 x → doble_sin_desborde x → nanmedian1d serie_ej = x)) ∨
     (∃ a b, medio = [a; b] ∧ menor_igual a b ∧
             nanmedian1d serie_ej = F32.div (F32.add a b) F32.dos)).
Proof.
  apply (nanmedian1d_centro serie_ej). discriminate.
Defined.

(** At the edge of the format the mean of the middle sample with itself
    overflows: the median of the single sample 2^127 is infinite. *)
Example nanmedian1d_desborde :
  nanmedian1d [F32.nan; dos_127] = S754_infinity false ∧
  es_float32 dos_127 ∧ ¬ doble_sin_desborde dos_127.
Proof. split; [reflexivity|]. split; [reflexivity|]. simpl. lia. Qed.

End Median.

(** ** Cropping, gap filling and statistics together *)

Section CropFillReduce.








(** The run on the sample rasters: the median of the pixel (5, 5) of the
    window over the seven months, May interpolated to 0.4 there. *)
Example pasos_3_a_4_ej :
  (pasos_3_a_4 (Area 1 19 2 38 36 18) rasters_cs_ej (estado_con_verano (np_full 18 36 uno))
     ≫= λ r, Some (celda r.1.1.1.1 5 5, celda r.1.1.1.2 5 5, celda r.1.1.2 5 5))
  = Some (F32.decimal 5 1, F32.decimal 2 1, F32.decimal 7 1).
Proof. vm_compute. reflexivity. Qed.

End CropFillReduce.
